(** * friendtech: the ingestion core, embedded and verified

    A shallow embedding of the checkpointed block scanner ([src/utils.py],
    [src/scanner.py]), the persistence operations ([db/operations.py],
    [db/client.py], [db/models.py]), the bonding-curve pricing
    ([src/contract.py]) and the lookup of the social identities
    ([update_twitter_info], with the answers of [src/friendtech.py] and
    [src/twitterscore.py]), with the properties of their specification and
    further properties of the code.

    Conventions of the embedding:
    - Python [int] is [Z]; [bytes] is [list byte]; [str] is [string];
    - Python [float] is IEEE binary64, taken from [SpecFloat] (53 bits of
      precision, round to nearest even), in the pricing functions; the
      readings of [time()] and the failure ratio of the endpoint selector
      are exact rationals ([Q]);
    - a raised exception is the [Raise] result of a call, and a call that
      reads or writes the scanner is a function of the state;
    - the world outside the process (the clock, the endpoints, the ABI
      decoder, the faults of the database server) is a parameter;
    - the tasks of an [asyncio.gather] run one after the other, in task
      order, which is the order of its results;
    - a [dict] keyed by endpoint URL is a [gmap string _]; a [dict] whose
      iteration order is observed is an association list in insertion order;
    - a SQL table is the list of its rows. *)

From Stdlib Require Import ZArith QArith Lia Lqa Bool Ascii String.
From Stdlib Require Import Strings.Byte.
From Stdlib Require Import Floats.SpecFloat.
From stdpp Require Import base option list gmap strings.

#[local] Open Scope Z_scope.

(** ** Python built-ins used by the sources *)

Module Py.

(** The result of a call: a value, or an exception of the given kind. *)
Inductive result (E A : Type) : Type :=
| Return (a : A)
| Raise (e : E).
Arguments Return {E A} a.
Arguments Raise {E A} e.

(** [len(range(start, stop, step))] for [step <> 0]. *)
Definition range_len (start stop step : Z) : Z :=
  if 0 <? step then
    if start <? stop then (stop - start - 1) / step + 1 else 0
  else
    if stop <? start then (start - stop - 1) / (- step) + 1 else 0.

(** [range(start, stop, step)]; [None] is the [ValueError] of a zero step. *)
Definition range3 (start stop step : Z) : option (list Z) :=
  if step =? 0 then None
  else Some (map (fun k => start + Z.of_nat k * step)
                 (seq 0 (Z.to_nat (range_len start stop step)))).

(** [range(start, stop)]. *)
Definition range (start stop : Z) : list Z :=
  map (fun k => start + Z.of_nat k) (seq 0 (Z.to_nat (stop - start))).

End Py.

(** ** Python floats: IEEE binary64 *)

Module Float.

Definition prec : Z := 53.
Definition emax : Z := 1024.

Definition float : Type := spec_float.

(** [float(z)] for a Python [int]: correctly rounded, to nearest even;
    [None] is the [OverflowError] of an [int] too large for a float. *)
Definition of_int (z : Z) : option float :=
  match binary_normalize prec emax z 0 false with
  | S754_infinity _ => None
  | f => Some f
  end.

Definition mul : float → float → float := SFmul prec emax.
Definition add : float → float → float := SFadd prec emax.
Definition sub : float → float → float := SFsub prec emax.

(** The literal [0.05], the double [0x1.999999999999ap-5]. *)
Definition lit_0_05 : float := S754_finite false 7205759403792794 (-57).

(** The exact value of a finite float. *)
Definition to_Q (f : float) : option Q :=
  match f with
  | S754_zero _ => Some 0%Q
  | S754_finite s m e =>
      Some (inject_Z (if s then Z.neg m else Z.pos m) * Qpower 2 e)%Q
  | _ => None
  end.

End Float.

(** ** The pricing collaborator ([src/contract.py]) *)

Module Contract.

(** [Contract.calc_price]: integer arithmetic only, which raises nothing. *)
Definition calc_price (supply amount : Z) : Z :=
  let sum1 :=
    if supply =? 0 then 0
    else (supply - 1) * supply * (2 * (supply - 1) + 1) / 6 in
  let sum2 :=
    if (supply =? 0) && (amount =? 1) then 0
    else (supply - 1 + amount) * (supply + amount)
         * (2 * (supply - 1 + amount) + 1) / 6 in
  let summation := sum2 - sum1 in
  summation * 10 ^ 18 / 16000.

(** [Contract.calc_buy_price_after_fee]; [None] is the [None] returned by
    the [except] branch.  [price * 0.05] and [price + protocol_fee] convert
    the integer [price] to a float. *)
Definition calc_buy_price_after_fee (supply amount : Z) : option Float.float :=
  let price := calc_price supply amount in
  price_f ← Float.of_int price;
  let protocol_fee := Float.mul price_f Float.lit_0_05 in
  let subject_fee := Float.mul price_f Float.lit_0_05 in
  Some (Float.add (Float.add price_f protocol_fee) subject_fee).

(** [Contract.calc_sell_price_after_fee]. *)
Definition calc_sell_price_after_fee (supply amount : Z) : option Float.float :=
  let price := calc_price (supply - amount) amount in
  price_f ← Float.of_int price;
  let protocol_fee := Float.mul price_f Float.lit_0_05 in
  let subject_fee := Float.mul price_f Float.lit_0_05 in
  Some (Float.sub (Float.sub price_f protocol_fee) subject_fee).

End Contract.

(** ** Byte strings and hexadecimal text *)

Module Bytes.

Definition bytes : Type := list byte.

#[export] Instance byte_eq_dec : EqDecision byte := Byte.byte_eq_dec.

(** [Py_ISSPACE]: space, and the characters 9 to 13. *)
Definition is_space (c : ascii) : bool :=
  let n := N_of_ascii c in
  ((n =? 32) || ((9 <=? n) && (n <=? 13)))%N.

(** The value of a hexadecimal digit, either case. *)
Definition digit_value (c : ascii) : option N :=
  let n := N_of_ascii c in
  if ((48 <=? n) && (n <=? 57))%N then Some (n - 48)%N
  else if ((97 <=? n) && (n <=? 102))%N then Some (n - 87)%N
  else if ((65 <=? n) && (n <=? 70))%N then Some (n - 55)%N
  else None.

(** [bytes.fromhex]: two digits per byte, white space skipped before a
    pair; [None] is its [ValueError]. *)
Fixpoint fromhex_chars (l : list ascii) : option bytes :=
  match l with
  | [] => Some []
  | c :: l' =>
      if is_space c then fromhex_chars l'
      else
        match digit_value c, l' with
        | Some top, d :: l'' =>
            match digit_value d with
            | Some bot =>
                rest ← fromhex_chars l'';
                Some (byte_of_ascii (ascii_of_N (16 * top + bot)) :: rest)
            | None => None
            end
        | _, _ => None
        end
  end.

Definition fromhex (s : string) : option bytes :=
  fromhex_chars (list_ascii_of_string s).

Definition hex_digit (n : N) : ascii :=
  if (n <? 10)%N then ascii_of_N (48 + n) else ascii_of_N (87 + n).

(** [binascii.hexlify(b).decode()]: lower-case digits. *)
Fixpoint hexlify (b : bytes) : string :=
  match b with
  | [] => EmptyString
  | x :: b' =>
      let n := Byte.to_N x in
      String (hex_digit (n / 16)%N) (String (hex_digit (n mod 16)%N) (hexlify b'))
  end.

(** [eth_utils.to_hex] of a byte string. *)
Definition to_hex (b : bytes) : string := String.append "0x" (hexlify b).

(** [s.startswith("0x")] and [s[2:]]. *)
Definition strip_0x (s : string) : option string :=
  match s with
  | String "0" (String "x" rest) => Some rest
  | _ => None
  end.

(** [str.lower] on ASCII text. *)
Definition lower_char (c : ascii) : ascii :=
  let n := N_of_ascii c in
  if ((65 <=? n) && (n <=? 90))%N then ascii_of_N (n + 32) else c.

Fixpoint lower (s : string) : string :=
  match s with
  | EmptyString => EmptyString
  | String c s' => String (lower_char c) (lower s')
  end.

End Bytes.
Export Bytes.

(** ** The record models ([db/models.py]) *)

Module Models.

(** A [Decimal], kept with the exact value it was converted from:
    [Decimal(int)] and [Decimal(float)] lose nothing. *)
Inductive Decimal : Type :=
| Decimal_of_int (z : Z)
| Decimal_of_float (f : Float.float).

Record Trade : Type := {
  trader : bytes;
  subject : bytes;
  is_buy : bool;
  share_amount : Z;
  eth_amount : Decimal;
  protocol_eth_amount : Decimal;
  subject_eth_amount : Decimal;
  trade_supply : Z;
  transaction_hash : bytes;
  block_number : Z;
  timestamp : Z
}.

Record Share : Type := {
  address : bytes;
  twitter_username : option string;
  twitter_name : option string;
  twitter_score : option Float.float;
  registered : option Z;
  last_transaction : Z;
  balance : Decimal;
  buy_price : Decimal;
  sell_price : Decimal;
  supply : Z;
  rank : option Z
}.

(** The values that reach the [bytes] validator: the ABI decoder yields
    an address as text and a hash as [HexBytes]; a stored record yields
    [bytes]. *)
Inductive bytes_input : Type :=
| In_str (s : string)
| In_HexBytes (b : bytes)
| In_bytes (b : bytes).

(** [convert_to_bytes]; [None] is its [ValueError], raised by the last
    branch or by [bytes.fromhex]. *)
Definition convert_to_bytes (value : bytes_input) : option bytes :=
  match value with
  | In_str s =>
      match strip_0x s with
      | Some digits => fromhex digits
      | None => None
      end
  | In_HexBytes b => Some b
  | In_bytes b => Some b
  end.

(** [convert_to_int] and [convert_to_decimal] on a Python [int], the only
    shape the decoder and the aggregator pass for integer fields. *)
Definition convert_to_int (value : Z) : Z := value.
Definition convert_to_decimal_int (value : Z) : Decimal := Decimal_of_int value.

(** [convert_to_decimal] on what [calc_*_price_after_fee] returns, followed
    by the check of the [Decimal] field: a float becomes [Decimal(value)];
    [None] is handed back as it is, and the field refuses it, as it refuses
    an infinity or a NaN.  [None] is the [ValidationError]. *)
Definition convert_to_decimal_float (value : option Float.float) : option Decimal :=
  match value with
  | Some (S754_zero s) => Some (Decimal_of_float (S754_zero s))
  | Some (S754_finite s m e) => Some (Decimal_of_float (S754_finite s m e))
  | Some (S754_infinity _) | Some S754_nan | None => None
  end.

(** The [trade_data] dictionary built by the decoder. *)
Record trade_data : Type := {
  td_trader : string;
  td_subject : string;
  td_is_buy : bool;
  td_share_amount : Z;
  td_eth_amount : Z;
  td_protocol_eth_amount : Z;
  td_subject_eth_amount : Z;
  td_supply : Z;
  td_transaction_hash : bytes;
  td_block_number : Z;
  td_timestamp : Z
}.

(** [Trade.model_validate]; [None] is the [ValidationError]. *)
Definition Trade_model_validate (d : trade_data) : option Trade :=
  trader ← convert_to_bytes (In_str (td_trader d));
  subject ← convert_to_bytes (In_str (td_subject d));
  transaction_hash ← convert_to_bytes (In_HexBytes (td_transaction_hash d));
  Some {|
    trader := trader;
    subject := subject;
    is_buy := td_is_buy d;
    share_amount := convert_to_int (td_share_amount d);
    eth_amount := convert_to_decimal_int (td_eth_amount d);
    protocol_eth_amount := convert_to_decimal_int (td_protocol_eth_amount d);
    subject_eth_amount := convert_to_decimal_int (td_subject_eth_amount d);
    trade_supply := convert_to_int (td_supply d);
    transaction_hash := transaction_hash;
    block_number := convert_to_int (td_block_number d);
    timestamp := convert_to_int (td_timestamp d)
  |}.

(** The [share_data] dictionary built by the aggregator; the key
    ['registered'] is present for a subject to create only. *)
Record share_data : Type := {
  sd_address : bytes;
  sd_last_transaction : Z;
  sd_balance : Z;
  sd_buy_price : option Float.float;
  sd_sell_price : option Float.float;
  sd_supply : Z;
  sd_registered : option Z
}.

(** The [Share] built from the dictionary's keys; [None] is the
    [ValidationError]. *)
Definition Share_of_data (d : share_data) : option Share :=
  address ← convert_to_bytes (In_bytes (sd_address d));
  buy_price ← convert_to_decimal_float (sd_buy_price d);
  sell_price ← convert_to_decimal_float (sd_sell_price d);
  Some {|
    address := address;
    twitter_username := None;
    twitter_name := None;
    twitter_score := None;
    registered := convert_to_int <$> sd_registered d;
    last_transaction := convert_to_int (sd_last_transaction d);
    balance := convert_to_decimal_int (sd_balance d);
    buy_price := buy_price;
    sell_price := sell_price;
    supply := convert_to_int (sd_supply d);
    rank := None
  |}.

End Models.
Export Models.

#[export] Instance byte_countable : Countable byte :=
  inj_countable Byte.to_N Byte.of_N Byte.of_to_N.

(** ** The persistence operations ([db/client.py], [db/operations.py]) *)

Module Db.
Import Py.

Inductive DbError : Type :=
| UniqueViolation        (* a plain INSERT met a row with the same key *)
| InvalidConflictTarget  (* ON CONFLICT names a column that is not unique *)
| DataError              (* a value does not fit its column *)
| ServerFault.           (* any failure of the server or the connection *)

(** The stored rows, with the two properties of the tables that the
    executed statements depend on and no source file fixes: whether
    [trades.transaction_hash] and [shares.address] carry a unique
    constraint. *)
Record Database : Type := {
  trades : list Trade;
  shares : list Share;
  unique_transaction_hash : bool;
  unique_address : bool
}.

Definition with_trades (db : Database) (rows : list Trade) : Database :=
  {| trades := rows; shares := shares db;
     unique_transaction_hash := unique_transaction_hash db;
     unique_address := unique_address db |}.

Definition with_shares (db : Database) (rows : list Share) : Database :=
  {| trades := trades db; shares := rows;
     unique_transaction_hash := unique_transaction_hash db;
     unique_address := unique_address db |}.

(** The declared fields of [Share], in declaration order. *)
Inductive share_field : Type :=
| F_address | F_twitter_username | F_twitter_name | F_twitter_score
| F_registered | F_last_transaction | F_balance | F_buy_price
| F_sell_price | F_supply | F_rank.

#[export] Instance share_field_eq_dec : EqDecision share_field.
Proof. solve_decision. Defined.

Inductive value : Type :=
| V_bytes (b : bytes)
| V_str (s : string)
| V_float (f : Float.float)
| V_int (z : Z)
| V_decimal (d : Decimal).

(** [share.model_dump().items()]: [None] for a field that is [None]. *)
Definition model_dump (s : Share) : list (share_field * option value) :=
  [ (F_address, Some (V_bytes (address s)));
    (F_twitter_username, V_str <$> twitter_username s);
    (F_twitter_name, V_str <$> twitter_name s);
    (F_twitter_score, V_float <$> twitter_score s);
    (F_registered, V_int <$> registered s);
    (F_last_transaction, Some (V_int (last_transaction s)));
    (F_balance, Some (V_decimal (balance s)));
    (F_buy_price, Some (V_decimal (buy_price s)));
    (F_sell_price, Some (V_decimal (sell_price s)));
    (F_supply, Some (V_int (supply s)));
    (F_rank, V_int <$> rank s) ].

(** [SET field = v] on one row; [None] when the value does not fit. *)
Definition set_column (f : share_field) (v : value) (row : Share) : option Share :=
  match f, v with
  | F_address, V_bytes b =>
      Some {| address := b; twitter_username := twitter_username row;
              twitter_name := twitter_name row; twitter_score := twitter_score row;
              registered := registered row; last_transaction := last_transaction row;
              balance := balance row; buy_price := buy_price row;
              sell_price := sell_price row; supply := supply row; rank := rank row |}
  | F_twitter_username, V_str s =>
      Some {| address := address row; twitter_username := Some s;
              twitter_name := twitter_name row; twitter_score := twitter_score row;
              registered := registered row; last_transaction := last_transaction row;
              balance := balance row; buy_price := buy_price row;
              sell_price := sell_price row; supply := supply row; rank := rank row |}
  | F_twitter_name, V_str s =>
      Some {| address := address row; twitter_username := twitter_username row;
              twitter_name := Some s; twitter_score := twitter_score row;
              registered := registered row; last_transaction := last_transaction row;
              balance := balance row; buy_price := buy_price row;
              sell_price := sell_price row; supply := supply row; rank := rank row |}
  | F_twitter_score, V_float x =>
      Some {| address := address row; twitter_username := twitter_username row;
              twitter_name := twitter_name row; twitter_score := Some x;
              registered := registered row; last_transaction := last_transaction row;
              balance := balance row; buy_price := buy_price row;
              sell_price := sell_price row; supply := supply row; rank := rank row |}
  | F_registered, V_int z =>
      Some {| address := address row; twitter_username := twitter_username row;
              twitter_name := twitter_name row; twitter_score := twitter_score row;
              registered := Some z; last_transaction := last_transaction row;
              balance := balance row; buy_price := buy_price row;
              sell_price := sell_price row; supply := supply row; rank := rank row |}
  | F_last_transaction, V_int z =>
      Some {| address := address row; twitter_username := twitter_username row;
              twitter_name := twitter_name row; twitter_score := twitter_score row;
              registered := registered row; last_transaction := z;
              balance := balance row; buy_price := buy_price row;
              sell_price := sell_price row; supply := supply row; rank := rank row |}
  | F_balance, V_decimal d =>
      Some {| address := address row; twitter_username := twitter_username row;
              twitter_name := twitter_name row; twitter_score := twitter_score row;
              registered := registered row; last_transaction := last_transaction row;
              balance := d; buy_price := buy_price row;
              sell_price := sell_price row; supply := supply row; rank := rank row |}
  | F_buy_price, V_decimal d =>
      Some {| address := address row; twitter_username := twitter_username row;
              twitter_name := twitter_name row; twitter_score := twitter_score row;
              registered := registered row; last_transaction := last_transaction row;
              balance := balance row; buy_price := d;
              sell_price := sell_price row; supply := supply row; rank := rank row |}
  | F_sell_price, V_decimal d =>
      Some {| address := address row; twitter_username := twitter_username row;
              twitter_name := twitter_name row; twitter_score := twitter_score row;
              registered := registered row; last_transaction := last_transaction row;
              balance := balance row; buy_price := buy_price row;
              sell_price := d; supply := supply row; rank := rank row |}
  | F_supply, V_int z =>
      Some {| address := address row; twitter_username := twitter_username row;
              twitter_name := twitter_name row; twitter_score := twitter_score row;
              registered := registered row; last_transaction := last_transaction row;
              balance := balance row; buy_price := buy_price row;
              sell_price := sell_price row; supply := z; rank := rank row |}
  | F_rank, V_int z =>
      Some {| address := address row; twitter_username := twitter_username row;
              twitter_name := twitter_name row; twitter_score := twitter_score row;
              registered := registered row; last_transaction := last_transaction row;
              balance := balance row; buy_price := buy_price row;
              sell_price := sell_price row; supply := supply row; rank := Some z |}
  | _, _ => None
  end.

(** The value a row holds in a column. *)
Definition column (f : share_field) (row : Share) : option value :=
  default None (snd <$> List.find (fun fv => bool_decide (fst fv = f)) (model_dump row)).

(** The [ON CONFLICT] clause of an [INSERT]. *)
Inductive conflict_clause : Type :=
| On_conflict_do_nothing
| No_conflict_clause.

(** The statements the operations send, with their arguments bound. *)
Inductive statement : Type :=
| Insert_trade (clause : conflict_clause) (row : Trade)
| Insert_share (clause : conflict_clause) (row : Share)
| Update_share (setters : list (share_field * value)) (where_address : bytes).

Section Server.

(** The failures of the server that the model does not derive from the
    rows: [fault q] holds when the server refuses statement [q]. *)
Variable fault : statement → bool.

Fixpoint apply_setters (setters : list (share_field * value)) (row : Share)
  : option Share :=
  match setters with
  | [] => Some row
  | (f, v) :: rest => row' ← set_column f v row; apply_setters rest row'
  end.

(** [UPDATE shares SET ... WHERE address = $1] over the rows. *)
Fixpoint update_rows (setters : list (share_field * value)) (a : bytes)
  (rows : list Share) : option (list Share) :=
  match rows with
  | [] => Some []
  | row :: rest =>
      row' ← (if bool_decide (address row = a) then apply_setters setters row
              else Some row);
      rest' ← update_rows setters a rest;
      Some (row' :: rest')
  end.

Definition has_hash (h : bytes) (rows : list Trade) : bool :=
  existsb (fun r => bool_decide (transaction_hash r = h)) rows.

Definition has_address (a : bytes) (rows : list Share) : bool :=
  existsb (fun r => bool_decide (address r = a)) rows.

(** An [INSERT] of a row whose key column is [unique] or not and whose key
    is [taken] or not: [ON CONFLICT (key) DO NOTHING] needs the unique
    constraint and skips a taken key; a plain [INSERT] of a taken key
    violates the constraint. *)
Definition insert_row (unique taken : bool) (clause : conflict_clause)
  (unchanged added : Database) : result DbError Database :=
  match clause with
  | On_conflict_do_nothing =>
      if unique then (if taken then Return unchanged else Return added)
      else Raise InvalidConflictTarget
  | No_conflict_clause =>
      if unique && taken then Raise UniqueViolation else Return added
  end.

(** One statement on one connection. *)
Definition execute (q : statement) (db : Database) : result DbError Database :=
  if fault q then Raise ServerFault
  else
    match q with
    | Insert_trade clause row =>
        insert_row (unique_transaction_hash db)
                   (has_hash (transaction_hash row) (trades db)) clause
                   db (with_trades db (trades db ++ [row]))
    | Insert_share clause row =>
        insert_row (unique_address db)
                   (has_address (address row) (shares db)) clause
                   db (with_shares db (shares db ++ [row]))
    | Update_share setters a =>
        match update_rows setters a (shares db) with
        | Some rows => Return (with_shares db rows)
        | None => Raise DataError
        end
    end.

(** The statements of a list in order on one connection, up to the
    first that raises; the rows reached are returned in both cases. *)
Fixpoint execute_all (qs : list statement) (db : Database)
  : result DbError unit * Database :=
  match qs with
  | [] => (Return tt, db)
  | q :: rest =>
      match execute q db with
      | Return db' => execute_all rest db'
      | Raise e => (Raise e, db)
      end
  end.

(** [Database.transaction]: [tx.start()], the body, then [tx.commit()],
    or [tx.rollback()] when the body raises. *)
Definition transaction (body : Database → result DbError unit * Database)
  (db : Database) : result DbError unit * Database :=
  match body db with
  | (Return tt, db') => (Return tt, db')
  | (Raise e, _) => (Raise e, db)
  end.

(** [Database.execute_many]: the statement once per record; the driver
    runs the batch atomically. *)
Definition execute_many {A} (query : A → statement) (records : list A)
  (db : Database) : result DbError unit * Database :=
  transaction (execute_all (map query records)) db.

(** [insert_trades]: [query] is assigned twice, and the second
    assignment is the one that is executed. *)
Definition insert_trades (db : Database) (trades_data : list Trade)
  : result DbError unit * Database :=
  let query := Insert_trade On_conflict_do_nothing in
  let query := Insert_trade No_conflict_clause in
  let values := trades_data in
  execute_many query values db.

(** [get_all_share_addresses]. *)
Definition get_all_share_addresses (db : Database) : gset bytes :=
  list_to_set (map address (shares db)).

(** The loop of [update_shares] that builds [update_queries]. *)
Definition fields_to_update (share : Share) : list (share_field * value) :=
  omap (fun fv =>
          match snd fv with
          | Some v => if bool_decide (fst fv ≠ F_address) then Some (fst fv, v) else None
          | None => None
          end)
       (model_dump share).

Definition update_queries (shares : list Share) : list statement :=
  omap (fun share =>
          match fields_to_update share with
          | [] => None
          | setters => Some (Update_share setters (address share))
          end)
       shares.

(** [update_shares]. *)
Definition update_shares (db : Database) (shares : list Share)
  : result DbError unit * Database :=
  match shares with
  | [] => (Return tt, db)
  | _ => transaction (execute_all (update_queries shares)) db
  end.

(** [insert_shares]. *)
Definition insert_shares (db : Database) (shares : list Share)
  : result DbError unit * Database :=
  match shares with
  | [] => (Return tt, db)
  | _ =>
      let query := Insert_share On_conflict_do_nothing in
      let values := shares in
      execute_many query values db
  end.

(** [get_last_block]: [SELECT MAX(block_number) FROM trades], which is
    NULL on an empty table, and the [0] returned in its place. *)
Definition max_block_number (rows : list Trade) : option Z :=
  match rows with
  | [] => None
  | row :: rest =>
      Some (fold_left (fun m r => Z.max m (block_number r)) rest (block_number row))
  end.

Definition get_last_block (db : Database) : Z :=
  match max_block_number (trades db) with
  | Some last_block => last_block
  | None => 0
  end.

(** The order of the values of a [numeric] column: the finite values by
    their exact value, above [-Infinity] and below [Infinity], and [NaN]
    above all. *)
Definition numeric_key (d : Decimal) : Z * Q :=
  match d with
  | Decimal_of_int z => (1, inject_Z z)
  | Decimal_of_float (S754_zero _) => (1, 0%Q)
  | Decimal_of_float (S754_finite s m e) =>
      (1, (inject_Z (if s then Z.neg m else Z.pos m) * Qpower 2 e)%Q)
  | Decimal_of_float (S754_infinity true) => (0, 0%Q)
  | Decimal_of_float (S754_infinity false) => (2, 0%Q)
  | Decimal_of_float S754_nan => (3, 0%Q)
  end.

Definition numeric_lt (a b : Decimal) : bool :=
  let '(ca, qa) := numeric_key a in
  let '(cb, qb) := numeric_key b in
  (ca <? cb) || ((ca =? cb) && negb (Qle_bool qb qa)).

(** [ORDER BY balance DESC]: the rows by decreasing balance; the rows of
    one balance, for which the server fixes no order, stay in table order. *)
Fixpoint insert_by_balance (row : Share) (rows : list Share) : list Share :=
  match rows with
  | [] => [row]
  | r :: rest =>
      if numeric_lt (balance row) (balance r) then r :: insert_by_balance row rest
      else row :: rows
  end.

Definition order_by_balance_desc (rows : list Share) : list Share :=
  foldr insert_by_balance [] rows.

(** [get_shares_missing_twitter]; [None] is the error of the server for a
    negative [LIMIT]. *)
Definition get_shares_missing_twitter (db : Database) (limit : Z)
  : option (list Share) :=
  if limit <? 0 then None
  else
    let rows :=
      List.filter (fun row => match twitter_username row with
                              | None => true
                              | Some _ => false
                              end)
                  (shares db) in
    Some (take (Z.to_nat limit) (order_by_balance_desc rows)).

End Server.

End Db.

(** ** The trade aggregator and the checkpoint orchestrator ([src/utils.py]) *)

Module Utils.
Import Py Db.

(** *** [process_trades_to_shares] *)

(** The dictionary [most_recent_trades]: keys in insertion order. *)
Definition dict : Type := list (bytes * Trade).

Fixpoint dict_get (k : bytes) (d : dict) : option Trade :=
  match d with
  | [] => None
  | (k', v) :: rest => if bool_decide (k' = k) then Some v else dict_get k rest
  end.

(** [d[k] = v]: in place for a present key, at the end for a new one. *)
Fixpoint dict_set (k : bytes) (v : Trade) (d : dict) : dict :=
  match d with
  | [] => [(k, v)]
  | (k', v') :: rest =>
      if bool_decide (k' = k) then (k', v) :: rest else (k', v') :: dict_set k v rest
  end.

(** One turn of the reduction loop. *)
Definition reduce_step (most_recent_trades : dict) (trade : Trade) : dict :=
  let subject := subject trade in
  match dict_get subject most_recent_trades with
  | Some current =>
      if timestamp current <? timestamp trade
      then dict_set subject trade most_recent_trades
      else most_recent_trades
  | None => dict_set subject trade most_recent_trades
  end.

Definition most_recent_trades (trades : list Trade) : dict :=
  fold_left reduce_step trades [].

Definition unique_most_recent_trades (trades : list Trade) : list Trade :=
  map snd (most_recent_trades trades).

Section Reconcile.

Variable fault : statement → bool.

(** [scanner.get_balance] as the aggregator sees it: the balance read
    for an address text, or [None] when the read raises. *)
Variable get_balance : string → option Z.

Definition share_data_of (trade : Trade) (balance : Z) : share_data :=
  {| sd_address := subject trade;
     sd_last_transaction := timestamp trade;
     sd_balance := balance;
     sd_buy_price := Contract.calc_buy_price_after_fee (trade_supply trade) 1;
     sd_sell_price := Contract.calc_sell_price_after_fee (trade_supply trade) 1;
     sd_supply := trade_supply trade;
     sd_registered := None |}.

Definition set_registered (d : share_data) (ts : Z) : share_data :=
  {| sd_address := sd_address d;
     sd_last_transaction := sd_last_transaction d;
     sd_balance := sd_balance d;
     sd_buy_price := sd_buy_price d;
     sd_sell_price := sd_sell_price d;
     sd_supply := sd_supply d;
     sd_registered := Some ts |}.

(** The classification loop; [None] when a balance read raises. *)
Fixpoint classify (existing_shares : gset bytes) (trades : list Trade)
  (shares_to_update shares_to_create : list share_data)
  : option (list share_data * list share_data) :=
  match trades with
  | [] => Some (shares_to_update, shares_to_create)
  | trade :: rest =>
      let address_str := String.append "0x" (hexlify (subject trade)) in
      balance ← get_balance address_str;
      let share_data := share_data_of trade balance in
      if bool_decide (subject trade ∈ existing_shares) then
        classify existing_shares rest (shares_to_update ++ [share_data]) shares_to_create
      else
        classify existing_shares rest shares_to_update
                 (shares_to_create ++ [set_registered share_data (timestamp trade)])
  end.

(** How a call ends. *)
Inductive outcome : Type :=
| Completed              (* both writes done, or not needed *)
| Balance_read_raised    (* the exception leaves the function *)
| Error_logged.          (* the [except] branch of the writes *)

(** What the [try] block can raise. *)
Inductive write_error : Type :=
| Validation_error
| Database_error (e : DbError).

(** [valid_shares = [Share(...) for share in ...]], then the write. *)
Definition write_with (write : Database → list Share → result DbError unit * Database)
  (db : Database) (shares : list share_data) : result write_error unit * Database :=
  match shares with
  | [] => (Return tt, db)
  | _ =>
      match mapM Share_of_data shares with
      | Some valid_shares =>
          match write db valid_shares with
          | (Return _, db') => (Return tt, db')
          | (Raise e, db') => (Raise (Database_error e), db')
          end
      | None => (Raise Validation_error, db)
      end
  end.

(** The [try] block: the update write, then the create write. *)
Definition write_shares (db : Database)
  (shares_to_update shares_to_create : list share_data) : outcome * Database :=
  match write_with (update_shares fault) db shares_to_update with
  | (Raise _, db1) => (Error_logged, db1)
  | (Return _, db1) =>
      match write_with (insert_shares fault) db1 shares_to_create with
      | (Raise _, db2) => (Error_logged, db2)
      | (Return _, db2) => (Completed, db2)
      end
  end.

Definition process_trades_to_shares (db : Database) (trades : list Trade)
  : outcome * Database :=
  let existing_shares := get_all_share_addresses db in
  match classify existing_shares (unique_most_recent_trades trades) [] [] with
  | None => (Balance_read_raised, db)
  | Some (shares_to_update, shares_to_create) =>
      write_shares db shares_to_update shares_to_create
  end.

End Reconcile.

(** *** [update_twitter_info]

    The lines written to the log and the pauses between two attempts are
    left out. *)

(** What a request to one of the two back ends comes to: the decoded
    answer, [None] (returned after an HTTP error), or an exception. *)
Inductive answer (A : Type) : Type :=
| Answered (a : A)
| Answered_none
| Request_raised.
Arguments Answered {A} a.
Arguments Answered_none {A}.
Arguments Request_raised {A}.

(** The keys of the answers that the function reads, with the types the
    fields of [Share] give them; a key that is absent or null is [None]. *)
Record friendtech_data : Type := {
  twitterUsername : option string;
  twitterName : option string;
  ft_rank : option Z
}.

(** ['success'] is read with [twitter_data['success']], which raises for
    an absent key: [None]. *)
Record twitter_data : Type := {
  success : option bool;
  td_twitter_score : option Float.float
}.

(** The two back ends: the answer to the [k]-th request made to each. *)
Record Backends : Type := {
  get_info_from_address : nat → string → answer friendtech_data;
  get_twitter_score : nat → option string → answer twitter_data
}.

(** The requests made so far. *)
Record Lookups : Type := {
  friendtech_requests : nat;
  twitterscore_requests : nat
}.

(** The three assignments [share.twitter_username = ...],
    [share.twitter_name = ...] and [share.rank = ...]. *)
Definition set_identity (share : Share) (username name : option string)
  (rank : option Z) : Share :=
  {| address := address share;
     twitter_username := username;
     twitter_name := name;
     twitter_score := twitter_score share;
     registered := registered share;
     last_transaction := last_transaction share;
     balance := balance share;
     buy_price := buy_price share;
     sell_price := sell_price share;
     supply := supply share;
     rank := convert_to_int <$> rank |}.

(** [share.twitter_score = ...]. *)
Definition set_twitter_score (share : Share) (score : option Float.float) : Share :=
  {| address := address share;
     twitter_username := twitter_username share;
     twitter_name := twitter_name share;
     twitter_score := score;
     registered := registered share;
     last_transaction := last_transaction share;
     balance := balance share;
     buy_price := buy_price share;
     sell_price := sell_price share;
     supply := supply share;
     rank := rank share |}.

(** The float of the integer [0]. *)
Definition float_zero : Float.float := S754_zero false.

(** The default data of a share for which every attempt failed. *)
Definition not_found (share : Share) : Share :=
  set_twitter_score
    (set_identity share (Some "not_found") (Some "Not Found") (Some 0))
    (Some float_zero).

Inductive attempt_outcome : Type :=
| Succeeded
| Data_is_none      (* the [else] branch *)
| Attempt_raised.   (* the [except] branch *)

Section Twitter.

Variable fault : statement → bool.
Variable backends : Backends.

(** One turn of the [while] loop: the [try] block.  The share is the
    object the assignments are made on, which an exception leaves as the
    assignments before it made it. *)
Definition attempt (address_str : string) (share : Share) (made : Lookups)
  : attempt_outcome * Share * Lookups :=
  let made1 := {| friendtech_requests := S (friendtech_requests made);
                  twitterscore_requests := twitterscore_requests made |} in
  match get_info_from_address backends (friendtech_requests made) address_str with
  | Request_raised => (Attempt_raised, share, made1)
  | Answered_none => (Data_is_none, share, made1)
  | Answered friendtech_data =>
      let made2 := {| friendtech_requests := friendtech_requests made1;
                      twitterscore_requests := S (twitterscore_requests made1) |} in
      match get_twitter_score backends (twitterscore_requests made)
                              (twitterUsername friendtech_data) with
      | Request_raised => (Attempt_raised, share, made2)
      | twitter_answer =>
          let share :=
            set_identity share (twitterUsername friendtech_data)
                         (twitterName friendtech_data) (ft_rank friendtech_data) in
          match twitter_answer with
          | Answered twitter_data =>
              match success twitter_data with
              | None => (Attempt_raised, share, made2)
              | Some true =>
                  (Succeeded, set_twitter_score share (td_twitter_score twitter_data), made2)
              | Some false => (Succeeded, set_twitter_score share (Some float_zero), made2)
              end
          | _ => (Succeeded, set_twitter_score share (Some float_zero), made2)
          end
      end
  end.

(** The [while attempt < max_attempts] loop, with the attempts left:
    [success], the share and the requests made. *)
Fixpoint attempts (left : nat) (address_str : string) (share : Share) (made : Lookups)
  : bool * Share * Lookups :=
  match left with
  | O => (false, share, made)
  | S left' =>
      match attempt address_str share made with
      | (Succeeded, share', made') => (true, share', made')
      | (_, share', made') => attempts left' address_str share' made'
      end
  end.

(** The loop over [shares]: [updated_shares] and the requests made. *)
Fixpoint lookup_shares (max_attempts : Z) (shares updated_shares : list Share)
  (made : Lookups) : list Share * Lookups :=
  match shares with
  | [] => (updated_shares, made)
  | share :: rest =>
      let address_str := String.append "0x" (hexlify (address share)) in
      let '(success, share', made') :=
        attempts (Z.to_nat max_attempts) address_str share made in
      let share' := if success then share' else not_found share' in
      lookup_shares max_attempts rest (updated_shares ++ [share']) made'
  end.

(** [update_twitter_info]: an exception of the query or of the update
    leaves the function. *)
Definition update_twitter_info (db : Database) (max_attempts : Z) (made : Lookups)
  : result DbError unit * Database * Lookups :=
  match get_shares_missing_twitter db 30 with
  | None => (Raise DataError, db, made)
  | Some [] => (Return tt, db, made)
  | Some shares =>
      let '(updated_shares, made') := lookup_shares max_attempts shares [] made in
      match updated_shares with
      | [] => (Return tt, db, made')
      | _ =>
          let '(res, db') := update_shares fault db updated_shares in
          (res, db', made')
      end
  end.

End Twitter.

(** *** [scan_blockchain] and [handle_block_range] *)

(** [scan_blockchain]: the arguments [(i, end_block)] of the
    [handle_block_range] tasks it creates, in creation order; [None] is the
    [ValueError] of [range] for a zero [batch_size].  [start_block] is the
    persisted checkpoint, [last_block] the chain head. *)
Definition scan_blockchain (start_block last_block batch_size : Z)
  : option (list (Z * Z)) :=
  if start_block >=? last_block then Some []
  else
    r ← range3 (start_block + 1) (last_block + 1) batch_size;
    Some (map (fun i => (i, Z.min (i + batch_size - 1) last_block)) r).

(** [handle_block_range]: the block numbers it passes to
    [scanner.get_trades], one task per element of [range(start, end)]. *)
Definition handle_block_range (start end_ : Z) : list Z :=
  range start end_.

(** The block numbers fetched during one scan cycle. *)
Definition scanned_blocks (start_block last_block batch_size : Z)
  : option (list Z) :=
  tasks ← scan_blockchain start_block last_block batch_size;
  Some (concat (map (fun t => handle_block_range (fst t) (snd t)) tasks)).

End Utils.

(** ** The scanner ([src/scanner.py]) *)

Module Scanner.
Import Py.

(** *** The endpoint selector *)

(** The fields of [Scanner] that the calls read and write.  The
    [defaultdict(list)] [backoff_times] is the map of its entries, an absent
    key standing for the empty list that a read of it would create. *)
Record Scanner : Type := {
  contract_address : string;
  event_signature_hash : string;
  rpcs : list string;
  backoff_times : gmap string (list Q);
  requests_counter : gmap string Z;
  last_selected : gmap string Q
}.

(** [Scanner.__init__]. *)
Definition init (rpcs : list string) (contract_address event_signature_hash : string)
  : Scanner :=
  {| contract_address := contract_address;
     event_signature_hash := event_signature_hash;
     rpcs := rpcs;
     backoff_times := ∅;
     requests_counter := ∅;
     last_selected := list_to_map (map (fun rpc => (rpc, 0%Q)) rpcs) |}.

Definition Qltb (a b : Q) : bool := negb (Qle_bool b a).

(** [recent_backoffs(rpc)]: the failures of the trailing 600 seconds. *)
Definition recent_backoffs (self : Scanner) (current_time : Q) (rpc : string) : Z :=
  Z.of_nat (length (List.filter (fun timestamp => Qltb (current_time - timestamp) 600)
                                (default [] (backoff_times self !! rpc)))).

(** [self.requests_counter.get(rpc, 0)]. *)
Definition requests (self : Scanner) (rpc : string) : Z :=
  default 0 (requests_counter self !! rpc).

(** [backoff_ratio(rpc)]. *)
Definition backoff_ratio (self : Scanner) (current_time : Q) (rpc : string) : Q :=
  (inject_Z (recent_backoffs self current_time rpc)
   / (inject_Z (requests self rpc) + (1 # 1000000)))%Q.

Definition sort_key : Type := Q * Q * Z.

(** The sort key of an endpoint; [None] is the [KeyError] of
    [self.last_selected[rpc]]. *)
Definition key_of (self : Scanner) (current_time : Q) (rpc : string) : option sort_key :=
  selected ← last_selected self !! rpc;
  Some ((selected - current_time)%Q, backoff_ratio self current_time rpc, requests self rpc).

(** [a < b] on key tuples: decided by the first component that differs. *)
Definition key_lt (a b : sort_key) : bool :=
  let '(a1, a2, a3) := a in
  let '(b1, b2, b3) := b in
  if negb (Qeq_bool a1 b1) then Qltb a1 b1
  else if negb (Qeq_bool a2 b2) then Qltb a2 b2
  else a3 <? b3.

(** [sorted(..., key=...)]: a stable sort, here by insertion from the
    right; an element stays before the later elements that are not
    smaller. *)
Fixpoint insert_by_key (x : sort_key * string) (l : list (sort_key * string))
  : list (sort_key * string) :=
  match l with
  | [] => [x]
  | y :: l' => if key_lt (fst y) (fst x) then y :: insert_by_key x l' else x :: l
  end.

Fixpoint sorted (l : list (sort_key * string)) : list (sort_key * string) :=
  match l with
  | [] => []
  | x :: l' => insert_by_key x (sorted l')
  end.

Inductive exn : Type :=
| KeyError
| IndexError
| RpcError           (* the endpoint call raised *)
| LogDecodeError     (* [process_log] raised *)
| ValidationError.

Definition set_selected (self : Scanner) (rpc : string) (current_time : Q) : Scanner :=
  {| contract_address := contract_address self;
     event_signature_hash := event_signature_hash self;
     rpcs := rpcs self;
     backoff_times := backoff_times self;
     requests_counter := <[rpc := requests self rpc + 1]> (requests_counter self);
     last_selected := <[rpc := current_time]> (last_selected self) |}.

(** The body of [_get_w3] after [current_time = time()]: the endpoint
    chosen, and the scanner with its counters updated. *)
Definition select (self : Scanner) (current_time : Q) : result exn (string * Scanner) :=
  match mapM (fun rpc => key ← key_of self current_time rpc; Some (key, rpc)) (rpcs self) with
  | None => Raise KeyError
  | Some keyed =>
      match sorted keyed with
      | [] => Raise IndexError
      | (_, rpc) :: _ => Return (rpc, set_selected self rpc current_time)
      end
  end.

(** [self.backoff_times[rpc].append(t)]. *)
Definition record_backoff (self : Scanner) (rpc : string) (t : Q) : Scanner :=
  {| contract_address := contract_address self;
     event_signature_hash := event_signature_hash self;
     rpcs := rpcs self;
     backoff_times := <[rpc := default [] (backoff_times self !! rpc) ++ [t]]> (backoff_times self);
     requests_counter := requests_counter self;
     last_selected := last_selected self |}.

(** [n] consecutive calls at the given times: the endpoints returned. *)
Fixpoint select_run (self : Scanner) (times : list Q) : result exn (list string * Scanner) :=
  match times with
  | [] => Return ([], self)
  | t :: rest =>
      match select self t with
      | Raise e => Raise e
      | Return (rpc, self') =>
          match select_run self' rest with
          | Raise e => Raise e
          | Return (chosen, self'') => Return (rpc :: chosen, self'')
          end
      end
  end.

(** *** The chain reads *)

Record Transaction : Type := {
  tx_hash : bytes;
  tx_to : option string      (* [None] for a contract creation *)
}.

Record Block : Type := {
  block_timestamp : Z;
  transactions : list Transaction
}.

Record Log : Type := {
  topics : list bytes;
  log_data : bytes
}.

Record TxReceipt : Type := {
  status : Z;
  logs : list Log
}.

(** What [contract.events.Trade().process_log(log)] yields. *)
Record DecodedEvent : Type := {
  arg_trader : string;
  arg_subject : string;
  arg_isBuy : bool;
  arg_shareAmount : Z;
  arg_ethAmount : Z;
  arg_protocolEthAmount : Z;
  arg_subjectEthAmount : Z;
  arg_supply : Z;
  transactionHash : bytes;
  blockNumber : Z
}.

(** The world outside the process.  Every reading of the clock and every
    endpoint call is one tick; an endpoint call that raises is [None]. *)
Record Chain : Type := {
  clock : nat → Q;
  eth_get_block : nat → string → Z → option Block;
  eth_get_transaction_receipt : nat → string → bytes → option TxReceipt;
  process_log : Log → option DecodedEvent
}.

(** The records written with [logger.error]. *)
Inductive log_record : Type :=
| Data_validation_error
| Failed_to_decode (hash : bytes) (e : exn)
| Failed_to_filter (block_number : Z) (e : exn)
| Error_during_decoding (e : exn).

Record State : Type := {
  scanner : Scanner;
  tick : nat;
  logged : list log_record
}.

(** A call: from a state to a value or an exception, and the state left. *)
Definition M (A : Type) : Type := State → result exn A * State.

Definition ret {A} (a : A) : M A := fun st => (Return a, st).
Definition raise {A} (e : exn) : M A := fun st => (Raise e, st).
Definition bind {A B} (m : M A) (k : A → M B) : M B :=
  fun st =>
    match m st with
    | (Return a, st') => k a st'
    | (Raise e, st') => (Raise e, st')
    end.

(** [try: body  except Exception as e: handler(e)]. *)
Definition try_except {A} (body : M A) (handler : exn → M A) : M A :=
  fun st =>
    match body st with
    | (Return a, st') => (Return a, st')
    | (Raise e, st') => handler e st'
    end.

#[local] Notation "'let*' x := m 'in' k" := (bind m (fun x => k))
  (at level 10, x name, m at level 100, k at level 200).
#[local] Notation "m >> k" := (bind m (fun _ => k))
  (at level 100, k at level 200, right associativity).

Section Calls.

Variable chain : Chain.

Definition time : M Q :=
  fun st => (Return (clock chain (tick st)),
             {| scanner := scanner st; tick := S (tick st); logged := logged st |}).

Definition logger_error (r : log_record) : M unit :=
  fun st => (Return tt,
             {| scanner := scanner st; tick := tick st; logged := logged st ++ [r] |}).

Definition append_backoff (rpc : string) (t : Q) : M unit :=
  fun st => (Return tt,
             {| scanner := record_backoff (scanner st) rpc t;
                tick := tick st; logged := logged st |}).

(** An endpoint call through [rpc]. *)
Definition call {A} (read : nat → string → option A) (rpc : string) : M A :=
  fun st =>
    let st' := {| scanner := scanner st; tick := S (tick st); logged := logged st |} in
    match read (tick st) rpc with
    | Some a => (Return a, st')
    | None => (Raise RpcError, st')
    end.

(** [Scanner._get_w3]. *)
Definition _get_w3 : M string :=
  let* current_time := time in
  fun st =>
    match select (scanner st) current_time with
    | Return (rpc, self') =>
        (Return rpc, {| scanner := self'; tick := tick st; logged := logged st |})
    | Raise e => (Raise e, st)
    end.

(** [backoff.on_exception(backoff.constant, Exception, interval=1,
    max_tries=...)]: the target is called again after an exception until
    the calls made reach [max_tries]; [retry extra] allows [extra] calls
    after the first. *)
Fixpoint retry {A} (extra : nat) (target : M A) : M A :=
  fun st =>
    match target st with
    | (Return a, st') => (Return a, st')
    | (Raise e, st') =>
        match extra with
        | O => (Raise e, st')
        | S n => retry n target st'
        end
    end.

Definition max_tries : N := 1000000.

Definition on_exception {A} (target : M A) : M A :=
  retry (N.to_nat max_tries - 1) target.

(** The body of [_filter_transactions]. *)
Definition is_relevant (self : Scanner) (tx : Transaction) : bool :=
  match tx_to tx with
  | Some to =>
      negb (String.eqb to "")
      && String.eqb (lower to) (lower (contract_address self))
  | None => false
  end.

Definition filter_transactions_once (block_number : Z) : M (list Transaction * Z) :=
  let* rpc := _get_w3 in
  try_except
    (let* block := call (fun k r => eth_get_block chain k r block_number) rpc in
     fun st =>
       (Return (List.filter (is_relevant (scanner st)) (transactions block),
                block_timestamp block), st))
    (fun e =>
       logger_error (Failed_to_filter block_number e) >>
       let* t := time in
       append_backoff rpc t >>
       raise e).

Definition _filter_transactions (block_number : Z) : M (list Transaction * Z) :=
  on_exception (filter_transactions_once block_number).

Definition trade_data_of (ev : DecodedEvent) (timestamp : Z) : trade_data :=
  {| td_trader := arg_trader ev;
     td_subject := arg_subject ev;
     td_is_buy := arg_isBuy ev;
     td_share_amount := arg_shareAmount ev;
     td_eth_amount := arg_ethAmount ev;
     td_protocol_eth_amount := arg_protocolEthAmount ev;
     td_subject_eth_amount := arg_subjectEthAmount ev;
     td_supply := arg_supply ev;
     td_transaction_hash := transactionHash ev;
     td_block_number := blockNumber ev;
     td_timestamp := timestamp |}.

(** The loop over [tx_receipt['logs']]. *)
Fixpoint decode_logs (signature : string) (timestamp : Z) (logs : list Log)
  (trades : list Trade) : M (list Trade) :=
  match logs with
  | [] => ret trades
  | log :: rest =>
      match topics log with
      | [] => raise IndexError
      | topic0 :: _ =>
          if String.eqb (to_hex topic0) signature then
            match process_log chain log with
            | None => raise LogDecodeError
            | Some decoded_event =>
                match Trade_model_validate (trade_data_of decoded_event timestamp) with
                | Some trade => decode_logs signature timestamp rest (trades ++ [trade])
                | None =>
                    logger_error Data_validation_error >>
                    raise ValidationError
                end
            end
          else decode_logs signature timestamp rest trades
      end
  end.

(** The body of [_decode_trade_events]. *)
Definition decode_trade_events_once (transaction : Transaction) (timestamp : Z)
  : M (list Trade) :=
  let* rpc := _get_w3 in
  try_except
    (let* tx_receipt := call (fun k r => eth_get_transaction_receipt chain k r (tx_hash transaction)) rpc in
     if status tx_receipt =? 1 then
       fun st => decode_logs (event_signature_hash (scanner st)) timestamp
                             (logs tx_receipt) [] st
     else ret [])
    (fun e =>
       logger_error (Failed_to_decode (tx_hash transaction) e) >>
       let* t := time in
       append_backoff rpc t >>
       raise e).

Definition _decode_trade_events (transaction : Transaction) (timestamp : Z)
  : M (list Trade) :=
  on_exception (decode_trade_events_once transaction timestamp).

(** [asyncio.gather] with [return_exceptions=True]: the result
    of every task, in task order; the tasks are run one after the other. *)
Fixpoint gather {A} (tasks : list (M A)) : M (list (result exn A)) :=
  match tasks with
  | [] => ret []
  | task :: rest =>
      fun st =>
        let '(res, st') := task st in
        match gather rest st' with
        | (Return results, st'') => (Return (res :: results), st'')
        | (Raise e, st'') => (Raise e, st'')
        end
  end.

(** The loop over [results] in [get_trades]. *)
Fixpoint collect (results : list (result exn (list Trade))) (trades : list Trade)
  : M (list Trade) :=
  match results with
  | [] => ret trades
  | Raise e :: rest => logger_error (Error_during_decoding e) >> collect rest trades
  | Return res :: rest => collect rest (trades ++ res)
  end.

(** [Scanner.get_trades]. *)
Definition get_trades (block_number : Z) : M (list Trade) :=
  let* found := _filter_transactions block_number in
  let '(relevant_transactions, timestamp) := found in
  let* results := gather (map (fun tx => _decode_trade_events tx timestamp)
                              relevant_transactions) in
  collect results [].

End Calls.

(** *** The reads that are made once *)

(** The node behind an endpoint, for [get_last_block_number] and
    [get_balance]: a call that raises is [None]; [to_checksum_address] is
    [None] when it refuses the address text. *)
Record Node : Type := {
  eth_get_block_number : nat → string → option Z;
  to_checksum_address : string → option string;
  eth_get_balance : nat → string → string → option Z
}.

Inductive read_exn : Type :=
| Selection_raised (e : exn)   (* raised by [_get_w3], before the [try] *)
| Invalid_address              (* raised by [to_checksum_address] *)
| Node_raised.                 (* raised by the endpoint call *)

(** The records the two reads write with [logger.error]. *)
Inductive read_record : Type :=
| Failed_to_get_last_block_number (e : read_exn)
| Failed_to_get_balance (address : string) (e : read_exn).

Record Session : Type := {
  session_state : State;
  read_errors : list read_record
}.

Section Reads.

Variable chain : Chain.
Variable node : Node.

(** The [except] branch of the two reads. *)
Definition read_failed (record : read_record) (rpc : string) (e : read_exn)
  (st : State) (errors : list read_record) : result read_exn Z * Session :=
  let '(_, st') := (let* t := time chain in append_backoff rpc t) st in
  (Raise e, {| session_state := st'; read_errors := errors ++ [record] |}).

(** [Scanner.get_last_block_number]. *)
Definition get_last_block_number (s : Session) : result read_exn Z * Session :=
  match _get_w3 chain (session_state s) with
  | (Raise e, st) =>
      (Raise (Selection_raised e), {| session_state := st; read_errors := read_errors s |})
  | (Return rpc, st) =>
      match call (eth_get_block_number node) rpc st with
      | (Return last_block, st') =>
          (Return last_block, {| session_state := st'; read_errors := read_errors s |})
      | (Raise _, st') =>
          read_failed (Failed_to_get_last_block_number Node_raised) rpc Node_raised
                      st' (read_errors s)
      end
  end.

(** [Scanner.get_balance]. *)
Definition get_balance (address : string) (s : Session) : result read_exn Z * Session :=
  match _get_w3 chain (session_state s) with
  | (Raise e, st) =>
      (Raise (Selection_raised e), {| session_state := st; read_errors := read_errors s |})
  | (Return rpc, st) =>
      match to_checksum_address node address with
      | None =>
          read_failed (Failed_to_get_balance address Invalid_address) rpc Invalid_address
                      st (read_errors s)
      | Some checksum_address =>
          match call (fun k r => eth_get_balance node k r checksum_address) rpc st with
          | (Return balance, st') =>
              (Return balance, {| session_state := st'; read_errors := read_errors s |})
          | (Raise _, st') =>
              read_failed (Failed_to_get_balance address Node_raised) rpc Node_raised
                          st' (read_errors s)
          end
      end
  end.

End Reads.

End Scanner.

(** ** The two halves of [handle_block_range] ([src/utils.py]) *)

Module Cycle.
Import Py Db Utils Scanner.

(** The loop over the results of the gather: a result is kept when it is
    a list that is not empty; then [chain.from_iterable]. *)
Definition valid_trades (trades : list (result exn (list Trade))) : list (list Trade) :=
  omap (fun trade =>
          match trade with
          | Return (t :: l) => Some (t :: l)
          | Return [] => None
          | Raise _ => None
          end)
       trades.

Definition flat_trades (trades : list (result exn (list Trade))) : list Trade :=
  concat (valid_trades trades).

Section Run.

Variable chain : Chain.
Variable fault : statement → bool.
Variable get_balance : string → option Z.

(** The fetch: one [get_trades] task per block of [range(start, end)],
    gathered with [return_exceptions=True]; [flat_trades].  The semaphore
    bounds how many tasks run at a time, and the tasks are run one after
    the other here. *)
Definition fetch_trades (start end_ : Z) : M (list Trade) :=
  fun st =>
    match gather (map (get_trades chain) (handle_block_range start end_)) st with
    | (Return trades, st') => (Return (flat_trades trades), st')
    | (Raise e, st') => (Raise e, st')
    end.

(** The writes: [insert_trades] and [process_trades_to_shares] under
    [gather(..., return_exceptions=True)], whose results are dropped. *)
Definition store_trades (db : Database) (flat_trades : list Trade) : Database :=
  match flat_trades with
  | [] => db
  | _ =>
      let '(_, db1) := insert_trades fault db flat_trades in
      let '(_, db2) := process_trades_to_shares fault get_balance db1 flat_trades in
      db2
  end.

End Run.

End Cycle.

(** * Specification vocabulary and sample data *)

Section Vocabulary.
Import Py Db Utils Scanner Contract.

(** [t] is the trade of subject [s] with the greatest timestamp, the first
    in batch order when several share it. *)
Definition first_greatest (trades : list Trade) (s : bytes) (t : Trade) : Prop :=
  subject t = s ∧
  ∃ l1 l2, trades = l1 ++ t :: l2
    ∧ (∀ t', In t' l1 → subject t' = s → timestamp t' < timestamp t)
    ∧ (∀ t', In t' l2 → subject t' = s → timestamp t' ≤ timestamp t).

(** The invariant of the reduction loop. *)
Record reduced (trades : list Trade) (d : dict) : Prop := {
  reduced_keys : NoDup (map fst d);
  reduced_absent : ∀ s, dict_get s d = None → ∀ t, In t trades → subject t ≠ s;
  reduced_present : ∀ s t, dict_get s d = Some t → first_greatest trades s t
}.

(** The reading of the tie-break as last-seen-wins: [t] is the trade of
    subject [s] with the greatest timestamp, the last in batch order when
    several share it. *)
Definition last_greatest (trades : list Trade) (s : bytes) (t : Trade) : Prop :=
  subject t = s ∧
  ∃ l1 l2, trades = l1 ++ t :: l2
    ∧ (∀ t', In t' l1 → subject t' = s → timestamp t' ≤ timestamp t)
    ∧ (∀ t', In t' l2 → subject t' = s → timestamp t' < timestamp t).

(** A trade of the given subject, hash byte and timestamp. *)
Definition sample_trade_of (s hash : byte) (ts : Z) : Trade :=
  {| trader := [x02]; subject := [s]; is_buy := true; share_amount := 1;
     eth_amount := Decimal_of_int 0; protocol_eth_amount := Decimal_of_int 0;
     subject_eth_amount := Decimal_of_int 0; trade_supply := 5;
     transaction_hash := [hash]; block_number := 7; timestamp := ts |}.

(** A trade of subject [0x01]. *)
Definition sample_trade (hash : byte) (ts : Z) : Trade := sample_trade_of x01 hash ts.

(** A stored Share of the given address, with a social identity. *)
Definition sample_share (a : byte) (registered_at : Z) : Share :=
  {| address := [a]; twitter_username := Some "alice"; twitter_name := Some "Alice";
     twitter_score := None; registered := Some registered_at; last_transaction := 10;
     balance := Decimal_of_int 100; buy_price := Decimal_of_int 7;
     sell_price := Decimal_of_int 6; supply := 3; rank := Some 12 |}.

(** The Share the aggregator passes for an update: the social fields and
    the registration time are null. *)
Definition sample_update (a : byte) : Share :=
  {| address := [a]; twitter_username := None; twitter_name := None;
     twitter_score := None; registered := None; last_transaction := 20;
     balance := Decimal_of_int 250; buy_price := Decimal_of_int 9;
     sell_price := Decimal_of_int 8; supply := 4; rank := None |}.

Definition sample_db (unique_hash : bool) : Db.Database :=
  {| Db.trades := [sample_trade x0a 30];
     Db.shares := [sample_share x01 5; sample_share x02 6];
     Db.unique_transaction_hash := unique_hash;
     Db.unique_address := true |}.

(** A server that refuses nothing. *)
Definition no_fault : Db.statement → bool := fun _ => false.

(** What an [update_shares] call with the argument [shares_in] may do to a
    stored row: the address stays; a column changes only if some passed
    Share with the row's address holds a value for it; a row whose address
    no passed Share has stays as it is. *)
Definition updated_by (shares_in : list Share) (row row' : Share) : Prop :=
  address row' = address row
  ∧ (∀ f, (∀ s, In s shares_in → address s = address row → column f s = None) →
          column f row' = column f row)
  ∧ ((∀ s, In s shares_in → address s ≠ address row) → row' = row).

Definition rows_updated_by (shares_in : list Share) (db db' : Database) : Prop :=
  trades db' = trades db
  ∧ unique_transaction_hash db' = unique_transaction_hash db
  ∧ Forall2 (updated_by shares_in) (shares db) (shares db').

(** What an [insert_shares] call with the argument [batch] may do: the
    stored rows stay, in place; rows of the batch are added after them; and
    the addresses stay distinct when they were. *)
Definition rows_inserted (batch : list Share) (db db' : Database) : Prop :=
  trades db' = trades db
  ∧ unique_transaction_hash db' = unique_transaction_hash db
  ∧ ∃ added, shares db' = shares db ++ added
      ∧ (∀ r, In r added → In r batch)
      ∧ (NoDup (map address (shares db)) → NoDup (map address (shares db'))).

(** The dictionary of a subject to update, and of a subject to create. *)
Definition update_data (t : Trade) (d : share_data) : Prop :=
  sd_address d = subject t ∧ sd_registered d = None
  ∧ sd_last_transaction d = timestamp t.

Definition create_data (t : Trade) (d : share_data) : Prop :=
  sd_address d = subject t ∧ sd_registered d = Some (timestamp t)
  ∧ sd_last_transaction d = timestamp t.

(** The writes of a reconcile call go through: the dictionaries validate,
    the server refuses none of the statements built from them, and the
    address column carries the unique constraint that the [ON CONFLICT]
    clause of the insert names. *)
Definition writes_accepted (fault : statement → bool) (db : Database)
  (shares_to_update shares_to_create : list share_data) : Prop :=
  ∃ to_update to_create,
    mapM Share_of_data shares_to_update = Some to_update
    ∧ mapM Share_of_data shares_to_create = Some to_create
    ∧ (∀ s, In s to_update →
         fault (Update_share (fields_to_update s) (address s)) = false)
    ∧ (∀ s, In s to_create → fault (Insert_share On_conflict_do_nothing s) = false)
    ∧ (to_create ≠ [] → unique_address db = true).

(** What the update write makes of the stored row [row0]: the address and
    the registration time stay, and the time of the last transaction is the
    timestamp of the representative trade of the row's subject, if there is
    one. *)
Definition updated_from (reps : list Trade) (row0 row : Share) : Prop :=
  address row = address row0
  ∧ registered row = registered row0
  ∧ ∀ t, In t reps → subject t = address row0 → last_transaction row = timestamp t.

(** The row created for the subject of the trade [t]: registered at the
    timestamp of [t]. *)
Definition created_from (t : Trade) (row : Share) : Prop :=
  address row = subject t
  ∧ registered row = Some (timestamp t)
  ∧ last_transaction row = timestamp t.

(** A stored row keeps its address and its registration time. *)
Definition same_registration (row0 row : Share) : Prop :=
  address row = address row0 ∧ registered row = registered row0.

(** A batch touching the stored subject [0x01] twice and the new subject
    [0x03] once, and balance reads that all succeed. *)
Definition sample_batch : list Trade :=
  [sample_trade x0a 10; sample_trade_of x03 x0b 40; sample_trade x0c 30].

Definition sample_balances : string → option Z := fun _ => Some 1000.

Definition sample_classified : list share_data * list share_data :=
  default ([], [])
    (Utils.classify sample_balances (Db.get_all_share_addresses (sample_db true))
       (Utils.unique_most_recent_trades sample_batch) [] []).

(** The scanner can select: it has an endpoint, and every endpoint has a
    last-selected time, as after [__init__]. *)
Definition selectable (self : Scanner) : Prop :=
  rpcs self ≠ [] ∧ ∀ rpc, In rpc (rpcs self) → is_Some (last_selected self !! rpc).

(** The configuration, which no call changes. *)
Definition config (self : Scanner) : string * string * list string :=
  (contract_address self, event_signature_hash self, rpcs self).

(** How many records of a list satisfy a test. *)
Definition count_log (p : log_record → bool) (l : list log_record) : nat :=
  length (List.filter p l).

Definition is_data_validation_error (r : log_record) : bool :=
  match r with Data_validation_error => true | _ => false end.

Definition is_validation_failure {A} (res : result exn A) : bool :=
  match res with Raise ValidationError => true | _ => false end.

(** The record [get_trades] writes for a decode that raised a validation
    error. *)
Definition is_dropped_for_validation (r : log_record) : bool :=
  match r with Error_during_decoding ValidationError => true | _ => false end.

(** What the loop over the logs of a receipt comes to, the state apart. *)
Fixpoint logs_result (chain : Chain) (signature : string) (timestamp : Z)
  (logs : list Log) (trades : list Trade) : result exn (list Trade) :=
  match logs with
  | [] => Return trades
  | log :: rest =>
      match topics log with
      | [] => Raise IndexError
      | topic0 :: _ =>
          if String.eqb (to_hex topic0) signature then
            match process_log chain log with
            | None => Raise LogDecodeError
            | Some decoded_event =>
                match Trade_model_validate (trade_data_of decoded_event timestamp) with
                | Some trade => logs_result chain signature timestamp rest (trades ++ [trade])
                | None => Raise ValidationError
                end
            end
          else logs_result chain signature timestamp rest trades
      end
  end.

(** What decoding a fetched receipt comes to. *)
Definition receipt_result (chain : Chain) (signature : string) (timestamp : Z)
  (r : TxReceipt) : result exn (list Trade) :=
  if status r =? 1 then logs_result chain signature timestamp (logs r) [] else Return [].

Definition validation_log (res : result exn (list Trade)) : list log_record :=
  match res with
  | Raise ValidationError => [Data_validation_error]
  | _ => []
  end.

Definition add_logged (st : State) (l : list log_record) : State :=
  {| scanner := scanner st; tick := tick st; logged := logged st ++ l |}.

(** A chain on which every receipt read returns one receipt of the given
    status, holding one log of the monitored event with the given trader
    text; a scanner with one endpoint; and a transaction. *)
Definition sample_event (trader_text : string) : Scanner.DecodedEvent :=
  {| Scanner.arg_trader := trader_text; Scanner.arg_subject := "0x01";
     Scanner.arg_isBuy := true; Scanner.arg_shareAmount := 1;
     Scanner.arg_ethAmount := 0; Scanner.arg_protocolEthAmount := 0;
     Scanner.arg_subjectEthAmount := 0; Scanner.arg_supply := 5;
     Scanner.transactionHash := [x0a]; Scanner.blockNumber := 7 |}.

Definition sample_log : Scanner.Log :=
  {| Scanner.topics := [[xaa; xbb]]; Scanner.log_data := [] |}.

Definition sample_transaction : Scanner.Transaction :=
  {| Scanner.tx_hash := [x0a]; Scanner.tx_to := Some "0xC0" |}.

Definition sample_chain (receipt_status : Z) (trader_text : string) : Scanner.Chain :=
  {| Scanner.clock := fun k => inject_Z (1000 + Z.of_nat k);
     Scanner.eth_get_block := fun _ _ _ =>
       Some {| Scanner.block_timestamp := 77;
               Scanner.transactions := [sample_transaction] |};
     Scanner.eth_get_transaction_receipt := fun _ _ _ =>
       Some {| Scanner.status := receipt_status; Scanner.logs := [sample_log] |};
     Scanner.process_log := fun _ => Some (sample_event trader_text) |}.

Definition sample_state : Scanner.State :=
  {| Scanner.scanner := Scanner.init ["http://rpc"] "0xc0" "0xaabb";
     Scanner.tick := 0; Scanner.logged := [] |}.

(** The invariant of the calls: the scanner can select, its configuration
    is [cfg], and [dropped] decodes were dropped for a validation error. *)
Definition decode_inv (cfg : string * string * list string) (dropped : nat)
  (st : State) : Prop :=
  selectable (scanner st) ∧ config (scanner st) = cfg
  ∧ count_log is_dropped_for_validation (logged st) = dropped.

(** The validation errors logged so far. *)
Definition validation_errors (st : State) : nat :=
  count_log is_data_validation_error (logged st).

(** The trades of the results that are not exceptions. *)
Definition returned_trades (results : list (result exn (list Trade))) : list Trade :=
  flat_map (fun res => match res with Return l => l | Raise _ => [] end) results.

(** The key of an endpoint that has a last-selected time. *)
Definition key_at (self : Scanner) (t : Q) (rpc : string) : sort_key :=
  ((default 0%Q (last_selected self !! rpc) - t)%Q, backoff_ratio self t rpc,
   requests self rpc).

(** The pool during a fair cycle: the endpoints already returned have a
    last-selected time after [L]; the others share the time [L], the failure
    history [h] and the request count [c]. *)
Definition cycling (self : Scanner) (L : Q) (h : list Q) (c : Z)
  (returned waiting : list string) : Prop :=
  rpcs self = returned ++ waiting
  ∧ NoDup (returned ++ waiting)
  ∧ (∀ rpc, In rpc returned → ∃ t, last_selected self !! rpc = Some t ∧ (L < t)%Q)
  ∧ (∀ rpc, In rpc waiting →
       last_selected self !! rpc = Some L
       ∧ default [] (backoff_times self !! rpc) = h
       ∧ requests self rpc = c).

Definition sample_pool : Scanner.Scanner := Scanner.init ["a"; "b"; "c"] "0xc0" "0xaabb".

(** A pool of two endpoints with equal health records, each with a failure
    at time 95, two requests and the last-selected time 100. *)
Definition tied_pool : Scanner.Scanner :=
  {| Scanner.contract_address := "0xc0";
     Scanner.event_signature_hash := "0xaabb";
     Scanner.rpcs := ["a"; "b"];
     Scanner.backoff_times := <["a" := [95%Q]]> (<["b" := [95%Q]]> ∅);
     Scanner.requests_counter := <["a" := 2]> (<["b" := 2]> ∅);
     Scanner.last_selected := <["a" := 100%Q]> (<["b" := 100%Q]> ∅) |}.

(** The sum of the squares of the numbers below [n]. *)
Fixpoint squares_below (n : nat) : Z :=
  match n with
  | O => 0
  | S k => squares_below k + Z.of_nat k * Z.of_nat k
  end.

(** The base price plus, or minus, a 5% protocol fee and a 5% subject fee,
    in exact integer arithmetic. *)
Definition price_plus_fees (price : Z) : Z := price + price * 5 / 100 + price * 5 / 100.

Definition price_minus_fees (price : Z) : Z := price - price * 5 / 100 - price * 5 / 100.

(** Below this bound on 21 times the base price, the price, its fees and
    their sums are binary64 numbers. *)
Definition exact_bound : Z := 20 * 2 ^ 62.

(** The float result [res] is a finite float of the exact value [v]. *)
Definition has_value (res : option Float.float) (v : Z) : Prop :=
  ∃ f q, res = Some f ∧ Float.to_Q f = Some q ∧ (q == inject_Z v)%Q.

Definition has_value_b (res : option Float.float) (v : Z) : bool :=
  match res with
  | Some f =>
      match Float.to_Q f with
      | Some q => Qeq_bool q (inject_Z v)
      | None => false
      end
  | None => false
  end.

Definition check_buy (supply amount : Z) : bool :=
  let price := calc_price supply amount in
  if 21 * price <? exact_bound
  then has_value_b (calc_buy_price_after_fee supply amount) (price_plus_fees price)
  else true.

Definition check_sell (supply amount : Z) : bool :=
  let price := calc_price (supply - amount) amount in
  if 21 * price <? exact_bound
  then has_value_b (calc_sell_price_after_fee supply amount) (price_minus_fees price)
  else true.

(** The greatest amount that can keep the base price under the bound at a
    supply: the sum of [amount] squares from [supply] stays at most 70274. *)
Definition amount_cap (supply : Z) : Z :=
  if supply =? 0 then 60 else Z.min 60 (70274 / (supply * supply)).

(** Both checks for a supply and every amount up to its cap; the sell check
    is made at the supply reached by the buy. *)
Definition check_supply (s : Z) : bool :=
  forallb (fun a => check_buy s a && check_sell (s + a) a) (Py.range 1 (amount_cap s + 1)).

(** *** Vocabulary of the further properties *)

(** What lets a batch of plain [INSERT]s through, on a table of the given
    rows: the server refuses none of them and, when the hash is unique, the
    hashes of the batch are new and pairwise distinct. *)
Definition batch_accepted (fault : statement → bool) (unique : bool)
  (rows batch : list Trade) : Prop :=
  (∀ t, In t batch → fault (Insert_trade No_conflict_clause t) = false)
  ∧ (unique = true →
     NoDup (map transaction_hash batch)
     ∧ ∀ t, In t batch → ¬ In (transaction_hash t) (map transaction_hash rows)).

(** A trade of subject [0x01] in the given block. *)
Definition sample_trade_in (hash : byte) (block : Z) : Trade :=
  {| trader := [x02]; subject := [x01]; is_buy := true; share_amount := 1;
     eth_amount := Decimal_of_int 0; protocol_eth_amount := Decimal_of_int 0;
     subject_eth_amount := Decimal_of_int 0; trade_supply := 6;
     transaction_hash := [hash]; block_number := block; timestamp := 40 |}.

(** The failures recorded against all the endpoints, and the requests
    counted for them. *)
Definition failures_recorded (self : Scanner) : nat :=
  map_fold (fun _ l n => (length l + n)%nat) 0%nat (backoff_times self).

Definition requests_counted (self : Scanner) : Z :=
  map_fold (fun _ c n => c + n) 0 (requests_counter self).

(** The state after [i] failed attempts at a block, from the state [st0]. *)
Definition after_failures (block_number : Z) (st0 : State) (i : nat) (st : State) : Prop :=
  selectable (scanner st)
  ∧ config (scanner st) = config (scanner st0)
  ∧ tick st = (tick st0 + 3 * i)%nat
  ∧ logged st = logged st0 ++ repeat (Failed_to_filter block_number RpcError) i
  ∧ failures_recorded (scanner st) = (failures_recorded (scanner st0) + i)%nat
  ∧ requests_counted (scanner st) = requests_counted (scanner st0) + Z.of_nat i.

(** A chain whose endpoints fail the first [failures] fetches of a block
    made from the tick 0, one fetch every three ticks, and serve it
    afterwards. *)
Definition flaky_chain (failures : nat) : Chain :=
  {| clock := fun k => inject_Z (1000 + Z.of_nat k);
     eth_get_block := fun k _ _ =>
       if (k <? 3 * failures + 1)%nat then None
       else Some {| block_timestamp := 77; transactions := [sample_transaction] |};
     eth_get_transaction_receipt := fun _ _ _ =>
       Some {| status := 1; logs := [sample_log] |};
     process_log := fun _ => Some (sample_event "0x02") |}.

(** A state whose configured event signature has capital digits. *)
Definition capital_state : State :=
  {| scanner := init ["http://rpc"] "0xc0" "0xAABB"; tick := 0; logged := [] |}.

(** The scanner of [st] can select and has the configuration of [st0]. *)
Definition ready_as (st0 st : State) : Prop :=
  selectable (scanner st) ∧ config (scanner st) = config (scanner st0).

(** Every read of the receipt of [tx] is served, and the receipt served
    holds a log of the monitored event whose fields fail validation:
    decoding it raises the validation error. *)
Definition fails_validation (chain : Chain) (signature : string) (timestamp : Z)
  (tx : Transaction) : Prop :=
  ∀ k rpc, ∃ r,
    eth_get_transaction_receipt chain k rpc (tx_hash tx) = Some r
    ∧ receipt_result chain signature timestamp r = Raise ValidationError.

(** The failures recorded against one endpoint. *)
Definition failures_against (self : Scanner) (rpc : string) : Z :=
  Z.of_nat (length (default [] (backoff_times self !! rpc))).

(** The two records that an attempt at the decode of [tx] writes when it
    meets a validation failure: the one of the inner [except] branch, then
    the one of the outer. *)
Definition validation_failure_records (tx : Transaction) : list log_record :=
  [Data_validation_error; Failed_to_decode (tx_hash tx) ValidationError].

(** The state after [n] attempts at the decode of [tx] that each met a
    validation failure, from the state [s]: every attempt reads the clock,
    calls an endpoint and reads the clock again, writes its two records,
    counts one request for the endpoint it selected and records one failure
    against that endpoint. *)
Definition after_attempts (tx : Transaction) (s : State) (n : nat) (s' : State) : Prop :=
  ready_as s s'
  ∧ tick s' = (tick s + 3 * n)%nat
  ∧ logged s' = logged s ++ concat (repeat (validation_failure_records tx) n)
  ∧ failures_recorded (scanner s') = (failures_recorded (scanner s) + n)%nat
  ∧ requests_counted (scanner s') = requests_counted (scanner s) + Z.of_nat n
  ∧ ∀ rpc, failures_against (scanner s') rpc - failures_against (scanner s) rpc
           = requests (scanner s') rpc - requests (scanner s) rpc.

(** The exceptions among the results of a [gather]. *)
Definition raised {A} (results : list (result exn A)) : list exn :=
  flat_map (fun res => match res with Return _ => [] | Raise e => [e] end) results.

(** A read that is made once: one request is counted; a read that returns
    records nothing; a read that raises records one failure and writes one
    record. *)
Definition made_once (record : read_exn → read_record) (s : Session)
  (run : result read_exn Z * Session) : Prop :=
  let before := scanner (session_state s) in
  let after := scanner (session_state run.2) in
  requests_counted after = requests_counted before + 1
  ∧ match run.1 with
    | Return _ =>
        failures_recorded after = failures_recorded before
        ∧ read_errors run.2 = read_errors s
    | Raise e =>
        failures_recorded after = S (failures_recorded before)
        ∧ read_errors run.2 = read_errors s ++ [record e]
    end.

(** A node that refuses every address text, and a session. *)
Definition strict_node : Node :=
  {| eth_get_block_number := fun _ _ => Some 120;
     to_checksum_address := fun _ => None;
     eth_get_balance := fun _ _ _ => Some 1000 |}.

Definition sample_session : Session :=
  {| session_state := sample_state; read_errors := [] |}.

(** A statement on the table of the shares. *)
Definition on_shares (q : statement) : Prop :=
  match q with
  | Insert_trade _ _ => False
  | Insert_share _ _ | Update_share _ _ => True
  end.

(** The result of a write, moved to the database with other trades, or
    with other shares. *)
Definition beside_trades {A} (run : A * Database) (rows : list Trade) : A * Database :=
  (run.1, with_trades run.2 rows).

Definition beside_shares {A} (run : A * Database) (rows : list Share) : A * Database :=
  (run.1, with_shares run.2 rows).

(** The row an [UPDATE] built from [share] makes of [row]: every column
    for which [share] holds a value takes it, the address apart. *)
Definition updated_row (share row : Share) : Share :=
  {| address := address row;
     twitter_username := match twitter_username share with
                         | Some v => Some v
                         | None => twitter_username row
                         end;
     twitter_name := match twitter_name share with
                     | Some v => Some v
                     | None => twitter_name row
                     end;
     twitter_score := match twitter_score share with
                      | Some v => Some v
                      | None => twitter_score row
                      end;
     registered := match registered share with
                   | Some v => Some v
                   | None => registered row
                   end;
     last_transaction := last_transaction share;
     balance := balance share;
     buy_price := buy_price share;
     sell_price := sell_price share;
     supply := supply share;
     rank := match rank share with
             | Some v => Some v
             | None => rank row
             end |}.

(** The rows after the [UPDATE]s of a list of shares, in order. *)
Definition update_row (row share : Share) : Share :=
  if bool_decide (address row = address share) then updated_row share row else row.

Definition rows_updated (shares rows : list Share) : list Share :=
  map (fun row => fold_left update_row shares row) rows.


(** The rows that [get_shares_missing_twitter] selects from. *)
Definition missing_twitter (row : Share) : bool :=
  match twitter_username row with
  | None => true
  | Some _ => false
  end.

(** [a] is not below [b] in the order of the balances. *)
Definition balance_not_below (a b : Share) : Prop :=
  numeric_lt (balance a) (balance b) = false.

(** A list in the order of [ORDER BY balance DESC]: no row is below a row
    after it. *)
Inductive descending : list Share → Prop :=
| descending_nil : descending []
| descending_cons row rows :
    (∀ r, In r rows → balance_not_below row r) → descending rows →
    descending (row :: rows).

(** [s] is [row] but for the four fields that [update_twitter_info]
    assigns. *)
Definition same_but_identity (row s : Share) : Prop :=
  address s = address row
  ∧ registered s = registered row
  ∧ last_transaction s = last_transaction row
  ∧ balance s = balance row
  ∧ buy_price s = buy_price row
  ∧ sell_price s = sell_price row
  ∧ supply s = supply row.

(** The back end gave the user name of [s] in an answer, or [s] holds the
    default data. *)
Definition identity_from (backends : Backends) (s : Share) : Prop :=
  twitter_username s = Some "not_found"
  ∨ ∃ k address_str d,
      get_info_from_address backends k address_str = Answered d
      ∧ twitter_username s = twitterUsername d.

(** The row holds the default data of a share that was not found. *)
Definition labelled_not_found (row : Share) : Prop :=
  twitter_username row = Some "not_found"
  ∧ twitter_name row = Some "Not Found"
  ∧ rank row = Some 0
  ∧ twitter_score row = Some float_zero.

(** A table with one share that has a social identity and two that have
    none; a back end that gives no answer, and one that answers every
    request. *)
Definition unnamed_db : Database :=
  {| trades := [];
     shares := [sample_share x01 5; sample_update x03; sample_update x04];
     unique_transaction_hash := true;
     unique_address := true |}.

Definition silent_backends : Backends :=
  {| get_info_from_address := fun _ _ => Answered_none;
     get_twitter_score := fun _ _ => Answered_none |}.

Definition answering_backends : Backends :=
  {| get_info_from_address := fun _ _ =>
       Answered {| twitterUsername := Some "bob"; twitterName := Some "Bob";
                   ft_rank := Some 3 |};
     get_twitter_score := fun _ _ =>
       Answered {| success := Some true; td_twitter_score := Some float_zero |} |}.

Definition no_lookups : Lookups :=
  {| friendtech_requests := 0; twitterscore_requests := 0 |}.

End Vocabulary.

(** * Properties *)

(** ** The scan cycle *)

Section ScanCycle.
Import Py Utils.

Lemma in_range (a c b : Z) : In b (range a c) ↔ a ≤ b < c.
Proof.
  unfold range. rewrite in_map_iff. split.
  - intros (k & <- & Hk). apply in_seq in Hk. lia.
  - intros H. exists (Z.to_nat (b - a)). split; [lia|]. apply in_seq. lia.
Qed.

Lemma range_len_pos (a c step : Z) :
  0 < step → a < c → range_len a c step = (c - a - 1) / step + 1.
Proof.
  intros Hs Hac. unfold range_len.
  destruct (Z.ltb_spec 0 step); [|lia]. destruct (Z.ltb_spec a c); [|lia]. reflexivity.
Qed.

(** The starts of the sub-ranges: every [step]-th number from [a]. *)
Lemma in_range3 (a c step : Z) (l : list Z) (i : Z) :
  0 < step → range3 a c step = Some l →
  (In i l ↔ a ≤ i < c ∧ (i - a) mod step = 0).
Proof.
  intros Hs. unfold range3. destruct (Z.eqb_spec step 0); [lia|].
  intros [= <-]. rewrite in_map_iff. split.
  - intros (k & <- & Hk). apply in_seq in Hk.
    destruct (Z_lt_le_dec a c) as [Hac|Hac].
    + rewrite range_len_pos in Hk by lia.
      assert (Z.of_nat k ≤ (c - a - 1) / step) as Hle by lia.
      assert (Z.of_nat k * step ≤ c - a - 1).
      { etransitivity; [apply Z.mul_le_mono_nonneg_r; [lia|exact Hle]|].
        rewrite Z.mul_comm. apply Z.mul_div_le. lia. }
      split; [nia|].
      replace (a + Z.of_nat k * step - a) with (Z.of_nat k * step) by lia.
      apply Z.mod_mul. lia.
    + unfold range_len in Hk. destruct (Z.ltb_spec 0 step); [|lia].
      destruct (Z.ltb_spec a c); [lia|]. simpl in Hk. lia.
  - intros [Hi Hmod].
    apply Z.mod_divide in Hmod; [|lia]. destruct Hmod as [q Hq].
    assert (0 ≤ q) by nia.
    exists (Z.to_nat q). split; [lia|]. apply in_seq.
    rewrite range_len_pos by lia.
    assert (q ≤ (c - a - 1) / step).
    { apply Z.div_le_lower_bound; [lia|]. nia. }
    lia.
Qed.

(** Every block handed to the fetcher lies strictly below the inclusive
    end of its sub-range. *)
Lemma handle_block_range_below_end (start end_ b : Z) :
  In b (handle_block_range start end_) → start ≤ b < end_.
Proof. unfold handle_block_range. apply in_range. Qed.

(** No scan cycle fetches the chain head. *)
Lemma chain_head_never_fetched (start_block last_block batch_size : Z) blocks :
  scanned_blocks start_block last_block batch_size = Some blocks →
  ¬ In last_block blocks.
Proof.
  unfold scanned_blocks, scan_blockchain.
  destruct (start_block >=? last_block).
  - intros [= <-]. simpl. tauto.
  - destruct (range3 _ _ _) as [r|]; [|discriminate]. simpl.
    intros [= <-] Hin. apply in_concat in Hin as (l & Hl & Hin).
    apply in_map_iff in Hl as ([i e] & <- & Hie).
    apply in_map_iff in Hie as (i' & [= <- <-] & _).
    apply handle_block_range_below_end in Hin. simpl in Hin. lia.
Qed.

(** The blocks fetched in a cycle, exactly: those of the interval that
    are not the inclusive end of a sub-range. *)
Lemma scanned_blocks_spec (start_block last_block batch_size : Z) blocks b :
  0 < batch_size → start_block < last_block →
  scanned_blocks start_block last_block batch_size = Some blocks →
  (In b blocks ↔
   start_block < b < last_block ∧ (b - start_block) mod batch_size ≠ 0).
Proof.
  intros Hbs Hlt. unfold scanned_blocks, scan_blockchain.
  destruct (Z.geb_spec start_block last_block); [lia|].
  destruct (range3 _ _ _) as [r|] eqn:Hr; [|discriminate]. simpl.
  intros [= <-]. rewrite in_concat. split.
  - intros (l & Hl & Hin).
    apply in_map_iff in Hl as ([i e] & <- & Hie).
    apply in_map_iff in Hie as (i' & [= <- <-] & Hi).
    apply (in_range3 _ _ _ _ i' Hbs Hr) in Hi as [Hi Hmod].
    apply handle_block_range_below_end in Hin. simpl in Hin.
    split; [lia|].
    apply Z.mod_divide in Hmod; [|lia]. destruct Hmod as [q Hq].
    replace (b - start_block) with ((b - i' + 1) + q * batch_size) by lia.
    rewrite Z.mod_add by lia. rewrite Z.mod_small by lia. lia.
  - intros [Hb Hmod].
    set (q := (b - start_block - 1) / batch_size).
    set (i := start_block + 1 + q * batch_size).
    assert (0 ≤ q) by (apply Z.div_pos; lia).
    pose proof (Z.div_mod (b - start_block - 1) batch_size ltac:(lia)) as Hdm.
    pose proof (Z.mod_pos_bound (b - start_block - 1) batch_size Hbs) as Hbd.
    fold q in Hdm.
    assert ((b - start_block - 1) mod batch_size ≠ batch_size - 1) as Hne.
    { intros Heq. apply Hmod.
      replace (b - start_block) with (0 + (q + 1) * batch_size) by lia.
      rewrite Z.mod_add by lia. apply Z.mod_0_l. lia. }
    exists (handle_block_range i (Z.min (i + batch_size - 1) last_block)). split.
    + apply in_map_iff. exists (i, Z.min (i + batch_size - 1) last_block).
      split; [reflexivity|]. apply in_map_iff. exists i. split; [reflexivity|].
      apply (in_range3 _ _ _ _ i Hbs Hr). split; [subst i; nia|].
      subst i. replace (start_block + 1 + q * batch_size - (start_block + 1))
        with (q * batch_size) by lia. apply Z.mod_mul. lia.
    + unfold handle_block_range. apply in_range. subst i. lia.
Qed.

(** The sub-ranges, with their inclusive ends, tile the interval above
    the checkpoint up to the chain head, and none is longer than the batch
    size. *)
Lemma scan_blockchain_tiles (start_block last_block batch_size : Z) tasks :
  0 < batch_size → start_block < last_block →
  scan_blockchain start_block last_block batch_size = Some tasks →
  (∀ i e, In (i, e) tasks → i ≤ e ∧ e - i < batch_size ∧ start_block < i ∧ e ≤ last_block)
  ∧ (∀ b, start_block < b ≤ last_block → ∃ i e, In (i, e) tasks ∧ i ≤ b ≤ e)
  ∧ (∀ b i e i' e', In (i, e) tasks → In (i', e') tasks →
       i ≤ b ≤ e → i' ≤ b ≤ e' → i = i' ∧ e = e').
Proof.
  intros Hbs Hlt. unfold scan_blockchain.
  destruct (Z.geb_spec start_block last_block); [lia|].
  destruct (range3 _ _ _) as [r|] eqn:Hr; [|discriminate]. simpl.
  intros [= <-].
  assert (∀ i e, In (i, e) (map (fun i => (i, Z.min (i + batch_size - 1) last_block)) r) ↔
                 (start_block + 1 ≤ i < last_block + 1
                  ∧ (i - (start_block + 1)) mod batch_size = 0)
                 ∧ e = Z.min (i + batch_size - 1) last_block) as Hin.
  { intros i e. rewrite in_map_iff. split.
    - intros (i' & [= <- <-] & Hi). split; [|reflexivity].
      by apply (in_range3 _ _ _ _ i' Hbs Hr).
    - intros [Hi ->]. exists i. split; [reflexivity|].
      by apply (in_range3 _ _ _ _ i Hbs Hr). }
  split; [|split].
  - intros i e Hie. apply Hin in Hie as [[Hi _] ->]. lia.
  - intros b Hb.
    set (q := (b - start_block - 1) / batch_size).
    pose proof (Z.div_mod (b - start_block - 1) batch_size ltac:(lia)) as Hdm.
    pose proof (Z.mod_pos_bound (b - start_block - 1) batch_size Hbs) as Hbd.
    fold q in Hdm. assert (0 ≤ q) by (apply Z.div_pos; lia).
    exists (start_block + 1 + q * batch_size),
           (Z.min (start_block + 1 + q * batch_size + batch_size - 1) last_block).
    split; [|lia]. apply Hin. split; [|reflexivity]. split; [nia|].
    replace (start_block + 1 + q * batch_size - (start_block + 1)) with (q * batch_size) by lia.
    apply Z.mod_mul. lia.
  - intros b i e i' e' Hie Hie' Hb Hb'.
    apply Hin in Hie as [[Hi Hmod] ->]. apply Hin in Hie' as [[Hi' Hmod'] ->].
    apply Z.mod_divide in Hmod, Hmod'; try lia.
    destruct Hmod as [q Hq], Hmod' as [q' Hq'].
    assert (q = q') as -> by nia.
    assert (i = i') as -> by lia. auto.
Qed.

End ScanCycle.

(** C1 (code defect).  At checkpoint 100, chain head 120 and batch size 50
    the cycle creates the single sub-range (101, 120) with an inclusive end,
    and [handle_block_range] fetches the blocks 101 to 119 only: block 120,
    which belongs to the interval (100, 120], is never passed to the block
    fetcher. *)
Theorem C1_scan_cycle_skips_inclusive_end :
  Utils.scan_blockchain 100 120 50 = Some [(101, 120)]
  ∧ Utils.scanned_blocks 100 120 50 = Some (Py.range 101 120)
  ∧ ¬ In 120 (Py.range 101 120)
  ∧ 100 < 120 ≤ 120.
Proof.
  split; [reflexivity|]. split; [reflexivity|]. split; [|lia].
  rewrite in_range. lia.
Qed.

(** ** The reduction to one trade per subject *)

Section Reducer.
Import Utils.

Lemma dict_get_set_eq k v d : dict_get k (dict_set k v d) = Some v.
Proof.
  induction d as [|[k' v'] d IH]; simpl.
  - rewrite bool_decide_eq_true_2; auto.
  - destruct (bool_decide (k' = k)) eqn:E; simpl; rewrite E; auto.
Qed.

Lemma dict_get_set_ne k k' v d : k ≠ k' → dict_get k' (dict_set k v d) = dict_get k' d.
Proof.
  intros Hne. induction d as [|[k0 v0] d IH]; simpl.
  - rewrite bool_decide_eq_false_2; auto.
  - destruct (bool_decide (k0 = k)) eqn:E; simpl.
    + apply bool_decide_eq_true in E. subst k0.
      rewrite !bool_decide_eq_false_2; auto.
    + rewrite IH. reflexivity.
Qed.

(** The keys of the dictionary: a present key keeps its place. *)
Lemma dict_set_keys k v d :
  map fst (dict_set k v d) =
  match dict_get k d with Some _ => map fst d | None => map fst d ++ [k] end.
Proof.
  induction d as [|[k' v'] d IH]; simpl; [reflexivity|].
  destruct (bool_decide (k' = k)) eqn:E; simpl; [reflexivity|].
  rewrite IH. destruct (dict_get k d); reflexivity.
Qed.

Lemma dict_get_None k d : dict_get k d = None ↔ ¬ In k (map fst d).
Proof.
  induction d as [|[k' v'] d IH]; simpl; [tauto|].
  destruct (bool_decide (k' = k)) eqn:E.
  - apply bool_decide_eq_true in E. split; [discriminate|]. tauto.
  - apply bool_decide_eq_false in E. rewrite IH. tauto.
Qed.

Lemma dict_get_In k v d : dict_get k d = Some v → In (k, v) d.
Proof.
  induction d as [|[k' v'] d IH]; simpl; [discriminate|].
  destruct (bool_decide (k' = k)) eqn:E.
  - apply bool_decide_eq_true in E. intros [= ->]. subst. auto.
  - auto.
Qed.

Lemma In_dict_get k v d : NoDup (map fst d) → In (k, v) d → dict_get k d = Some v.
Proof.
  induction d as [|[k' v'] d IH]; simpl; [tauto|].
  intros Hnd [[= -> ->]|Hin].
  - rewrite bool_decide_eq_true_2; auto.
  - apply NoDup_cons in Hnd as [Hni Hnd].
    rewrite bool_decide_eq_false_2; auto.
    intros ->. apply Hni, list_elem_of_In, in_map_iff. exists (k, v). auto.
Qed.

Lemma most_recent_trades_snoc trades x :
  most_recent_trades (trades ++ [x]) = reduce_step (most_recent_trades trades) x.
Proof. unfold most_recent_trades. rewrite fold_left_app. reflexivity. Qed.

Lemma first_greatest_snoc_keep trades s t x :
  first_greatest trades s t →
  (subject x = s → timestamp x ≤ timestamp t) →
  first_greatest (trades ++ [x]) s t.
Proof.
  intros (Hs & l1 & l2 & -> & H1 & H2) Hx. split; [exact Hs|].
  exists l1, (l2 ++ [x]). split; [by rewrite <- app_assoc|]. split; [exact H1|].
  intros t' Hin Ht'. apply in_app_or in Hin as [Hin|[<-|[]]]; auto.
Qed.

Lemma first_greatest_snoc_new trades x :
  (∀ t', In t' trades → subject t' = subject x → timestamp t' < timestamp x) →
  first_greatest (trades ++ [x]) (subject x) x.
Proof.
  intros H. split; [reflexivity|]. exists trades, []. split; [reflexivity|].
  split; [exact H|]. intros t' [].
Qed.

Lemma first_greatest_bound trades s t t' :
  first_greatest trades s t → In t' trades → subject t' = s →
  timestamp t' ≤ timestamp t.
Proof.
  intros (Hs & l1 & l2 & -> & H1 & H2) Hin Ht'.
  apply in_app_or in Hin as [Hin|[<-|Hin]].
  - specialize (H1 _ Hin Ht'). lia.
  - lia.
  - auto.
Qed.

Lemma reduced_step trades d x :
  reduced trades d → reduced (trades ++ [x]) (reduce_step d x).
Proof.
  intros [Hk Ha Hp]. unfold reduce_step.
  destruct (dict_get (subject x) d) as [cur|] eqn:Hget.
  - destruct (Z.ltb_spec (timestamp cur) (timestamp x)) as [Hlt|Hge].
    + split.
      * rewrite dict_set_keys, Hget. exact Hk.
      * intros s Hs t Hin.
        destruct (decide (subject x = s)) as [<-|Hne].
        { rewrite dict_get_set_eq in Hs. discriminate. }
        rewrite dict_get_set_ne in Hs by exact Hne.
        apply in_app_or in Hin as [Hin|[<-|[]]]; eauto.
      * intros s t Hs.
        destruct (decide (subject x = s)) as [<-|Hne].
        { rewrite dict_get_set_eq in Hs. injection Hs as <-.
          apply first_greatest_snoc_new. intros t' Hin Ht'.
          pose proof (first_greatest_bound _ _ _ _ (Hp _ _ Hget) Hin Ht'). lia. }
        rewrite dict_get_set_ne in Hs by exact Hne.
        apply first_greatest_snoc_keep; [auto|]. intros E. contradiction.
    + split.
      * exact Hk.
      * intros s Hs t Hin.
        apply in_app_or in Hin as [Hin|[<-|[]]]; [eauto|]. congruence.
      * intros s t Hs. apply first_greatest_snoc_keep; [auto|].
        intros E. rewrite <- E, Hget in Hs. injection Hs as <-. lia.
  - split.
    + rewrite dict_set_keys, Hget. apply NoDup_app. split; [exact Hk|].
      split; [|apply NoDup_singleton].
      intros k Hin Hk'. apply list_elem_of_In in Hin, Hk'.
      destruct Hk' as [<-|[]]. by apply dict_get_None in Hget.
    + intros s Hs t Hin.
      destruct (decide (subject x = s)) as [<-|Hne].
      { rewrite dict_get_set_eq in Hs. discriminate. }
      rewrite dict_get_set_ne in Hs by exact Hne.
      apply in_app_or in Hin as [Hin|[<-|[]]]; eauto.
    + intros s t Hs.
      destruct (decide (subject x = s)) as [<-|Hne].
      { rewrite dict_get_set_eq in Hs. injection Hs as <-.
        apply first_greatest_snoc_new. intros t' Hin Ht'.
        exfalso. exact (Ha _ Hget _ Hin Ht'). }
      rewrite dict_get_set_ne in Hs by exact Hne.
      apply first_greatest_snoc_keep; [auto|]. intros E. contradiction.
Qed.

Lemma most_recent_trades_reduced trades : reduced trades (most_recent_trades trades).
Proof.
  induction trades as [|x trades IH] using rev_ind.
  - split; simpl; [constructor| intros _ _ _ [] | discriminate].
  - rewrite most_recent_trades_snoc. by apply reduced_step.
Qed.

Lemma filter_none {A} (f : A → bool) (l : list A) :
  (∀ x, In x l → f x = false) → List.filter f l = [].
Proof.
  induction l as [|x l IH]; simpl; [reflexivity|]. intros H.
  rewrite (H x) by auto. apply IH. auto.
Qed.

(** The representatives of a subject among a list of dictionary values. *)
Lemma filter_values_unique (d : dict) s t :
  NoDup (map fst d) → (∀ k v, In (k, v) d → subject v = k) →
  dict_get s d = Some t →
  List.filter (fun v => bool_decide (subject v = s)) (map snd d) = [t].
Proof.
  induction d as [|[k v] d IH]; simpl; [discriminate|].
  intros Hnd Hsub Hget. apply NoDup_cons in Hnd as [Hni Hnd].
  assert (subject v = k) as Hv by (apply Hsub; auto).
  destruct (bool_decide (k = s)) eqn:E.
  - apply bool_decide_eq_true in E. subst k. injection Hget as ->.
    rewrite bool_decide_eq_true_2 by exact Hv. f_equal.
    apply filter_none. intros v' Hin.
    apply bool_decide_eq_false. intros Hv'.
    apply in_map_iff in Hin as ([k' v''] & <- & Hin). simpl in Hv'.
    apply Hni. apply list_elem_of_In. apply in_map_iff.
    exists (k', v''). simpl. split; [|exact Hin].
    rewrite <- (Hsub k' v''); auto.
  - apply bool_decide_eq_false in E.
    rewrite bool_decide_eq_false_2 by congruence.
    apply IH; auto.
Qed.

Lemma representatives_of_subject trades s t :
  dict_get s (most_recent_trades trades) = Some t →
  List.filter (fun v => bool_decide (subject v = s)) (unique_most_recent_trades trades) = [t].
Proof.
  pose proof (most_recent_trades_reduced trades) as [Hk Ha Hp].
  apply filter_values_unique; [exact Hk|].
  intros k v Hin. apply In_dict_get in Hin; [|exact Hk].
  apply Hp in Hin. apply Hin.
Qed.

End Reducer.

(** The reducer on the timestamps 10, 30, 20 of one subject keeps the trade
    at timestamp 30. *)
Example reducer_10_30_20 :
  Utils.unique_most_recent_trades
    [sample_trade x0a 10; sample_trade x0b 30; sample_trade x0c 20]
  = [sample_trade x0b 30].
Proof. reflexivity. Qed.

(** C4 (as amended).  For every batch and every subject appearing in it, the
    reduction keeps exactly one representative trade of that subject: the
    trade with the greatest timestamp, and among several trades with that
    timestamp the first one in batch order. *)
Theorem C4_representative_is_first_greatest (trades : list Trade) (s : bytes) :
  (∃ t0, In t0 trades ∧ subject t0 = s) →
  ∃ t,
    List.filter (fun v => bool_decide (subject v = s))
                (Utils.unique_most_recent_trades trades) = [t]
    ∧ first_greatest trades s t.
Proof.
  intros (t0 & Hin & Hs).
  pose proof (most_recent_trades_reduced trades) as [Hk Ha Hp].
  destruct (Utils.dict_get s (Utils.most_recent_trades trades)) as [t|] eqn:Hget.
  - exists t. split; [by apply representatives_of_subject | by apply Hp].
  - exfalso. exact (Ha _ Hget _ Hin Hs).
Qed.

Lemma C4_representative_is_first_greatest_witness :
  (∃ t0, In t0 [sample_trade x0a 10; sample_trade x0b 30; sample_trade x0c 20]
         ∧ subject t0 = [x01])
  ∧ ∃ t,
      List.filter (fun v => bool_decide (subject v = [x01]))
        (Utils.unique_most_recent_trades
           [sample_trade x0a 10; sample_trade x0b 30; sample_trade x0c 20]) = [t]
      ∧ first_greatest
          [sample_trade x0a 10; sample_trade x0b 30; sample_trade x0c 20] [x01] t.
Proof.
  assert (∃ t0, In t0 [sample_trade x0a 10; sample_trade x0b 30; sample_trade x0c 20]
                ∧ subject t0 = [x01]) as H.
  { exists (sample_trade x0a 10). split; [simpl; auto | reflexivity]. }
  split; [exact H|].
  exact (C4_representative_is_first_greatest _ _ H).
Defined.

(** C4 (the claim as stated fails).  Two trades of one subject with the same
    timestamp: the trade seen last is the last-seen-wins choice, but the
    reduction keeps the trade seen first. *)
Lemma C4_last_seen_wins_counterexample :
  let first := sample_trade x0a 30 in
  let second := sample_trade x0b 30 in
  last_greatest [first; second] [x01] second
  ∧ Utils.unique_most_recent_trades [first; second] = [first]
  ∧ first ≠ second
  ∧ ¬ last_greatest [first; second] [x01] first.
Proof.
  cbv zeta. split; [|split; [reflexivity|split; [discriminate|]]].
  - split; [reflexivity|]. exists [sample_trade x0a 30], [].
    split; [reflexivity|]. split.
    + intros t' [<-|[]] _. simpl. lia.
    + intros t' [].
  - intros (_ & l1 & l2 & Heq & _ & H2).
    destruct l1 as [|a l1].
    + injection Heq as <-. specialize (H2 (sample_trade x0b 30)).
      simpl in H2. specialize (H2 (or_introl eq_refl) eq_refl). lia.
    + injection Heq as _ Heq. destruct l1 as [|b l1].
      * injection Heq as Heq _. discriminate.
      * injection Heq as _ Heq. destruct l1; discriminate.
Qed.

(** ** The persistence operations *)

Section Persistence.
Import Py Db.

Variable fault : statement → bool.

Lemma transaction_atomic body db e db' :
  transaction body db = (Raise e, db') → db' = db.
Proof.
  unfold transaction. destruct (body db) as [[[]|e'] db1]; intros [= _ <-]; reflexivity.
Qed.

Lemma transaction_return body db db' :
  transaction body db = (Return tt, db') → body db = (Return tt, db').
Proof.
  unfold transaction. destruct (body db) as [[[]|e'] db1]; intros [= <-]; reflexivity.
Qed.

(** A property of the rows that every statement of a list preserves holds
    after the list, however it ends, and after a transaction around it. *)
Lemma execute_all_preserves (P : Database → Database → Prop) qs :
  (∀ db, P db db) →
  (∀ db1 db2 db3, P db1 db2 → P db2 db3 → P db1 db3) →
  (∀ q db db', In q qs → execute fault q db = Return db' → P db db') →
  ∀ db, P db (execute_all fault qs db).2.
Proof.
  intros Hrefl Htrans. induction qs as [|q qs IH]; intros Hq db; simpl; [apply Hrefl|].
  destruct (execute fault q db) as [db'|e] eqn:E; simpl; [|apply Hrefl].
  apply Htrans with db'; [apply (Hq q); simpl; auto|].
  apply IH. intros q' d d' Hin. apply Hq. simpl. auto.
Qed.

Lemma transaction_preserves (P : Database → Database → Prop) qs :
  (∀ db, P db db) →
  (∀ db1 db2 db3, P db1 db2 → P db2 db3 → P db1 db3) →
  (∀ q db db', In q qs → execute fault q db = Return db' → P db db') →
  ∀ db, P db (transaction (execute_all fault qs) db).2.
Proof.
  intros Hrefl Htrans Hq db.
  pose proof (execute_all_preserves P qs Hrefl Htrans Hq db) as H.
  unfold transaction. destruct (execute_all fault qs db) as [[[]|e] db1]; simpl in *; auto.
Qed.

(** *** Updates *)

Lemma set_column_address f v row row' :
  f ≠ F_address → set_column f v row = Some row' → address row' = address row.
Proof.
  intros Hf. destruct f, v; simpl; try discriminate; try congruence;
    intros [= <-]; reflexivity.
Qed.

Lemma set_column_frame f v row row' f' :
  f' ≠ f → set_column f v row = Some row' → column f' row' = column f' row.
Proof.
  intros Hf. destruct f, v; simpl; try discriminate; intros [= <-];
    destruct f'; try reflexivity; congruence.
Qed.

Lemma apply_setters_address setters row row' :
  (∀ f v, In (f, v) setters → f ≠ F_address) →
  apply_setters setters row = Some row' → address row' = address row.
Proof.
  revert row. induction setters as [|[f v] rest IH]; intros row Hs; simpl.
  - intros [= <-]. reflexivity.
  - destruct (set_column f v row) as [r1|] eqn:E; simpl; [|discriminate].
    intros H. rewrite (IH r1); [|intros; eapply Hs; simpl; eauto|exact H].
    eapply set_column_address; [|exact E]. eapply Hs. simpl. eauto.
Qed.

Lemma apply_setters_frame setters row row' f' :
  (∀ v, ¬ In (f', v) setters) →
  apply_setters setters row = Some row' → column f' row' = column f' row.
Proof.
  revert row. induction setters as [|[f v] rest IH]; intros row Hs; simpl.
  - intros [= <-]. reflexivity.
  - destruct (set_column f v row) as [r1|] eqn:E; simpl; [|discriminate].
    intros H. rewrite (IH r1); [|intros v' Hin; eapply Hs; simpl; eauto|exact H].
    eapply set_column_frame; [|exact E]. intros ->. eapply Hs. simpl. eauto.
Qed.

(** The setters of [fields_to_update]: the non-null fields, address apart. *)
Lemma in_fields_to_update share f v :
  In (f, v) (fields_to_update share) ↔ f ≠ F_address ∧ In (f, Some v) (model_dump share).
Proof.
  unfold fields_to_update. rewrite <- !list_elem_of_In, list_elem_of_omap. split.
  - intros ([f0 [v0|]] & Hin & Heq); simpl in Heq; [|discriminate].
    case_bool_decide; [|discriminate]. injection Heq as -> ->. auto.
  - intros [Hf Hin]. exists (f, Some v). split; [exact Hin|]. simpl.
    rewrite bool_decide_eq_true_2; auto.
Qed.

Lemma model_dump_column share f v :
  In (f, Some v) (model_dump share) → column f share = Some v.
Proof.
  unfold column, model_dump. simpl.
  intros H. repeat (destruct H as [H|H];
    [first [injection H as <- Hv; simpl; rewrite ?Hv; reflexivity | discriminate H]|]).
  destruct H.
Qed.

Lemma fields_to_update_null share f :
  column f share = None → ∀ v, ¬ In (f, v) (fields_to_update share).
Proof.
  intros Hnull v Hin. apply in_fields_to_update in Hin as [_ Hin].
  apply model_dump_column in Hin. congruence.
Qed.

End Persistence.

Section Updates.
Import Py Db.

Variable fault : statement → bool.

Lemma updated_by_refl shares_in row : updated_by shares_in row row.
Proof. repeat split; auto. Qed.

Lemma updated_by_trans shares_in r1 r2 r3 :
  updated_by shares_in r1 r2 → updated_by shares_in r2 r3 → updated_by shares_in r1 r3.
Proof.
  intros (Ha & Hc & He) (Ha' & Hc' & He'). split; [congruence|]. split.
  - intros f Hf. rewrite Hc', Hc; auto. intros s Hin Hs. apply Hf; congruence.
  - intros Hs. rewrite He', He; auto. intros s Hin. rewrite Ha. auto.
Qed.

Lemma rows_updated_by_refl shares_in db : rows_updated_by shares_in db db.
Proof.
  repeat split. apply Forall2_same_length_lookup. split; [reflexivity|].
  intros i x y Hx Hy. assert (x = y) as -> by congruence. apply updated_by_refl.
Qed.

Lemma rows_updated_by_trans shares_in db1 db2 db3 :
  rows_updated_by shares_in db1 db2 → rows_updated_by shares_in db2 db3 →
  rows_updated_by shares_in db1 db3.
Proof.
  intros (Ht & Hu & Hf) (Ht' & Hu' & Hf'). split; [congruence|]. split; [congruence|].
  revert Hf Hf'. generalize (shares db1) (shares db2) (shares db3).
  intros l1 l2 l3 H12. revert l3.
  induction H12 as [|x y l1 l2 Hxy H12 IH]; intros l3 H23; inversion H23; subst;
    constructor; eauto using updated_by_trans.
Qed.

Lemma update_rows_spec setters a rows rows' :
  update_rows setters a rows = Some rows' →
  Forall2 (fun row row' =>
             (address row ≠ a → row' = row)
             ∧ (address row = a → apply_setters setters row = Some row'))
          rows rows'.
Proof.
  revert rows'. induction rows as [|row rest IH]; simpl; intros rows'.
  - intros [= <-]. constructor.
  - destruct (bool_decide (address row = a)) eqn:E.
    + apply bool_decide_eq_true in E.
      destruct (apply_setters setters row) as [r1|] eqn:E1; simpl; [|discriminate].
      destruct (update_rows setters a rest) as [rest'|]; simpl; [|discriminate].
      intros [= <-]. constructor; [|apply IH; reflexivity].
      split; [contradiction|]. intros _. exact E1.
    + apply bool_decide_eq_false in E. simpl.
      destruct (update_rows setters a rest) as [rest'|]; simpl; [|discriminate].
      intros [= <-]. constructor; [|apply IH; reflexivity].
      split; [reflexivity|contradiction].
Qed.

(** One statement of [update_queries] respects the frame of its call. *)
Lemma update_statement_frame shares_in q db db' :
  In q (update_queries shares_in) → execute fault q db = Return db' →
  rows_updated_by shares_in db db'.
Proof.
  unfold update_queries. rewrite <- list_elem_of_In, list_elem_of_omap.
  intros (share & Hin & Hq). apply list_elem_of_In in Hin.
  destruct (fields_to_update share) as [|fv setters0] eqn:Hset; [discriminate|].
  injection Hq as <-. rewrite <- Hset. clear fv setters0 Hset.
  unfold execute. destruct (fault _); [discriminate|].
  destruct (update_rows _ _ _) as [rows|] eqn:Hrows; [|discriminate].
  intros [= <-]. repeat split. simpl.
  apply update_rows_spec in Hrows.
  eapply Forall2_impl; [exact Hrows|]. simpl.
  intros row row' [Hne Heq].
  destruct (decide (address row = address share)) as [Ha|Ha].
  - specialize (Heq Ha). split; [|split].
    + eapply apply_setters_address; [|exact Heq].
      intros f v Hfv. apply in_fields_to_update in Hfv. tauto.
    + intros f Hf. eapply apply_setters_frame; [|exact Heq].
      apply fields_to_update_null. auto.
    + intros Hs. exfalso. exact (Hs share Hin (eq_sym Ha)).
  - rewrite (Hne Ha). apply updated_by_refl.
Qed.

Lemma update_shares_frame db shares_in :
  rows_updated_by shares_in db (update_shares fault db shares_in).2.
Proof.
  unfold update_shares. destruct shares_in as [|s0 rest] eqn:E.
  - apply rows_updated_by_refl.
  - rewrite <- E. apply (transaction_preserves fault (rows_updated_by shares_in)).
    + apply rows_updated_by_refl.
    + apply rows_updated_by_trans.
    + intros q d d'. apply update_statement_frame.
Qed.

Lemma update_shares_atomic db shares_in e db' :
  update_shares fault db shares_in = (Raise e, db') → db' = db.
Proof.
  unfold update_shares. destruct shares_in; [intros [= <-]; reflexivity|].
  apply transaction_atomic.
Qed.

End Updates.

Section Inserts.
Import Py Db.

Variable fault : statement → bool.

Lemma rows_inserted_refl batch db : rows_inserted batch db db.
Proof.
  repeat split. exists []. rewrite app_nil_r. repeat split; auto. intros r [].
Qed.

Lemma rows_inserted_trans batch db1 db2 db3 :
  rows_inserted batch db1 db2 → rows_inserted batch db2 db3 → rows_inserted batch db1 db3.
Proof.
  intros (Ht & Hu & a1 & Hs & Hb & Hn) (Ht' & Hu' & a2 & Hs' & Hb' & Hn').
  split; [congruence|]. split; [congruence|].
  exists (a1 ++ a2). split; [rewrite Hs', Hs, app_assoc; reflexivity|]. split; [|auto].
  intros r Hin. apply in_app_or in Hin as [|]; auto.
Qed.

Lemma has_address_spec a rows : has_address a rows = true ↔ In a (map address rows).
Proof.
  unfold has_address. rewrite existsb_exists, in_map_iff. split.
  - intros (r & Hin & Hr). apply bool_decide_eq_true in Hr. eauto.
  - intros (r & Hr & Hin). exists r. split; [exact Hin|]. by apply bool_decide_eq_true.
Qed.

Lemma insert_statement_spec batch row db db' :
  In row batch →
  execute fault (Insert_share On_conflict_do_nothing row) db = Return db' →
  rows_inserted batch db db' ∧ In (address row) (map address (shares db')).
Proof.
  intros Hin. unfold execute, insert_row. destruct (fault _); [discriminate|].
  destruct (unique_address db); [|discriminate].
  destruct (has_address (address row) (shares db)) eqn:E.
  - intros [= <-]. split; [apply rows_inserted_refl|]. by apply has_address_spec.
  - intros [= <-]. split.
    + repeat split. exists [row]. simpl. split; [reflexivity|]. split.
      * intros r [<-|[]]. exact Hin.
      * intros Hnd. rewrite map_app. simpl. apply NoDup_app. split; [exact Hnd|].
        split; [|apply NoDup_singleton].
        intros a Ha Ha'. apply list_elem_of_In in Ha, Ha'. destruct Ha' as [<-|[]].
        apply has_address_spec in Ha. congruence.
    + simpl. rewrite map_app. apply in_or_app. right. simpl. auto.
Qed.

Lemma insert_shares_spec db batch :
  rows_inserted batch db (insert_shares fault db batch).2.
Proof.
  unfold insert_shares, execute_many. destruct batch as [|s0 rest] eqn:E.
  - apply rows_inserted_refl.
  - rewrite <- E. apply (transaction_preserves fault (rows_inserted batch)).
    + apply rows_inserted_refl.
    + apply rows_inserted_trans.
    + intros q d d' Hq Hex. apply in_map_iff in Hq as (row & <- & Hrow).
      by apply (insert_statement_spec batch row).
Qed.

(** After a completed insert, every address of the batch is stored. *)
Lemma execute_all_inserts_complete batch rows db db' :
  (∀ r, In r rows → In r batch) →
  execute_all fault (map (Insert_share On_conflict_do_nothing) rows) db = (Return tt, db') →
  rows_inserted batch db db'
  ∧ ∀ r, In r rows → In (address r) (map address (shares db')).
Proof.
  revert db. induction rows as [|row rows IH]; intros db Hsub; simpl.
  - intros [= <-]. split; [apply rows_inserted_refl|]. intros r [].
  - destruct (execute fault _ db) as [db1|e] eqn:E; [|discriminate].
    intros Hrest. apply (insert_statement_spec batch) in E as [H1 Hrow]; [|apply Hsub; simpl; auto].
    apply IH in Hrest as [H2 Hrows]; [|intros; apply Hsub; simpl; auto].
    split; [eapply rows_inserted_trans; eauto|].
    intros r [<-|Hin]; [|auto].
    destruct H2 as (_ & _ & added & -> & _). rewrite map_app. apply in_or_app. auto.
Qed.

Lemma insert_shares_complete db batch db' :
  insert_shares fault db batch = (Return tt, db') →
  ∀ r, In r batch → In (address r) (map address (shares db')).
Proof.
  unfold insert_shares, execute_many. destruct batch as [|s0 rest] eqn:E.
  - intros _ r [].
  - rewrite <- E. intros H. apply transaction_return in H.
    apply (execute_all_inserts_complete batch) in H; [apply H|auto].
Qed.

Lemma insert_shares_atomic db batch e db' :
  insert_shares fault db batch = (Raise e, db') → db' = db.
Proof.
  unfold insert_shares, execute_many. destruct batch; [intros [= <-]; reflexivity|].
  apply transaction_atomic.
Qed.

Lemma rows_updated_by_addresses shares_in db db' :
  rows_updated_by shares_in db db' →
  map address (shares db') = map address (shares db).
Proof.
  intros (_ & _ & H). induction H as [|x y l l' (Ha & _) _ IH]; simpl; congruence.
Qed.

End Inserts.

(** C7.  Both Share-writing operations keep at most one row per address.
    [insert_shares] leaves every stored row unchanged and in place, and adds
    rows only for addresses that had none; [update_shares] leaves the list
    of addresses of the stored rows as it was: it creates no row and deletes
    none. *)
Theorem C7_one_share_per_address (fault : Db.statement → bool)
  (db : Db.Database) (shares_in : list Share) :
  NoDup (map address (Db.shares db)) →
  let db_i := (Db.insert_shares fault db shares_in).2 in
  let db_u := (Db.update_shares fault db shares_in).2 in
  NoDup (map address (Db.shares db_i))
  ∧ (∃ added, Db.shares db_i = Db.shares db ++ added
       ∧ ∀ r, In r added → ¬ In (address r) (map address (Db.shares db)))
  ∧ NoDup (map address (Db.shares db_u))
  ∧ map address (Db.shares db_u) = map address (Db.shares db).
Proof.
  intros Hnd db_i db_u.
  destruct (insert_shares_spec fault db shares_in) as (_ & _ & added & Hs & _ & Hn).
  fold db_i in Hs, Hn. specialize (Hn Hnd).
  pose proof (rows_updated_by_addresses _ _ _ (update_shares_frame fault db shares_in)) as Hu.
  fold db_u in Hu.
  split; [exact Hn|]. split; [|rewrite Hu; auto].
  exists added. split; [exact Hs|].
  intros r Hr Hin. rewrite Hs, map_app in Hn.
  apply NoDup_app in Hn as (_ & Hdisj & _).
  apply (Hdisj (address r)); apply list_elem_of_In; [exact Hin|].
  apply in_map_iff. eauto.
Qed.

Lemma C7_one_share_per_address_witness :
  NoDup (map address (Db.shares (sample_db true)))
  ∧ NoDup (map address
             (Db.shares (Db.insert_shares no_fault (sample_db true)
                                          [sample_update x01; sample_update x03]).2)).
Proof.
  assert (NoDup (map address (Db.shares (sample_db true)))) as H.
  { simpl. repeat constructor; rewrite ?list_elem_of_In; simpl; intuition discriminate. }
  split; [exact H|].
  exact (proj1 (C7_one_share_per_address no_fault (sample_db true)
                  [sample_update x01; sample_update x03] H)).
Defined.

(** A conflicting insert changes nothing, a fresh one appends. *)
Example insert_shares_on_conflict :
  Db.insert_shares no_fault (sample_db true) [sample_update x01; sample_update x03]
  = (Py.Return tt,
     Db.with_shares (sample_db true)
       [sample_share x01 5; sample_share x02 6; sample_update x03]).
Proof. reflexivity. Qed.

(** An update writes the non-null fields of the Share and leaves the rest
    of the row, and the other rows, as they were. *)
Example update_shares_non_null_fields :
  Db.update_shares no_fault (sample_db true) [sample_update x01]
  = (Py.Return tt,
     Db.with_shares (sample_db true)
       [ {| address := [x01]; twitter_username := Some "alice";
            twitter_name := Some "Alice"; twitter_score := None;
            registered := Some 5; last_transaction := 20;
            balance := Decimal_of_int 250; buy_price := Decimal_of_int 9;
            sell_price := Decimal_of_int 8; supply := 4; rank := Some 12 |};
         sample_share x02 6 ]).
Proof. reflexivity. Qed.

(** When the server refuses the second statement of a call, the first
    statement's update is rolled back with it. *)
Example update_shares_rolls_back :
  let fault q :=
    match q with
    | Db.Update_share _ a => bool_decide (a = [x02])
    | _ => false
    end in
  Db.update_shares fault (sample_db true) [sample_update x01; sample_update x02]
  = (Py.Raise Db.ServerFault, sample_db true).
Proof. reflexivity. Qed.

(** C8.  [update_shares] changes nothing but the columns for which a passed
    Share of the row's address holds a non-null value: a row keeps its
    address, keeps every column that is null in all passed Shares of its
    address, and is unchanged when no passed Share has its address; the
    trades are untouched.  The updates of one call run in one transaction:
    when the call raises, no row has changed. *)
Theorem C8_update_shares_frame (fault : Db.statement → bool)
  (db : Db.Database) (shares_in : list Share) :
  let res := (Db.update_shares fault db shares_in).1 in
  let db' := (Db.update_shares fault db shares_in).2 in
  Db.trades db' = Db.trades db
  ∧ Forall2 (updated_by shares_in) (Db.shares db) (Db.shares db')
  ∧ (∀ e, res = Py.Raise e → db' = db).
Proof.
  intros res db'.
  destruct (update_shares_frame fault db shares_in) as (Ht & _ & Hf).
  split; [exact Ht|]. split; [exact Hf|].
  intros e He. apply (update_shares_atomic fault db shares_in e).
  subst res db'. destruct (Db.update_shares fault db shares_in) as [r d].
  simpl in *. congruence.
Qed.

Section TradeInserts.
Import Py Db.

Variable fault : statement → bool.

Lemma has_hash_spec h rows : has_hash h rows = true ↔ In h (map transaction_hash rows).
Proof.
  unfold has_hash. rewrite existsb_exists, in_map_iff. split.
  - intros (r & Hin & Hr). apply bool_decide_eq_true in Hr. eauto.
  - intros (r & Hr & Hin). exists r. split; [exact Hin|]. by apply bool_decide_eq_true.
Qed.

(** What [insert_trades] does with a trade whose hash is stored: a second
    row without the unique constraint, a unique violation with it. *)
Lemma insert_trades_stored_hash db t :
  fault (Insert_trade No_conflict_clause t) = false →
  In (transaction_hash t) (map transaction_hash (trades db)) →
  insert_trades fault db [t]
  = if unique_transaction_hash db then (Raise UniqueViolation, db)
    else (Return tt, with_trades db (trades db ++ [t])).
Proof.
  intros Hf Hin. apply has_hash_spec in Hin.
  unfold insert_trades, execute_many, transaction. cbn [map execute_all].
  unfold execute, insert_row. rewrite Hf, Hin.
  destruct (unique_transaction_hash db); reflexivity.
Qed.

(** The statement of the first assignment, had it been executed, skips a
    stored hash and changes nothing. *)
Lemma on_conflict_statement_skips db t :
  fault (Insert_trade On_conflict_do_nothing t) = false →
  unique_transaction_hash db = true →
  In (transaction_hash t) (map transaction_hash (trades db)) →
  execute_many fault (Insert_trade On_conflict_do_nothing) [t] db = (Return tt, db).
Proof.
  intros Hf Hu Hin. apply has_hash_spec in Hin.
  unfold execute_many, transaction. cbn [map execute_all].
  unfold execute, insert_row. rewrite Hf, Hu, Hin. reflexivity.
Qed.

End TradeInserts.

(** C2 (code defect).  The statement [insert_trades] executes is the plain
    [INSERT] of its second assignment.  With the trade already stored, a
    second insert of it either stores a second row with the same hash (no
    unique constraint on the hash) or raises a unique violation (with the
    constraint), in which case a new trade of the same batch is not stored
    either. *)
Theorem C2_insert_trades_not_idempotent :
  let t := sample_trade x0a 30 in
  let u := sample_trade x0b 31 in
  Db.trades (Db.insert_trades no_fault (sample_db false) [t]).2 = [t; t]
  ∧ Db.insert_trades no_fault (sample_db true) [t]
    = (Py.Raise Db.UniqueViolation, sample_db true)
  ∧ Db.insert_trades no_fault (sample_db true) [t; u]
    = (Py.Raise Db.UniqueViolation, sample_db true)
  ∧ Db.trades (Db.insert_trades no_fault (sample_db true) [u]).2 = [t; u].
Proof. repeat split. Qed.

(** ** The create-or-update partition *)

Section Partition.
Import Py Db Utils.

Variable fault : statement → bool.
Variable get_balance : string → option Z.

Lemma Share_of_data_fields d s :
  Share_of_data d = Some s →
  address s = sd_address d ∧ registered s = sd_registered d
  ∧ last_transaction s = sd_last_transaction d.
Proof.
  unfold Share_of_data. simpl.
  destruct (convert_to_decimal_float (sd_buy_price d)); simpl; [|discriminate].
  destruct (convert_to_decimal_float (sd_sell_price d)); simpl; [|discriminate].
  intros [= <-]. simpl. unfold convert_to_int. destruct (sd_registered d); auto.
Qed.

Lemma mapM_Share_of_data l valid :
  mapM Share_of_data l = Some valid →
  ∀ s, In s valid → ∃ d, In d l ∧ Share_of_data d = Some s.
Proof.
  intros H s. apply mapM_Some in H.
  induction H as [|d s' l valid Hd _ IH]; simpl; [tauto|].
  intros [<-|Hs]; [eauto|]. destruct (IH Hs) as (d' & ? & ?). eauto.
Qed.

End Partition.

Section ReconcileFacts.
Import Py Db Utils.

Variable fault : statement → bool.
Variable get_balance : string → option Z.

Lemma NoDup_map_inj {A B} (f : A → B) (l : list A) x y :
  NoDup (map f l) → In x l → In y l → f x = f y → x = y.
Proof.
  induction l as [|a l IH]; simpl; [tauto|].
  intros Hnd. apply NoDup_cons in Hnd as [Hni Hnd].
  rewrite list_elem_of_In, in_map_iff in Hni.
  intros [<-|Hx] [<-|Hy] Hf; auto.
  - exfalso. apply Hni. eauto.
  - exfalso. apply Hni. eauto.
Qed.

(** The representatives have pairwise distinct subjects. *)
Lemma representatives_distinct trades :
  NoDup (map subject (unique_most_recent_trades trades)).
Proof.
  pose proof (most_recent_trades_reduced trades) as [Hk _ Hp].
  unfold unique_most_recent_trades.
  assert (∀ k v, In (k, v) (most_recent_trades trades) → subject v = k) as Hsub.
  { intros k v Hin. apply In_dict_get in Hin; [|exact Hk]. apply Hp in Hin. apply Hin. }
  revert Hk Hsub. generalize (most_recent_trades trades). intros d Hk Hsub.
  replace (map subject (map snd d)) with (map fst d); [exact Hk|].
  induction d as [|[k v] d IH]; simpl; [reflexivity|].
  apply NoDup_cons in Hk as [_ Hk].
  rewrite (Hsub k v) by (simpl; auto). f_equal. apply IH; [exact Hk|].
  intros k' v' Hin. apply Hsub. simpl. auto.
Qed.

End ReconcileFacts.

Section UpdateResult.
Import Py Db.

Variable fault : statement → bool.

Lemma apply_setters_fields share row :
  apply_setters (fields_to_update share) row = Some (updated_row share row).
Proof.
  destruct share as [a [u|] [n|] [sc|] [reg|] lt bal bp sp sup [rk|]]; reflexivity.
Qed.

Lemma fields_to_update_not_empty share : fields_to_update share ≠ [].
Proof.
  destruct share as [a [u|] [n|] [sc|] [reg|] lt bal bp sp sup [rk|]]; discriminate.
Qed.

Lemma update_queries_all shares_in :
  update_queries shares_in
  = map (fun share => Update_share (fields_to_update share) (address share)) shares_in.
Proof.
  unfold update_queries. induction shares_in as [|s l IH]; [reflexivity|].
  cbn [omap list_omap map]. pose proof (fields_to_update_not_empty s) as H.
  destruct (fields_to_update s) eqn:E; [congruence|]. simpl. by rewrite <- IH.
Qed.

Lemma update_rows_fields share rows :
  update_rows (fields_to_update share) (address share) rows
  = Some (map (fun row => update_row row share) rows).
Proof.
  induction rows as [|row rows IH]; [reflexivity|].
  cbn [update_rows map]. rewrite IH, apply_setters_fields. unfold update_row.
  destruct (bool_decide (address row = address share)); reflexivity.
Qed.

Lemma update_row_address row share : address (update_row row share) = address row.
Proof. unfold update_row. destruct (bool_decide _); reflexivity. Qed.

Lemma rows_updated_cons share shares_in rows :
  rows_updated (share :: shares_in) rows
  = rows_updated shares_in (map (fun row => update_row row share) rows).
Proof. unfold rows_updated. rewrite map_map. reflexivity. Qed.

Lemma rows_updated_nil rows : rows_updated [] rows = rows.
Proof. unfold rows_updated. simpl. apply map_id. Qed.

Lemma execute_all_updates shares_in db db' :
  execute_all fault (update_queries shares_in) db = (Return tt, db') →
  db' = with_shares db (rows_updated shares_in (shares db)).
Proof.
  rewrite update_queries_all. revert db.
  induction shares_in as [|s l IH]; intros db; cbn [map execute_all].
  - intros [= <-]. rewrite rows_updated_nil. by destruct db.
  - unfold execute. destruct (fault _); [discriminate|].
    rewrite update_rows_fields. intros H. apply IH in H. rewrite H.
    rewrite rows_updated_cons. reflexivity.
Qed.

(** A statement of [update_shares] raises for a fault of the server
    only. *)
Lemma execute_all_updates_raise shares_in db e db' :
  execute_all fault (update_queries shares_in) db = (Raise e, db') → e = ServerFault.
Proof.
  rewrite update_queries_all. revert db.
  induction shares_in as [|s l IH]; intros db; cbn [map execute_all]; [discriminate|].
  unfold execute. destruct (fault _); [intros [= <- _]; reflexivity|].
  rewrite update_rows_fields. apply IH.
Qed.

Lemma update_shares_result db shares_in :
  match update_shares fault db shares_in with
  | (Return _, db') => db' = with_shares db (rows_updated shares_in (shares db))
  | (Raise e, db') => e = ServerFault ∧ db' = db
  end.
Proof.
  unfold update_shares. destruct shares_in as [|s l] eqn:E.
  - rewrite rows_updated_nil. by destruct db.
  - rewrite <- E. unfold transaction.
    destruct (execute_all fault (update_queries shares_in) db) as [[[]|e] db'] eqn:Hrun.
    + by apply execute_all_updates in Hrun.
    + apply execute_all_updates_raise in Hrun. auto.
Qed.

End UpdateResult.

Section ReconcileWrites.
Import Py Db Utils.

Variable fault : statement → bool.
Variable get_balance : string → option Z.

Lemma Forall2_in_r {A B} (P : A → B → Prop) l k y :
  Forall2 P l k → In y k → ∃ x, In x l ∧ P x y.
Proof.
  induction 1 as [|a b l k Hab H IH]; [intros []|].
  intros [<-|Hin]; [exists a; simpl; auto|].
  destruct (IH Hin) as (x & Hx & HP). exists x. simpl. auto.
Qed.

Lemma Forall2_in_l {A B} (P : A → B → Prop) l k x :
  Forall2 P l k → In x l → ∃ y, In y k ∧ P x y.
Proof.
  induction 1 as [|a b l k Hab H IH]; [intros []|].
  intros [<-|Hin]; [exists b; simpl; auto|].
  destruct (IH Hin) as (y & Hy & HP). exists y. simpl. auto.
Qed.

Lemma fold_update_address l row : address (fold_left update_row l row) = address row.
Proof.
  revert row. induction l as [|s l IH]; intros row; [reflexivity|].
  simpl. rewrite IH. apply update_row_address.
Qed.

Lemma write_shares_outcome db upd crt :
  (write_shares fault db upd crt).1 ≠ Balance_read_raised.
Proof.
  unfold write_shares. destruct (write_with _ db upd) as [[[]|e] db1]; [|discriminate].
  destruct (write_with _ db1 crt) as [[[]|e] db2]; discriminate.
Qed.

(** The classification loop puts the trades of known subjects in the update
    list and the others in the create list, in order. *)
Lemma classify_partition existing trades upd0 crt0 upd crt :
  classify get_balance existing trades upd0 crt0 = Some (upd, crt) →
  ∃ U C, upd = upd0 ++ U ∧ crt = crt0 ++ C
    ∧ Forall2 update_data
        (List.filter (fun t => bool_decide (subject t ∈ existing)) trades) U
    ∧ Forall2 create_data
        (List.filter (fun t => bool_decide (subject t ∉ existing)) trades) C.
Proof.
  revert upd0 crt0. induction trades as [|t rest IH]; intros upd0 crt0; cbn [classify].
  - intros [= <- <-]. exists [], []. rewrite !app_nil_r. repeat split; constructor.
  - destruct (get_balance _) as [b|]; cbn [mbind option_bind]; [|discriminate].
    cbn [List.filter]. case_bool_decide as Hex; intros H;
      apply IH in H as (U & C & -> & -> & HU & HC).
    + rewrite bool_decide_eq_false_2 by tauto.
      exists (share_data_of t b :: U), C. rewrite <- app_assoc.
      split; [reflexivity|]. split; [reflexivity|]. split; [|exact HC].
      constructor; [repeat split|exact HU].
    + rewrite bool_decide_eq_true_2 by exact Hex.
      exists U, (set_registered (share_data_of t b) (timestamp t) :: C).
      rewrite <- app_assoc.
      split; [reflexivity|]. split; [reflexivity|]. split; [exact HU|].
      constructor; [repeat split|exact HC].
Qed.

(** [write_with] for a write that does nothing on the empty list. *)
Lemma write_with_spec (write : Database → list Share → result DbError unit * Database)
  db l :
  (∀ d, write d [] = (Return tt, d)) →
  write_with write db l
  = match mapM Share_of_data l with
    | Some valid_shares =>
        match write db valid_shares with
        | (Return _, db') => (Return tt, db')
        | (Raise e, db') => (Raise (Database_error e), db')
        end
    | None => (Raise Validation_error, db)
    end.
Proof.
  intros Hw. unfold write_with. destruct l as [|d l]; [|reflexivity].
  simpl. rewrite Hw. reflexivity.
Qed.

Lemma execute_all_updates_accepted l db :
  (∀ s, In s l → fault (Update_share (fields_to_update s) (address s)) = false) →
  execute_all fault (update_queries l) db
  = (Return tt, with_shares db (rows_updated l (shares db))).
Proof.
  rewrite update_queries_all. revert db.
  induction l as [|s l IH]; intros db H; cbn [map execute_all].
  - rewrite rows_updated_nil. by destruct db.
  - unfold execute. rewrite (H s) by (simpl; auto). rewrite update_rows_fields.
    rewrite IH by (intros; apply H; simpl; auto). rewrite rows_updated_cons. reflexivity.
Qed.

Lemma execute_all_updates_served l db db' :
  execute_all fault (update_queries l) db = (Return tt, db') →
  ∀ s, In s l → fault (Update_share (fields_to_update s) (address s)) = false.
Proof.
  rewrite update_queries_all. revert db.
  induction l as [|s l IH]; intros db; cbn [map execute_all]; [intros _ s []|].
  unfold execute. destruct (fault _) eqn:E; [discriminate|].
  rewrite update_rows_fields. intros H s' [<-|Hin]; [exact E|]. eapply IH; eauto.
Qed.

Lemma update_shares_accepted db l :
  (∀ s, In s l → fault (Update_share (fields_to_update s) (address s)) = false) →
  update_shares fault db l = (Return tt, with_shares db (rows_updated l (shares db))).
Proof.
  intros H. unfold update_shares. destruct l as [|s0 l0] eqn:E.
  - rewrite rows_updated_nil. by destruct db.
  - rewrite <- E in *. unfold transaction. by rewrite execute_all_updates_accepted.
Qed.

Lemma update_shares_served db l db' :
  update_shares fault db l = (Return tt, db') →
  ∀ s, In s l → fault (Update_share (fields_to_update s) (address s)) = false.
Proof.
  unfold update_shares. destruct l as [|s0 l0] eqn:E; [intros _ s []|].
  rewrite <- E. intros H. apply transaction_return in H.
  exact (execute_all_updates_served _ _ _ H).
Qed.

Lemma execute_all_inserts_accepted l db :
  unique_address db = true →
  (∀ s, In s l → fault (Insert_share On_conflict_do_nothing s) = false) →
  NoDup (map address l) →
  (∀ s, In s l → ¬ In (address s) (map address (shares db))) →
  execute_all fault (map (Insert_share On_conflict_do_nothing) l) db
  = (Return tt, with_shares db (shares db ++ l)).
Proof.
  revert db. induction l as [|s l IH]; intros db Hu Hf Hnd Hnew; cbn [map execute_all].
  - rewrite app_nil_r. by destruct db.
  - unfold execute, insert_row. rewrite (Hf s) by (simpl; auto). rewrite Hu.
    destruct (has_address (address s) (shares db)) eqn:E.
    { apply has_address_spec in E. exfalso. apply (Hnew s); simpl; auto. }
    simpl in Hnd. apply NoDup_cons in Hnd as [Hs Hnd].
    rewrite IH; [simpl; by rewrite <- app_assoc|exact Hu| |exact Hnd|].
    + intros; apply Hf; simpl; auto.
    + intros s' Hs' Hin. simpl in Hin. rewrite map_app in Hin.
      apply in_app_or in Hin as [Hin|[Heq|[]]].
      * apply (Hnew s'); simpl; auto.
      * apply Hs. rewrite list_elem_of_In, Heq. by apply in_map.
Qed.

Lemma execute_all_inserts_served l db db' :
  execute_all fault (map (Insert_share On_conflict_do_nothing) l) db = (Return tt, db') →
  (∀ s, In s l → fault (Insert_share On_conflict_do_nothing s) = false)
  ∧ (l ≠ [] → unique_address db = true).
Proof.
  revert db. induction l as [|s l IH]; intros db; cbn [map execute_all].
  - intros _. split; [intros s []|congruence].
  - unfold execute, insert_row. destruct (fault _) eqn:E; [discriminate|].
    destruct (unique_address db) eqn:Hu; [|discriminate].
    destruct (has_address (address s) (shares db)); intros H; apply IH in H as [H _];
      (split; [|reflexivity]); intros s' [<-|Hin]; auto.
Qed.

Lemma insert_shares_accepted db l :
  (l ≠ [] → unique_address db = true) →
  (∀ s, In s l → fault (Insert_share On_conflict_do_nothing s) = false) →
  NoDup (map address l) →
  (∀ s, In s l → ¬ In (address s) (map address (shares db))) →
  insert_shares fault db l = (Return tt, with_shares db (shares db ++ l)).
Proof.
  intros Hu Hf Hnd Hnew. unfold insert_shares, execute_many.
  destruct l as [|s0 l0] eqn:E.
  - rewrite app_nil_r. by destruct db.
  - rewrite <- E in *. unfold transaction.
    rewrite execute_all_inserts_accepted; auto. apply Hu. rewrite E. discriminate.
Qed.

Lemma insert_shares_served db l db' :
  insert_shares fault db l = (Return tt, db') →
  (∀ s, In s l → fault (Insert_share On_conflict_do_nothing s) = false)
  ∧ (l ≠ [] → unique_address db = true).
Proof.
  unfold insert_shares, execute_many. destruct l as [|s0 l0] eqn:E.
  - intros _. split; [intros s []|congruence].
  - rewrite <- E. intros H. apply transaction_return in H.
    by apply execute_all_inserts_served in H.
Qed.

Lemma rows_updated_addresses l rows :
  map address (rows_updated l rows) = map address rows.
Proof.
  unfold rows_updated. rewrite map_map. apply map_ext. intros row.
  apply fold_update_address.
Qed.

Lemma fold_update_registered l row :
  (∀ s, In s l → registered s = None) →
  registered (fold_left update_row l row) = registered row.
Proof.
  revert row. induction l as [|s l IH]; intros row H; [reflexivity|].
  simpl. rewrite IH by (intros; apply H; simpl; auto).
  unfold update_row. destruct (bool_decide _); [|reflexivity].
  simpl. rewrite (H s) by (simpl; auto). reflexivity.
Qed.

Lemma fold_update_last_transaction l row ts :
  (∀ s, In s l → address s = address row → last_transaction s = ts) →
  (∃ s, In s l ∧ address s = address row) →
  last_transaction (fold_left update_row l row) = ts.
Proof.
  induction l as [|s l IH] using rev_ind; intros Hall (s0 & Hin & Ha); [destruct Hin|].
  rewrite fold_left_app. simpl. unfold update_row. rewrite fold_update_address.
  case_bool_decide as Hs.
  - simpl. apply Hall; [apply in_or_app; simpl; auto|congruence].
  - apply IH.
    + intros s' Hs'. apply Hall. apply in_or_app. auto.
    + apply in_app_or in Hin as [Hin|[<-|[]]]; [eauto|congruence].
Qed.

(** The writes of the [try] block when they are accepted. *)
Lemma write_shares_accepted db upd crt to_update to_create :
  mapM Share_of_data upd = Some to_update →
  mapM Share_of_data crt = Some to_create →
  (∀ s, In s to_update → fault (Update_share (fields_to_update s) (address s)) = false) →
  (∀ s, In s to_create → fault (Insert_share On_conflict_do_nothing s) = false) →
  (to_create ≠ [] → unique_address db = true) →
  NoDup (map address to_create) →
  (∀ s, In s to_create → ¬ In (address s) (map address (shares db))) →
  write_shares fault db upd crt
  = (Completed, with_shares db (rows_updated to_update (shares db) ++ to_create)).
Proof.
  intros Hu Hc Hfu Hfc Huniq Hnd Hnew. unfold write_shares.
  rewrite (write_with_spec (update_shares fault)) by reflexivity.
  rewrite Hu, update_shares_accepted by exact Hfu.
  rewrite (write_with_spec (insert_shares fault)) by reflexivity. rewrite Hc.
  rewrite insert_shares_accepted; [reflexivity|exact Huniq|exact Hfc|exact Hnd|].
  simpl. rewrite rows_updated_addresses. exact Hnew.
Qed.

Lemma write_shares_completed db upd crt db' :
  write_shares fault db upd crt = (Completed, db') → writes_accepted fault db upd crt.
Proof.
  unfold write_shares. rewrite (write_with_spec (update_shares fault)) by reflexivity.
  destruct (mapM Share_of_data upd) as [to_update|] eqn:Hmu; [|discriminate].
  destruct (update_shares fault db to_update) as [[[]|e] db1] eqn:E1; [|discriminate].
  rewrite (write_with_spec (insert_shares fault)) by reflexivity.
  destruct (mapM Share_of_data crt) as [to_create|] eqn:Hmc; [|discriminate].
  destruct (insert_shares fault db1 to_create) as [[[]|e] db2] eqn:E2; [|discriminate].
  intros _. exists to_update, to_create. split; [exact Hmu|]. split; [exact Hmc|].
  split; [by eapply update_shares_served|].
  apply insert_shares_served in E2 as [H1 H2]. split; [exact H1|].
  intros Hne. specialize (H2 Hne).
  pose proof (update_shares_result fault db to_update) as Hr. rewrite E1 in Hr.
  subst db1. exact H2.
Qed.

(** When the [try] block ends in its [except] branch, the rows are the
    stored rows, updated or not. *)
Lemma write_shares_error db upd crt db' :
  write_shares fault db upd crt = (Error_logged, db') →
  shares db' = shares db
  ∨ ∃ to_update, mapM Share_of_data upd = Some to_update
      ∧ shares db' = rows_updated to_update (shares db).
Proof.
  unfold write_shares. rewrite (write_with_spec (update_shares fault)) by reflexivity.
  destruct (mapM Share_of_data upd) as [to_update|]; [|intros [= <-]; auto].
  pose proof (update_shares_result fault db to_update) as Hr.
  destruct (update_shares fault db to_update) as [[[]|e] db1].
  - subst db1. rewrite (write_with_spec (insert_shares fault)) by reflexivity.
    destruct (mapM Share_of_data crt) as [to_create|].
    + pose proof (insert_shares_atomic fault
                    (with_shares db (rows_updated to_update (shares db))) to_create) as Ha.
      destruct (insert_shares fault _ to_create) as [[[]|e] db2]; [discriminate|].
      intros [= <-]. rewrite (Ha e db2 eq_refl). right. eauto.
    + intros [= <-]. right. eauto.
  - destruct Hr as [_ ->]. intros [= <-]. auto.
Qed.

Lemma NoDup_map_filter {A B} (f : A → B) (p : A → bool) (l : list A) :
  NoDup (map f l) → NoDup (map f (List.filter p l)).
Proof.
  induction l as [|x l IH]; simpl; [auto|]. intros H. apply NoDup_cons in H as [Hx Hl].
  destruct (p x); simpl; [|auto]. apply NoDup_cons. split; [|auto].
  rewrite list_elem_of_In in *. intros Hin. apply Hx.
  apply in_map_iff in Hin as (y & Hy & Hin). apply filter_In in Hin as [Hin _].
  apply in_map_iff. eauto.
Qed.

Lemma Forall2_compose {A B C} (P : A → B → Prop) (Q : B → C → Prop)
  (R : A → C → Prop) l k m :
  (∀ x y z, P x y → Q y z → R x z) → Forall2 P l k → Forall2 Q k m → Forall2 R l m.
Proof.
  intros H HP. revert m. induction HP as [|x y l k Hxy _ IH]; intros m HQ;
    inversion HQ; subst; constructor; eauto.
Qed.

End ReconcileWrites.

(** C6.  In a reconcile call whose balance reads succeed, the update list
    holds, in order, one dictionary for each representative trade whose
    subject is among the addresses fetched at the start, without a
    registration time, and the create list one for each representative trade
    whose subject is not, with the trade's timestamp as registration time.
    The call completes exactly when the dictionaries validate and the server
    accepts the statements of the two writes.  When it completes, every row
    stored before the call is still there, in place, with its address and
    its registration time, and with the timestamp of the representative
    trade of its subject as time of the last transaction; and after them
    comes one created row for each representative trade of a new subject, in
    order, registered at the trade's timestamp.  When it ends in the
    [except] branch, no row is created and every stored row keeps its
    address and its registration time. *)
Theorem C6_create_or_update (fault : Db.statement → bool)
  (get_balance : string → option Z) (db : Db.Database) (trades : list Trade)
  (upd crt : list share_data) :
  let existing := Db.get_all_share_addresses db in
  let reps := Utils.unique_most_recent_trades trades in
  let known := List.filter (fun t => bool_decide (subject t ∈ existing)) reps in
  let new := List.filter (fun t => bool_decide (subject t ∉ existing)) reps in
  let run := Utils.process_trades_to_shares fault get_balance db trades in
  Utils.classify get_balance existing reps [] [] = Some (upd, crt) →
  Forall2 update_data known upd
  ∧ Forall2 create_data new crt
  ∧ match run.1 with
    | Utils.Completed =>
        writes_accepted fault db upd crt
        ∧ ∃ rows created,
            Db.shares run.2 = rows ++ created
            ∧ Forall2 (updated_from reps) (Db.shares db) rows
            ∧ Forall2 created_from new created
    | Utils.Error_logged =>
        ¬ writes_accepted fault db upd crt
        ∧ Forall2 same_registration (Db.shares db) (Db.shares run.2)
    | Utils.Balance_read_raised => False
    end.
Proof.
  intros existing reps known new run Hc.
  destruct (classify_partition get_balance _ _ _ _ _ _ Hc) as (U & C & -> & -> & HU & HC).
  simpl in *. fold existing reps known new in HU, HC.
  split; [exact HU|]. split; [exact HC|].
  assert (run = Utils.write_shares fault db U C) as Hrun.
  { unfold run, Utils.process_trades_to_shares. fold existing reps. by rewrite Hc. }
  assert (∀ to_update, mapM Share_of_data U = Some to_update →
            ∀ s, In s to_update →
              registered s = None
              ∧ ∃ t, In t known ∧ address s = subject t
                     ∧ last_transaction s = timestamp t) as Hupd.
  { intros to_update Hm s Hs.
    destruct (mapM_Share_of_data _ _ Hm s Hs) as (d & Hd & Hds).
    apply Share_of_data_fields in Hds as (Ha & Hr & Hl).
    destruct (Forall2_in_r _ _ _ _ HU Hd) as (t & Ht & Hat & Hrt & Hlt).
    split; [congruence|]. exists t. split; [exact Ht|]. split; congruence. }
  assert (∀ to_create, mapM Share_of_data C = Some to_create →
            Forall2 created_from new to_create) as Hcrt.
  { intros to_create Hm. apply mapM_Some in Hm.
    eapply Forall2_compose; [|exact HC|exact Hm].
    intros t d s (Hat & Hrt & Hlt) Hds.
    apply Share_of_data_fields in Hds as (Ha & Hr & Hl).
    repeat split; congruence. }
  assert (NoDup (map subject reps)) as Hnd by apply representatives_distinct.
  assert (∀ to_create, Forall2 created_from new to_create →
            NoDup (map address to_create)
            ∧ ∀ s, In s to_create → ¬ In (address s) (map address (Db.shares db)))
    as Hnew.
  { intros to_create HF. split.
    - replace (map address to_create) with (map subject new).
      + by apply NoDup_map_filter.
      + clear -HF. induction HF as [|t s l k (Ha & _) _ IH]; simpl; congruence.
    - intros s Hs Hin. destruct (Forall2_in_r _ _ _ _ HF Hs) as (t & Ht & Ha & _).
      apply filter_In in Ht as [_ Ht]. apply bool_decide_eq_true in Ht. apply Ht.
      unfold existing, Db.get_all_share_addresses.
      apply elem_of_list_to_set, list_elem_of_In. congruence. }
  assert (∀ to_update, mapM Share_of_data U = Some to_update →
            Forall2 (updated_from reps) (Db.shares db)
                    (rows_updated to_update (Db.shares db))) as Hrows.
  { intros to_update Hm. unfold rows_updated. apply Forall2_fmap_r, Forall_Forall2_diag.
    apply Forall_forall. intros row0 Hrow0. apply list_elem_of_In in Hrow0.
    split; [apply fold_update_address|]. split.
    - apply fold_update_registered. intros s Hs. by apply (Hupd to_update Hm).
    - intros t Ht Hsub.
      assert (In t known) as Hk.
      { apply filter_In. split; [exact Ht|]. apply bool_decide_eq_true.
        unfold existing, Db.get_all_share_addresses.
        apply elem_of_list_to_set, list_elem_of_In. rewrite Hsub. by apply in_map. }
      apply fold_update_last_transaction.
      + intros s Hs Ha. destruct (Hupd to_update Hm s Hs) as (_ & t' & Ht' & Hat' & Hlt').
        apply filter_In in Ht' as [Ht' _].
        assert (t' = t) as -> by (apply (NoDup_map_inj subject reps); auto; congruence).
        exact Hlt'.
      + destruct (Forall2_in_l _ _ _ _ HU Hk) as (d & Hd & Had & _).
        apply mapM_Some in Hm. destruct (Forall2_in_l _ _ _ _ Hm Hd) as (s & Hs & Hds).
        apply Share_of_data_fields in Hds as (Ha & _). exists s. split; [exact Hs|].
        congruence. }
  destruct run as [out db'] eqn:E. simpl. symmetry in Hrun. destruct out.
  - pose proof (write_shares_completed fault db U C db' Hrun) as Hacc.
    split; [exact Hacc|].
    destruct Hacc as (to_update & to_create & Hmu & Hmc & Hfu & Hfc & Huniq).
    specialize (Hcrt to_create Hmc). destruct (Hnew to_create Hcrt) as [Hnd' Hnot].
    rewrite (write_shares_accepted fault db U C to_update to_create) in Hrun by assumption.
    injection Hrun as <-. exists (rows_updated to_update (Db.shares db)), to_create.
    split; [reflexivity|]. split; [by apply Hrows|exact Hcrt].
  - pose proof (write_shares_outcome fault db U C) as H. rewrite Hrun in H. by apply H.
  - split.
    + intros (to_update & to_create & Hmu & Hmc & Hfu & Hfc & Huniq).
      specialize (Hcrt to_create Hmc). destruct (Hnew to_create Hcrt) as [Hnd' Hnot].
      rewrite (write_shares_accepted fault db U C to_update to_create) in Hrun by assumption.
      discriminate.
    + apply write_shares_error in Hrun as [->|(to_update & Hm & ->)].
      * apply Forall_Forall2_diag, Forall_forall. intros; split; reflexivity.
      * eapply Forall2_impl; [by apply Hrows|]. intros row0 row (Ha & Hr & _). by split.
Qed.

Lemma C6_create_or_update_witness :
  Utils.classify sample_balances (Db.get_all_share_addresses (sample_db true))
    (Utils.unique_most_recent_trades sample_batch) [] []
  = Some (sample_classified.1, sample_classified.2)
  ∧ let run := Utils.process_trades_to_shares no_fault sample_balances
                 (sample_db true) sample_batch in
    run.1 = Utils.Completed
    ∧ writes_accepted no_fault (sample_db true) sample_classified.1 sample_classified.2
    ∧ ∃ rows created,
        Db.shares run.2 = rows ++ created
        ∧ Forall2 (updated_from (Utils.unique_most_recent_trades sample_batch))
                  (Db.shares (sample_db true)) rows
        ∧ Forall2 created_from [sample_trade_of x03 x0b 40] created.
Proof.
  assert (Utils.classify sample_balances (Db.get_all_share_addresses (sample_db true))
            (Utils.unique_most_recent_trades sample_batch) [] []
          = Some (sample_classified.1, sample_classified.2)) as H.
  { vm_compute. reflexivity. }
  split; [exact H|].
  assert ((Utils.process_trades_to_shares no_fault sample_balances
             (sample_db true) sample_batch).1 = Utils.Completed) as Hout.
  { vm_compute. reflexivity. }
  intros run. split; [exact Hout|].
  pose proof (C6_create_or_update no_fault sample_balances (sample_db true)
                sample_batch _ _ H) as (_ & _ & Hrun).
  rewrite Hout in Hrun. exact Hrun.
Defined.

(** The reconcile call on the sample batch: the stored subject is updated
    and keeps its registration time 5; the new subject is created with the
    timestamp 40 of its trade. *)
Example reconcile_sample :
  let result := Utils.process_trades_to_shares no_fault sample_balances
                  (sample_db true) sample_batch in
  result.1 = Utils.Completed
  ∧ map (fun r => (address r, registered r, last_transaction r)) (Db.shares result.2)
    = [([x01], Some 5, 30); ([x02], Some 6, 10); ([x03], Some 40, 40)].
Proof. vm_compute. split; reflexivity. Qed.

(** ** The endpoint selector *)

Section Selector.
Import Py Scanner.

Lemma in_insert_by_key x y l : In x (insert_by_key y l) ↔ x = y ∨ In x l.
Proof.
  induction l as [|z l IH]; simpl; [intuition congruence|].
  destruct (key_lt (fst z) (fst y)); simpl; rewrite ?IH; intuition congruence.
Qed.

Lemma in_sorted x l : In x (sorted l) ↔ In x l.
Proof.
  induction l as [|y l IH]; simpl; [tauto|].
  rewrite in_insert_by_key, IH. intuition congruence.
Qed.

Lemma keyed_total self t l :
  (∀ rpc, In rpc l → is_Some (last_selected self !! rpc)) →
  ∃ keyed, mapM (fun rpc => key ← key_of self t rpc; Some (key, rpc)) l = Some keyed
           ∧ map snd keyed = l.
Proof.
  induction l as [|rpc l IH]; intros H.
  - exists []. split; reflexivity.
  - destruct IH as (keyed & Hk & Hs); [intros; apply H; simpl; auto|].
    destruct (H rpc) as [sel Hsel]; [simpl; auto|].
    eexists (_ :: keyed). rewrite mapM_Some. split.
    + constructor; [|by apply mapM_Some].
      unfold key_of. rewrite Hsel. simpl. reflexivity.
    + simpl. by rewrite Hs.
Qed.

Lemma select_total self t :
  selectable self →
  ∃ rpc, select self t = Return (rpc, set_selected self rpc t) ∧ In rpc (rpcs self).
Proof.
  intros [Hne Hsel]. unfold select.
  destruct (keyed_total self t (rpcs self) Hsel) as (keyed & -> & Hs).
  destruct (sorted keyed) as [|[k rpc] rest] eqn:E.
  - exfalso. destruct keyed as [|x keyed]; [simpl in Hs; congruence|].
    assert (In x (sorted (x :: keyed))) as Hin by (apply in_sorted; simpl; auto).
    rewrite E in Hin. destruct Hin.
  - exists rpc. split; [reflexivity|]. rewrite <- Hs.
    apply in_map_iff. exists (k, rpc). split; [reflexivity|].
    apply in_sorted. rewrite E. simpl. auto.
Qed.

Lemma set_selected_selectable self rpc t :
  selectable self → selectable (set_selected self rpc t).
Proof.
  intros [Hne Hsel]. split; [exact Hne|]. simpl. intros r Hr.
  destruct (decide (rpc = r)) as [->|Hd].
  - rewrite lookup_insert_eq. eauto.
  - rewrite lookup_insert_ne by exact Hd. auto.
Qed.

Lemma record_backoff_selectable self rpc t :
  selectable self → selectable (record_backoff self rpc t).
Proof. intros H. exact H. Qed.

Lemma init_selectable rpcs_ a s : rpcs_ ≠ [] → selectable (init rpcs_ a s).
Proof.
  intros Hne. split; [exact Hne|]. simpl. intros rpc Hin.
  apply not_eq_None_Some. intros Hnone.
  apply not_elem_of_list_to_map in Hnone. apply Hnone.
  apply list_elem_of_In. rewrite <- list_fmap_compose.
  apply in_map_iff. exists rpc. split; [reflexivity|exact Hin].
Qed.

End Selector.

(** ** Decoding *)

Section Decoding.
Import Py Scanner.

Variable chain : Chain.

Lemma decode_logs_spec signature timestamp logs trades st :
  decode_logs chain signature timestamp logs trades st
  = (logs_result chain signature timestamp logs trades,
     add_logged st (validation_log (logs_result chain signature timestamp logs trades))).
Proof.
  assert (∀ s : State, s = add_logged s []) as Hnil.
  { intros [sc tk lg]. unfold add_logged. simpl. by rewrite app_nil_r. }
  revert trades. induction logs as [|log rest IH]; intros trades;
    cbn [decode_logs logs_result].
  - unfold ret. simpl. f_equal. apply Hnil.
  - destruct (topics log) as [|topic0 ?]; [unfold raise; f_equal; apply Hnil|].
    destruct (String.eqb (to_hex topic0) signature); [|apply IH].
    destruct (process_log chain log) as [ev|]; [|unfold raise; f_equal; apply Hnil].
    destruct (Trade_model_validate _) as [trade|]; [apply IH|].
    reflexivity.
Qed.

Lemma count_log_app p l1 l2 : count_log p (l1 ++ l2) = (count_log p l1 + count_log p l2)%nat.
Proof. unfold count_log. by rewrite List.filter_app, length_app. Qed.

(** One attempt, given the endpoint selected and the receipt it serves. *)
Lemma decode_once_spec transaction timestamp st rpc self' r :
  select (scanner st) (clock chain (tick st)) = Return (rpc, self') →
  eth_get_transaction_receipt chain (S (tick st)) rpc (tx_hash transaction) = Some r →
  let res := receipt_result chain (event_signature_hash self') timestamp r in
  decode_trade_events_once chain transaction timestamp st
  = (res,
     match res with
     | Return _ => {| scanner := self'; tick := S (S (tick st)); logged := logged st |}
     | Raise e =>
         {| scanner := record_backoff self' rpc (clock chain (S (S (tick st))));
            tick := S (S (S (tick st)));
            logged := (logged st ++ validation_log res)
                        ++ [Failed_to_decode (tx_hash transaction) e] |}
     end).
Proof.
  intros Hsel Hr res.
  unfold decode_trade_events_once, _get_w3, bind, time, try_except, call. simpl.
  rewrite Hsel. simpl. rewrite Hr. simpl. subst res. unfold receipt_result.
  destruct (status r =? 1).
  - rewrite decode_logs_spec. simpl.
    destruct (logs_result _ _ _ _) as [l|e]; simpl.
    + unfold add_logged. simpl. by rewrite app_nil_r.
    + reflexivity.
  - reflexivity.
Qed.

(** A receipt with a status other than 1 decodes to no trade. *)
Lemma receipt_result_reverted signature timestamp r :
  status r ≠ 1 → receipt_result chain signature timestamp r = Return [].
Proof.
  intros H. unfold receipt_result. destruct (Z.eqb_spec (status r) 1); [contradiction|].
  reflexivity.
Qed.

Lemma retry_return {A} (target : M A) n st a st' :
  target st = (Return a, st') → retry n target st = (Return a, st').
Proof. intros H. destruct n; simpl; rewrite H; reflexivity. Qed.

Lemma retry_return_inv {A} (target : M A) (P : A → Prop) :
  (∀ st a st', target st = (Return a, st') → P a) →
  ∀ n st a st', retry n target st = (Return a, st') → P a.
Proof.
  intros H. induction n as [|n IH]; intros st a st'; simpl;
    destruct (target st) as [[a0|e] st0] eqn:E.
  - intros [= <- <-]. eauto.
  - discriminate.
  - intros [= <- <-]. eauto.
  - apply IH.
Qed.

(** A target that raises [e] in every state of an invariant, adding [d] to a
    measure at each call, raises [e] after all its calls. *)
Lemma retry_always_raises {A} (target : M A) (I : State → Prop) (m : State → nat) e d :
  (∀ st, I st → ∃ st', target st = (Raise e, st') ∧ I st' ∧ m st' = (m st + d)%nat) →
  ∀ n st, I st →
    ∃ st', retry n target st = (Raise e, st') ∧ I st' ∧ m st' = (m st + S n * d)%nat.
Proof.
  intros H. induction n as [|n IH]; intros st Hst; simpl;
    destruct (H st Hst) as (st1 & -> & H1 & Hm).
  - exists st1. repeat split; auto. lia.
  - destruct (IH st1 H1) as (st2 & -> & H2 & Hm2).
    exists st2. repeat split; auto. lia.
Qed.

Lemma max_tries_calls : S (N.to_nat max_tries - 1) = N.to_nat max_tries.
Proof. unfold max_tries. lia. Qed.

End Decoding.

Section DecodingAttempts.
Import Py Scanner.

Variable chain : Chain.

(** An attempt that returns has selected an endpoint and fetched a receipt,
    and returns what the receipt decodes to. *)
Lemma decode_once_return transaction timestamp st trades st' :
  decode_trade_events_once chain transaction timestamp st = (Return trades, st') →
  ∃ rpc self' r,
    select (scanner st) (clock chain (tick st)) = Return (rpc, self')
    ∧ eth_get_transaction_receipt chain (S (tick st)) rpc (tx_hash transaction) = Some r
    ∧ receipt_result chain (event_signature_hash self') timestamp r = Return trades.
Proof.
  destruct (select (scanner st) (clock chain (tick st))) as [[rpc self']|e] eqn:Hsel.
  - destruct (eth_get_transaction_receipt chain (S (tick st)) rpc (tx_hash transaction))
      as [r|] eqn:Hr.
    + rewrite (decode_once_spec chain _ timestamp _ _ _ _ Hsel Hr).
      intros [= Hres _]. exists rpc, self', r. auto.
    + unfold decode_trade_events_once, _get_w3, bind, time, try_except, call. simpl.
      rewrite Hsel. simpl. rewrite Hr. simpl. discriminate.
  - unfold decode_trade_events_once, _get_w3, bind, time. simpl.
    rewrite Hsel. discriminate.
Qed.

End DecodingAttempts.

(** On a successful receipt the log decodes to a trade. *)
Example decode_successful_receipt :
  (Scanner._decode_trade_events (sample_chain 1 "0x02") sample_transaction 77 sample_state).1
  = Py.Return [sample_trade_of x01 x0a 77].
Proof. vm_compute. reflexivity. Qed.

(** C10.  When every receipt served for a transaction has a status other
    than 1, [_decode_trade_events] returns no trade: whatever it returns is
    the empty list, and it returns the empty list at once when the first
    attempt selects an endpoint and is served a receipt. *)
Theorem C10_reverted_transaction_yields_no_trade (chain : Scanner.Chain)
  (transaction : Scanner.Transaction) (timestamp : Z) (st : Scanner.State) :
  (∀ k rpc r,
     Scanner.eth_get_transaction_receipt chain k rpc (Scanner.tx_hash transaction) = Some r →
     Scanner.status r ≠ 1) →
  (∀ trades st',
     Scanner._decode_trade_events chain transaction timestamp st = (Py.Return trades, st') →
     trades = [])
  ∧ (∀ rpc self' r,
       Scanner.select (Scanner.scanner st) (Scanner.clock chain (Scanner.tick st))
       = Py.Return (rpc, self') →
       Scanner.eth_get_transaction_receipt chain (S (Scanner.tick st)) rpc
         (Scanner.tx_hash transaction) = Some r →
       (Scanner._decode_trade_events chain transaction timestamp st).1 = Py.Return []).
Proof.
  intros Hrev. split.
  - intros trades st'. unfold Scanner._decode_trade_events, Scanner.on_exception.
    apply (retry_return_inv _ (fun trades => trades = [])).
    intros st0 a st1 H. apply decode_once_return in H as (rpc & self' & r & _ & Hr & Hres).
    rewrite receipt_result_reverted in Hres by eauto. congruence.
  - intros rpc self' r Hsel Hr.
    unfold Scanner._decode_trade_events, Scanner.on_exception.
    pose proof (decode_once_spec chain transaction timestamp st rpc self' r Hsel Hr) as H.
    rewrite receipt_result_reverted in H by eauto. simpl in H.
    erewrite retry_return; [|exact H]. reflexivity.
Qed.

Lemma C10_reverted_transaction_yields_no_trade_witness :
  (∀ k rpc r,
     Scanner.eth_get_transaction_receipt (sample_chain 0 "0x02") k rpc
       (Scanner.tx_hash sample_transaction) = Some r →
     Scanner.status r ≠ 1)
  ∧ ∀ trades st',
      Scanner._decode_trade_events (sample_chain 0 "0x02") sample_transaction 77 sample_state
      = (Py.Return trades, st') →
      trades = [].
Proof.
  assert (∀ k rpc r,
            Scanner.eth_get_transaction_receipt (sample_chain 0 "0x02") k rpc
              (Scanner.tx_hash sample_transaction) = Some r →
            Scanner.status r ≠ 1) as H.
  { intros k rpc r. simpl. intros [= <-]. simpl. lia. }
  split; [exact H|].
  exact (proj1 (C10_reverted_transaction_yields_no_trade (sample_chain 0 "0x02")
                  sample_transaction 77 sample_state H)).
Defined.

(** ** Decoding on a chain that answers every read *)

Section StableChain.
Import Py Scanner.

Variable chain : Chain.

Lemma decode_once_stable cfg dropped transaction timestamp r st :
  decode_inv cfg dropped st →
  (∀ k rpc, eth_get_transaction_receipt chain k rpc (tx_hash transaction) = Some r) →
  let res := receipt_result chain cfg.1.2 timestamp r in
  ∃ st', decode_trade_events_once chain transaction timestamp st = (res, st')
    ∧ decode_inv cfg dropped st'
    ∧ validation_errors st'
      = (validation_errors st + if is_validation_failure res then 1 else 0)%nat.
Proof.
  intros (Hsel & Hcfg & Hdrop) Hr res.
  destruct (select_total (scanner st) (clock chain (tick st)) Hsel) as (rpc & Hs & _).
  pose proof (decode_once_spec chain transaction timestamp st rpc _ r Hs (Hr _ _)) as H.
  simpl in H.
  assert (event_signature_hash (scanner st) = cfg.1.2) as Hsig by (rewrite <- Hcfg; reflexivity).
  rewrite Hsig in H. fold res in H. rewrite H. clear H.
  unfold validation_errors, decode_inv.
  destruct res as [l|e]; eexists; (split; [reflexivity|]); simpl.
  - split; [|lia]. split; [by apply set_selected_selectable|]. split; [exact Hcfg|exact Hdrop].
  - split.
    + split; [by apply set_selected_selectable|]. split; [exact Hcfg|].
      rewrite !count_log_app, Hdrop. destruct e; unfold count_log; simpl; lia.
    + rewrite !count_log_app. destruct e; unfold count_log; simpl; lia.
Qed.

(** The decode of a transaction, with its retries: a receipt that decodes
    is decoded at the first call; a receipt on which the decode raises is
    decoded [max_tries] times, and then the exception is raised. *)
Lemma decode_stable cfg dropped transaction timestamp r st :
  decode_inv cfg dropped st →
  (∀ k rpc, eth_get_transaction_receipt chain k rpc (tx_hash transaction) = Some r) →
  let res := receipt_result chain cfg.1.2 timestamp r in
  ∃ st', _decode_trade_events chain transaction timestamp st = (res, st')
    ∧ decode_inv cfg dropped st'
    ∧ validation_errors st'
      = (validation_errors st
         + if is_validation_failure res then N.to_nat max_tries else 0)%nat.
Proof.
  intros Hinv Hr res. unfold _decode_trade_events, on_exception.
  destruct res as [l|e] eqn:Hres.
  - destruct (decode_once_stable cfg dropped transaction timestamp r st Hinv Hr)
      as (st' & H & Hinv' & Hcount).
    fold res in H, Hcount. rewrite Hres in H, Hcount.
    exists st'. split; [by apply retry_return|]. split; [exact Hinv'|].
    simpl in *. lia.
  - destruct (retry_always_raises
                (decode_trade_events_once chain transaction timestamp)
                (decode_inv cfg dropped) validation_errors e
                (if is_validation_failure (Raise e : result exn (list Trade)) then 1 else 0)%nat)
      with (n := (N.to_nat max_tries - 1)%nat) (st := st)
      as (st' & H & Hinv' & Hcount); [|exact Hinv|].
    + intros st0 Hinv0.
      destruct (decode_once_stable cfg dropped transaction timestamp r st0 Hinv0 Hr)
        as (st1 & H & Hinv1 & Hcount).
      fold res in H, Hcount. rewrite Hres in H, Hcount. eauto.
    + exists st'. split; [exact H|]. split; [exact Hinv'|].
      rewrite Hcount, max_tries_calls. generalize (N.to_nat max_tries). intros n.
      destruct (is_validation_failure (Raise e : result exn (list Trade))); lia.
Qed.

Lemma collect_spec results trades st :
  ∃ st', collect results trades st = (Return (trades ++ returned_trades results), st')
    ∧ scanner st' = scanner st
    ∧ validation_errors st' = validation_errors st
    ∧ count_log is_dropped_for_validation (logged st')
      = (count_log is_dropped_for_validation (logged st)
         + length (List.filter is_validation_failure results))%nat.
Proof.
  revert trades st. induction results as [|[l|e] results IH]; intros trades st.
  - exists st. simpl. unfold ret. rewrite app_nil_r. repeat split; try reflexivity; lia.
  - destruct (IH (trades ++ l) st) as (st' & H & Hs & Hv & Hd).
    exists st'. simpl. rewrite H, <- app_assoc. repeat split; auto.
  - destruct (IH trades (add_logged st [Error_during_decoding e])) as (st' & H & Hs & Hv & Hd).
    exists st'. cbn [collect]. unfold bind, logger_error.
    unfold add_logged in H. rewrite H. split; [reflexivity|]. split; [exact Hs|].
    unfold validation_errors in *. simpl in Hv, Hd. rewrite count_log_app in Hv, Hd.
    split; [unfold count_log in *; simpl in *; lia|].
    rewrite Hd. destruct e; unfold count_log; simpl; lia.
Qed.

End StableChain.

(** ** The decode of a transaction that fails validation *)

Section ValidationFailure.
Import Py Scanner.

Variable chain : Chain.

(** The invariant and the exceptions of a target are those of its
    retries. *)
Lemma retry_invariant {A} (target : M A) (I : State → Prop) (E : exn → Prop) :
  (∀ st, I st → I (target st).2 ∧ ∀ e, (target st).1 = Raise e → E e) →
  ∀ n st, I st → I (retry n target st).2 ∧ ∀ e, (retry n target st).1 = Raise e → E e.
Proof.
  intros H. induction n as [|n IH]; intros st Hst; simpl;
    destruct (H st Hst) as [H1 H2]; destruct (target st) as [[a|e] st1]; simpl in *.
  - split; [exact H1|discriminate].
  - split; [exact H1|exact H2].
  - split; [exact H1|discriminate].
  - by apply IH.
Qed.

Lemma select_config self t rpc self' :
  select self t = Return (rpc, self') → config self' = config self.
Proof.
  unfold select. destruct (mapM _ _) as [keyed|]; [|discriminate].
  destruct (sorted keyed) as [|[k r] rest]; [discriminate|].
  intros [= <- <-]. reflexivity.
Qed.

(** No attempt at a decode changes the configuration of the scanner. *)
Lemma decode_once_config transaction timestamp st :
  config (scanner (decode_trade_events_once chain transaction timestamp st).2)
  = config (scanner st).
Proof.
  unfold decode_trade_events_once, _get_w3, bind, time, try_except, call. simpl.
  destruct (select (scanner st) (clock chain (tick st))) as [[rpc self']|e] eqn:Hsel;
    simpl; [|reflexivity].
  apply select_config in Hsel.
  destruct (eth_get_transaction_receipt chain (S (tick st)) rpc (tx_hash transaction))
    as [r|]; simpl; [|exact Hsel].
  destruct (status r =? 1); [|exact Hsel].
  rewrite decode_logs_spec. simpl.
  destruct (logs_result chain _ _ _ _); simpl; exact Hsel.
Qed.

Lemma failures_recorded_backoff self rpc t :
  failures_recorded (record_backoff self rpc t) = S (failures_recorded self).
Proof.
  unfold failures_recorded. simpl.
  destruct (backoff_times self !! rpc) as [l|] eqn:E; simpl.
  - rewrite <- insert_delete_eq.
    rewrite map_fold_insert_L; [|intros; lia|apply lookup_delete_eq].
    rewrite (map_fold_delete_L _ _ rpc l (backoff_times self)); [|intros; lia|exact E].
    rewrite length_app. simpl. lia.
  - rewrite map_fold_insert_L; [|intros; lia|exact E]. reflexivity.
Qed.

Lemma requests_counted_selected self rpc t :
  requests_counted (set_selected self rpc t) = requests_counted self + 1.
Proof.
  unfold requests_counted. simpl.
  destruct (requests_counter self !! rpc) as [c|] eqn:E; simpl.
  - rewrite <- insert_delete_eq.
    rewrite map_fold_insert_L; [|intros; lia|apply lookup_delete_eq].
    rewrite (map_fold_delete_L _ _ rpc c (requests_counter self)); [|intros; lia|exact E].
    unfold requests. rewrite E. simpl. lia.
  - rewrite map_fold_insert_L; [|intros; lia|exact E]. unfold requests. rewrite E. simpl. lia.
Qed.

Lemma failures_recorded_selected self rpc t :
  failures_recorded (set_selected self rpc t) = failures_recorded self.
Proof. reflexivity. Qed.

Lemma requests_counted_backoff self rpc t :
  requests_counted (record_backoff self rpc t) = requests_counted self.
Proof. reflexivity. Qed.

Lemma filter_once_ready st0 block_number st :
  ready_as st0 st →
  ready_as st0 (filter_transactions_once chain block_number st).2
  ∧ ∀ e, (filter_transactions_once chain block_number st).1 = Raise e → e = RpcError.
Proof.
  intros [Hsel Hcfg].
  destruct (select_total (scanner st) (clock chain (tick st)) Hsel) as (rpc & Hs & _).
  unfold filter_transactions_once, _get_w3, bind, time, try_except, call. simpl.
  rewrite Hs. simpl.
  destruct (eth_get_block chain (S (tick st)) rpc block_number) as [block|]; simpl.
  - split; [|discriminate]. split; [by apply set_selected_selectable|exact Hcfg].
  - split; [|intros e [= <-]; reflexivity].
    split; [by apply set_selected_selectable|exact Hcfg].
Qed.

Lemma decode_once_ready st0 transaction timestamp st :
  ready_as st0 st →
  ready_as st0 (decode_trade_events_once chain transaction timestamp st).2.
Proof.
  intros [Hsel Hcfg]. split; [|by rewrite decode_once_config].
  destruct (select_total (scanner st) (clock chain (tick st)) Hsel) as (rpc & Hs & _).
  unfold decode_trade_events_once, _get_w3, bind, time, try_except, call. simpl.
  rewrite Hs. simpl.
  destruct (eth_get_transaction_receipt chain (S (tick st)) rpc (tx_hash transaction))
    as [r|]; simpl; [|by apply set_selected_selectable].
  destruct (status r =? 1); [|by apply set_selected_selectable].
  rewrite decode_logs_spec. simpl.
  destruct (logs_result chain _ _ _ _); simpl; by apply set_selected_selectable.
Qed.

(** A receipt on which the decode raises the validation error has status 1
    and holds a log whose first topic is the event signature, which the ABI
    decoder decodes and [Trade.model_validate] refuses. *)
Lemma logs_result_validation_error signature timestamp logs trades :
  logs_result chain signature timestamp logs trades = Raise ValidationError →
  ∃ log topic0 others decoded_event,
    In log logs ∧ topics log = topic0 :: others ∧ to_hex topic0 = signature
    ∧ process_log chain log = Some decoded_event
    ∧ Trade_model_validate (trade_data_of decoded_event timestamp) = None.
Proof.
  revert trades. induction logs as [|log rest IH]; intros trades; cbn [logs_result];
    [discriminate|].
  destruct (topics log) as [|topic0 others] eqn:Et; [discriminate|].
  destruct (String.eqb (to_hex topic0) signature) eqn:Es.
  - destruct (process_log chain log) as [ev|] eqn:Ep; [|discriminate].
    destruct (Trade_model_validate _) as [trade|] eqn:Ev.
    + intros H. apply IH in H as (l & t0 & o & ev' & Hin & H).
      exists l, t0, o, ev'. split; [simpl; auto|exact H].
    + intros _. exists log, topic0, others, ev. apply String.eqb_eq in Es.
      split; [simpl; auto|]. split; [exact Et|]. split; [exact Es|]. split; [exact Ep|exact Ev].
  - intros H. apply IH in H as (l & t0 & o & ev' & Hin & H).
    exists l, t0, o, ev'. split; [simpl; auto|exact H].
Qed.

Lemma receipt_result_validation_error signature timestamp r :
  receipt_result chain signature timestamp r = Raise ValidationError →
  status r = 1
  ∧ ∃ log topic0 others decoded_event,
      In log (logs r) ∧ topics log = topic0 :: others ∧ to_hex topic0 = signature
      ∧ process_log chain log = Some decoded_event
      ∧ Trade_model_validate (trade_data_of decoded_event timestamp) = None.
Proof.
  unfold receipt_result. destruct (Z.eqb_spec (status r) 1) as [Hs|Hs]; [|discriminate].
  intros H. split; [exact Hs|]. by apply logs_result_validation_error in H.
Qed.

(** A target that raises [e] at every call, from a state of an invariant
    indexed by the calls made, raises [e] after all its calls. *)
Lemma retry_raises_each_time {A} (target : M A) (I : nat → State → Prop) e :
  (∀ i st, I i st → ∃ st', target st = (Raise e, st') ∧ I (S i) st') →
  ∀ n i st, I i st → ∃ st', retry n target st = (Raise e, st') ∧ I (i + S n)%nat st'.
Proof.
  intros H. induction n as [|n IH]; intros i st Hst; simpl;
    destruct (H i st Hst) as (st1 & -> & H1).
  - exists st1. split; [reflexivity|]. by replace (i + 1)%nat with (S i) by lia.
  - destruct (IH (S i) st1 H1) as (st2 & -> & H2).
    exists st2. split; [reflexivity|]. by replace (i + S (S n))%nat with (S i + S n)%nat by lia.
Qed.

Lemma concat_repeat_S {A} (l : list A) n :
  concat (repeat l (S n)) = concat (repeat l n) ++ l.
Proof.
  change (repeat l (S n)) with (l :: repeat l n).
  rewrite repeat_cons, concat_app. simpl. by rewrite app_nil_r.
Qed.

Lemma failures_against_backoff self rpc t r :
  failures_against (record_backoff self rpc t) r
  = failures_against self r + (if bool_decide (r = rpc) then 1 else 0).
Proof.
  unfold failures_against. simpl. case_bool_decide as H.
  - subst r. rewrite lookup_insert_eq. simpl. rewrite length_app. simpl. lia.
  - rewrite lookup_insert_ne by congruence. lia.
Qed.

Lemma requests_selected self rpc t r :
  requests (set_selected self rpc t) r
  = requests self r + (if bool_decide (r = rpc) then 1 else 0).
Proof.
  unfold requests. simpl. case_bool_decide as H.
  - subst r. rewrite lookup_insert_eq. reflexivity.
  - rewrite lookup_insert_ne by congruence. lia.
Qed.

Lemma after_attempts_none tx s : selectable (scanner s) → after_attempts tx s 0 s.
Proof.
  intros Hsel. split; [split; [exact Hsel|reflexivity]|]. split; [lia|].
  split; [simpl; by rewrite app_nil_r|]. split; [lia|]. split; [lia|]. intros rpc. lia.
Qed.

(** One attempt at the decode of a transaction that fails validation. *)
Lemma decode_once_fails_validation tx timestamp s0 i s :
  after_attempts tx s0 i s →
  fails_validation chain (event_signature_hash (scanner s0)) timestamp tx →
  ∃ s', decode_trade_events_once chain tx timestamp s = (Raise ValidationError, s')
    ∧ after_attempts tx s0 (S i) s'.
Proof.
  intros ((Hsel & Hcfg) & Htick & Hlog & Hfail & Hreq & Hper) Hv.
  destruct (select_total (scanner s) (clock chain (tick s)) Hsel) as (rpc & Hs & _).
  destruct (Hv (S (tick s)) rpc) as (r & Hr & Hres).
  pose proof (decode_once_spec chain tx timestamp s rpc _ r Hs Hr) as H.
  assert (event_signature_hash (set_selected (scanner s) rpc (clock chain (tick s)))
          = event_signature_hash (scanner s0)) as Hsig.
  { unfold config in Hcfg. simpl. congruence. }
  cbv zeta in H. rewrite Hsig, Hres in H. rewrite H. clear H.
  eexists. split; [reflexivity|].
  split; [split; [by apply set_selected_selectable|exact Hcfg]|].
  cbn [tick logged scanner validation_log].
  split; [lia|]. split.
  { rewrite Hlog, concat_repeat_S, <- !app_assoc. reflexivity. }
  rewrite failures_recorded_backoff, requests_counted_backoff,
    failures_recorded_selected, requests_counted_selected.
  split; [lia|]. split; [lia|].
  intros r0. rewrite failures_against_backoff.
  change (requests (record_backoff ?x _ _) r0) with (requests x r0).
  rewrite requests_selected.
  change (failures_against (set_selected ?x _ _) r0) with (failures_against x r0).
  specialize (Hper r0). lia.
Qed.

(** The decode of a transaction that fails validation, with its retries. *)
Lemma decode_fails_validation tx timestamp st s :
  ready_as st s →
  fails_validation chain (event_signature_hash (scanner st)) timestamp tx →
  ∃ s', _decode_trade_events chain tx timestamp s = (Raise ValidationError, s')
    ∧ after_attempts tx s (N.to_nat max_tries) s'.
Proof.
  intros [Hsel Hcfg] Hv. unfold _decode_trade_events, on_exception.
  assert (event_signature_hash (scanner st) = event_signature_hash (scanner s)) as Hsig.
  { unfold config in Hcfg. congruence. }
  rewrite Hsig in Hv.
  destruct (retry_raises_each_time (decode_trade_events_once chain tx timestamp)
              (after_attempts tx s) ValidationError) with
      (n := (N.to_nat max_tries - 1)%nat) (i := 0%nat) (st := s) as (s' & H & Hs').
  - intros i s1 H1. by apply decode_once_fails_validation.
  - by apply after_attempts_none.
  - exists s'. split; [exact H|]. rewrite Nat.add_0_l, max_tries_calls in Hs'. exact Hs'.
Qed.

(** A decode leaves a scanner that can select, with its configuration. *)
Lemma decode_ready tx timestamp st s :
  ready_as st s → ready_as st (_decode_trade_events chain tx timestamp s).2.
Proof.
  intros Hs. unfold _decode_trade_events, on_exception.
  apply (retry_invariant (decode_trade_events_once chain tx timestamp) (ready_as st)
           (fun _ => True)); [|exact Hs].
  intros s' Hs'. split; [by apply decode_once_ready|auto].
Qed.

(** The decodes of the transactions of a block, gathered: no exception
    leaves the [gather], and a transaction that fails validation has the
    validation error as its result. *)
Lemma gather_decodes timestamp txs st s :
  ready_as st s →
  ∃ results s2,
    gather (map (fun tx => _decode_trade_events chain tx timestamp) txs) s
    = (Return results, s2)
    ∧ ready_as st s2
    ∧ Forall2 (fun tx res =>
                 fails_validation chain (event_signature_hash (scanner st)) timestamp tx →
                 res = Raise ValidationError)
              txs results.
Proof.
  revert s. induction txs as [|tx txs IH]; intros s Hs.
  - exists [], s. split; [reflexivity|]. split; [exact Hs|constructor].
  - pose proof (decode_ready tx timestamp st s Hs) as H1.
    cbn [map gather].
    destruct (_decode_trade_events chain tx timestamp s) as [res s1] eqn:E. simpl in H1.
    destruct (IH s1 H1) as (results & s2 & -> & H2 & HF).
    exists (res :: results), s2. split; [reflexivity|]. split; [exact H2|].
    constructor; [|exact HF]. intros Hv.
    destruct (decode_fails_validation tx timestamp st s Hs Hv) as (s' & E' & _).
    congruence.
Qed.

(** The loop over the results: the trades of the results that are values,
    and one record for each result that is an exception. *)
Lemma collect_result results trades st :
  collect results trades st
  = (Return (trades ++ returned_trades results),
     add_logged st (map Error_during_decoding (raised results))).
Proof.
  revert trades st. induction results as [|[l|e] results IH]; intros trades st.
  - destruct st. unfold add_logged. simpl. unfold ret. by rewrite !app_nil_r.
  - cbn [collect]. rewrite IH. simpl. by rewrite <- app_assoc.
  - cbn [collect]. unfold bind, logger_error. rewrite IH. unfold add_logged. simpl.
    by rewrite <- app_assoc.
Qed.

Lemma filter_ready block_number st :
  selectable (scanner st) →
  ready_as st (_filter_transactions chain block_number st).2.
Proof.
  intros Hsel. unfold _filter_transactions, on_exception.
  apply (retry_invariant (filter_transactions_once chain block_number) (ready_as st)
           (fun e => e = RpcError) (filter_once_ready st block_number)).
  split; [exact Hsel|reflexivity].
Qed.

End ValidationFailure.

(** C3 (as amended).  Take a transaction for which every read of the
    receipt is served a receipt whose log matches the event signature and
    whose fields fail validation.  Its decode is retried like any other
    failure: from any state of the scanner, [_decode_trade_events] makes
    [max_tries] attempts, one million, and only then raises the validation
    error; each attempt selects an endpoint, logs the validation error and
    the failure of the decode, and records a failure against the endpoint it
    selected.  [get_trades] raises only what the fetch of the block raises;
    when the fetch returns, it gathers the result of the decode of every
    relevant transaction, in order, returns the trades of the decodes that
    returned, and logs one error for each decode that raised: the
    transaction that fails validation has the validation error as result,
    so that its trades, and only they, are dropped. *)
Theorem C3_validation_failure_retried_then_dropped (chain : Scanner.Chain)
  (block_number : Z) (st : Scanner.State) :
  selectable (Scanner.scanner st) →
  let signature := Scanner.event_signature_hash (Scanner.scanner st) in
  (∀ tx timestamp s,
     ready_as st s → fails_validation chain signature timestamp tx →
     ∃ s', Scanner._decode_trade_events chain tx timestamp s
           = (Py.Raise Scanner.ValidationError, s')
       ∧ after_attempts tx s (N.to_nat Scanner.max_tries) s')
  ∧ match Scanner._filter_transactions chain block_number st with
    | (Py.Raise e, st1) => Scanner.get_trades chain block_number st = (Py.Raise e, st1)
    | (Py.Return (relevant, timestamp), st1) =>
        ready_as st st1
        ∧ ∃ results st2,
            Scanner.gather
              (map (fun tx => Scanner._decode_trade_events chain tx timestamp) relevant) st1
            = (Py.Return results, st2)
            ∧ Scanner.get_trades chain block_number st
              = (Py.Return (returned_trades results),
                 add_logged st2 (map Scanner.Error_during_decoding (raised results)))
            ∧ Forall2 (fun tx res =>
                         fails_validation chain signature timestamp tx →
                         res = Py.Raise Scanner.ValidationError)
                      relevant results
    end.
Proof.
  intros Hsel signature. split.
  - intros tx timestamp s Hs Hv. by apply (decode_fails_validation chain tx timestamp st).
  - pose proof (filter_ready chain block_number st Hsel) as H1.
    unfold Scanner.get_trades, Scanner.bind.
    destruct (Scanner._filter_transactions chain block_number st)
      as [[[relevant timestamp]|e] st1]; [|reflexivity].
    simpl in H1. split; [exact H1|].
    destruct (gather_decodes chain timestamp relevant st st1 H1)
      as (results & st2 & Hg & _ & HF).
    exists results, st2. split; [exact Hg|]. split; [|exact HF].
    rewrite Hg, collect_result. reflexivity.
Qed.

Lemma sample_state_selectable : selectable (Scanner.scanner sample_state).
Proof. apply init_selectable. discriminate. Qed.

Lemma C3_validation_failure_retried_then_dropped_witness :
  selectable (Scanner.scanner sample_state)
  ∧ fails_validation (sample_chain 1 "0xzz") "0xaabb" 77 sample_transaction
  ∧ ∃ st', Scanner.get_trades (sample_chain 1 "0xzz") 7 sample_state = (Py.Return [], st')
      ∧ Scanner.logged st'
        = concat (repeat (validation_failure_records sample_transaction)
                         (N.to_nat Scanner.max_tries))
          ++ [Scanner.Error_during_decoding Scanner.ValidationError]
      ∧ N.of_nat (failures_recorded (Scanner.scanner st')) = 1000000%N.
Proof.
  assert (fails_validation (sample_chain 1 "0xzz") "0xaabb" 77 sample_transaction) as Hv.
  { intros k rpc. eexists. split; reflexivity. }
  split; [exact sample_state_selectable|]. split; [exact Hv|].
  destruct (C3_validation_failure_retried_then_dropped (sample_chain 1 "0xzz") 7
              sample_state sample_state_selectable) as [Hdec Hget].
  assert (∃ st1, Scanner._filter_transactions (sample_chain 1 "0xzz") 7 sample_state
                 = (Py.Return ([sample_transaction], 77), st1)
            ∧ Scanner.logged st1 = []
            ∧ failures_recorded (Scanner.scanner st1) = 0%nat) as (st1 & Hf & Hl1 & Hf1).
  { eexists. split; [|split].
    - unfold Scanner._filter_transactions, Scanner.on_exception.
      apply retry_return. reflexivity.
    - reflexivity.
    - reflexivity. }
  rewrite Hf in Hget. destruct Hget as (Hready & results & st2 & Hg & Hrun & _).
  destruct (Hdec sample_transaction 77 st1 Hready Hv)
    as (s' & Hd & _ & _ & Hlog & Hfail & _).
  cbn [map Scanner.gather] in Hg. rewrite Hd in Hg. injection Hg as <- <-.
  eexists. split; [exact Hrun|]. split.
  - cbn [add_logged Scanner.logged raised flat_map map app]. rewrite Hlog, Hl1. reflexivity.
  - cbn [add_logged Scanner.scanner]. rewrite Hfail, Hf1, Nat.add_0_l. apply N2Nat.id.
Defined.

(** C3 (the claim as stated fails).  A receipt whose log matches the event
    signature and whose trader field does not validate: the decode raises
    the validation error, after logging it one million times, once per
    attempt, and not once. *)
Lemma C3_not_retried_counterexample :
  ∃ st',
    Scanner._decode_trade_events (sample_chain 1 "0xzz") sample_transaction 77 sample_state
    = (Py.Raise Scanner.ValidationError, st')
    ∧ N.of_nat (validation_errors st') = 1000000%N
    ∧ validation_errors st' ≠ 1%nat.
Proof.
  assert (decode_inv (config (Scanner.scanner sample_state)) 0 sample_state) as Hinv.
  { split; [exact sample_state_selectable|]. split; reflexivity. }
  destruct (decode_stable (sample_chain 1 "0xzz") _ 0 sample_transaction 77
              {| Scanner.status := 1; Scanner.logs := [sample_log] |}
              sample_state Hinv (fun _ _ => eq_refl)) as (st' & H & _ & Hv).
  assert (receipt_result (sample_chain 1 "0xzz")
            (config (Scanner.scanner sample_state)).1.2 77
            {| Scanner.status := 1; Scanner.logs := [sample_log] |}
          = Py.Raise Scanner.ValidationError) as Hres by (vm_compute; reflexivity).
  rewrite Hres in H, Hv. exists st'. split; [exact H|].
  change (validation_errors sample_state) with 0%nat in Hv.
  cbn [is_validation_failure] in Hv. rewrite Nat.add_0_l in Hv. rewrite Hv.
  split; [apply N2Nat.id|].
  intros Heq. apply (f_equal N.of_nat) in Heq. rewrite N2Nat.id in Heq. discriminate Heq.
Qed.

(** ** Fairness of the selector *)

Section Fairness.
Import Py Scanner.

Lemma mapM_map {A B} (f : A → option B) (g : A → B) (l : list A) :
  (∀ x, In x l → f x = Some (g x)) → mapM f l = Some (map g l).
Proof.
  intros H. apply mapM_Some. induction l as [|x l IH]; simpl; constructor.
  - apply H. simpl. auto.
  - apply IH. intros y Hy. apply H. simpl. auto.
Qed.

(** The head of a stable sort: an element strictly below all the elements
    before it, and not above any element after it. *)
Lemma sorted_head (before after : list (sort_key * string)) (m : sort_key * string) :
  (∀ a, In a before → key_lt (fst m) (fst a) = true) →
  (∀ b, In b after → key_lt (fst b) (fst m) = false) →
  ∃ rest, sorted (before ++ m :: after) = m :: rest.
Proof.
  intros Hbefore Hafter. induction before as [|a before IH]; simpl.
  - destruct (sorted after) as [|b rest] eqn:E; simpl; [eauto|].
    rewrite Hafter; [eauto|]. apply in_sorted. rewrite E. simpl. auto.
  - destruct IH as (rest & ->); [intros; apply Hbefore; simpl; auto|].
    simpl. rewrite Hbefore by (simpl; auto). eauto.
Qed.

Lemma key_of_key_at self t rpc :
  is_Some (last_selected self !! rpc) → key_of self t rpc = Some (key_at self t rpc).
Proof. intros [x Hx]. unfold key_of, key_at. rewrite Hx. reflexivity. Qed.

Lemma select_first_least self t before r after :
  rpcs self = before ++ r :: after →
  (∀ rpc, In rpc (rpcs self) → is_Some (last_selected self !! rpc)) →
  (∀ a, In a before → key_lt (key_at self t r) (key_at self t a) = true) →
  (∀ b, In b after → key_lt (key_at self t b) (key_at self t r) = false) →
  select self t = Return (r, set_selected self r t).
Proof.
  intros Hrpcs Hsel Hbefore Hafter. unfold select.
  rewrite (mapM_map _ (fun rpc => (key_at self t rpc, rpc))).
  - rewrite Hrpcs, map_app. cbn [map].
    destruct (sorted_head (map (fun rpc => (key_at self t rpc, rpc)) before)
                          (map (fun rpc => (key_at self t rpc, rpc)) after)
                          (key_at self t r, r)) as (rest & ->); [| |reflexivity].
    + intros a Ha. apply in_map_iff in Ha as (x & <- & Hx). cbn [fst]. by apply Hbefore.
    + intros b Hb. apply in_map_iff in Hb as (x & <- & Hx). cbn [fst]. by apply Hafter.
  - intros rpc Hin. rewrite key_of_key_at by auto. reflexivity.
Qed.

Lemma Qltb_true a b : (a < b)%Q → Qltb a b = true.
Proof.
  intros H. unfold Qltb. destruct (Qle_bool b a) eqn:E; [|reflexivity].
  apply Qle_bool_iff in E. exfalso. exact (Qlt_not_le _ _ H E).
Qed.

Lemma Qeq_bool_false_lt a b : (a < b)%Q → Qeq_bool a b = false.
Proof.
  intros H. destruct (Qeq_bool a b) eqn:E; [|reflexivity].
  apply Qeq_bool_iff in E. rewrite E in H. exfalso. exact (Qlt_irrefl _ H).
Qed.

Lemma key_lt_irrefl k : key_lt k k = false.
Proof.
  destruct k as [[a b] c]. unfold key_lt.
  rewrite !(proj2 (Qeq_bool_iff _ _) (Qeq_refl _)). simpl. apply Z.ltb_irrefl.
Qed.

Lemma key_lt_first a1 a2 a3 b1 b2 b3 :
  (a1 < b1)%Q → key_lt (a1, a2, a3) (b1, b2, b3) = true.
Proof.
  intros H. unfold key_lt. rewrite (Qeq_bool_false_lt _ _ H). simpl. by apply Qltb_true.
Qed.

(** Every call counts one more request for the endpoint it returns and
    stamps it with the current time; the other endpoints are left alone. *)
Lemma select_updates self t rpc self' :
  select self t = Return (rpc, self') →
  requests self' rpc = requests self rpc + 1
  ∧ last_selected self' !! rpc = Some t
  ∧ ∀ other, other ≠ rpc →
      requests self' other = requests self other
      ∧ last_selected self' !! other = last_selected self !! other.
Proof.
  unfold select. destruct (mapM _ _) as [keyed|]; [|discriminate].
  destruct (sorted keyed) as [|[k r] rest]; [discriminate|].
  intros [= <- <-]. unfold requests. simpl.
  rewrite !lookup_insert_eq. simpl. repeat split; auto.
  - rewrite lookup_insert_ne by auto. reflexivity.
  - rewrite lookup_insert_ne by auto. reflexivity.
Qed.

Lemma cycling_select self L h c returned r waiting t :
  cycling self L h c returned (r :: waiting) → (L < t)%Q →
  select self t = Return (r, set_selected self r t)
  ∧ cycling (set_selected self r t) L h c (returned ++ [r]) waiting.
Proof.
  intros (Hrpcs & Hnd & Hret & Hwait) Ht.
  destruct (Hwait r) as (HrL & Hrh & Hrc); [simpl; auto|].
  assert (∀ b, In b (r :: waiting) → key_at self t b = key_at self t r) as Hsame.
  { intros b Hb. destruct (Hwait b Hb) as (HbL & Hbh & Hbc).
    unfold key_at, backoff_ratio, recent_backoffs. by rewrite HbL, Hbh, Hbc, HrL, Hrh, Hrc. }
  split.
  - apply (select_first_least self t returned r waiting Hrpcs).
    + intros rpc Hin. rewrite Hrpcs in Hin. apply in_app_or in Hin as [Hin|Hin].
      * destruct (Hret rpc Hin) as (t' & -> & _). eauto.
      * destruct (Hwait rpc Hin) as (-> & _). eauto.
    + intros a Ha. destruct (Hret a Ha) as (t' & Ht' & Hlt).
      unfold key_at. rewrite Ht', HrL. simpl. apply key_lt_first.
      unfold Qminus. apply Qplus_lt_l. exact Hlt.
    + intros b Hb. rewrite (Hsame b) by (simpl; auto). apply key_lt_irrefl.
  - assert (¬ In r returned ∧ ¬ In r waiting) as [Hr1 Hr2].
    { apply NoDup_app in Hnd as (_ & Hdisj & Hndw). apply NoDup_cons in Hndw as [Hni _].
      split.
      - intros Hin. apply (Hdisj r); [by apply list_elem_of_In|]. left.
      - intros Hin. apply Hni. by apply list_elem_of_In. }
    split; [|split; [|split]].
    + simpl. rewrite Hrpcs, <- app_assoc. reflexivity.
    + rewrite <- app_assoc. exact Hnd.
    + intros rpc Hin. simpl. apply in_app_or in Hin as [Hin|[<-|[]]].
      * rewrite lookup_insert_ne by congruence. auto.
      * rewrite lookup_insert_eq. eauto.
    + intros rpc Hin. unfold requests. simpl.
      assert (r ≠ rpc) as Hne by congruence.
      rewrite !lookup_insert_ne by exact Hne. apply Hwait. simpl. auto.
Qed.

Lemma cycling_run self L h c returned waiting times :
  cycling self L h c returned waiting →
  length times = length waiting →
  (∀ t, In t times → (L < t)%Q) →
  ∃ self', select_run self times = Return (waiting, self')
    ∧ (∀ rpc, ¬ In rpc waiting →
         last_selected self' !! rpc = last_selected self !! rpc
         ∧ requests self' rpc = requests self rpc)
    ∧ ∀ i rpc t, waiting !! i = Some rpc → times !! i = Some t →
        last_selected self' !! rpc = Some t ∧ requests self' rpc = c + 1.
Proof.
  revert self returned times. induction waiting as [|r waiting IH];
    intros self returned [|t times] Hcyc Hlen Htimes; try discriminate.
  - exists self. split; [reflexivity|]. split; [auto|]. intros i rpc t H. discriminate.
  - destruct (cycling_select self L h c returned r waiting t Hcyc) as [Hsel Hcyc'];
      [apply Htimes; simpl; auto|].
    destruct (IH _ _ times Hcyc') as (self' & Hrun & Hframe & Hfinal);
      [simpl in Hlen; lia|intros; apply Htimes; simpl; auto|].
    destruct (select_updates _ _ _ _ Hsel) as (Hreq & Hlast & Hother).
    assert (¬ In r waiting) as Hr.
    { destruct Hcyc as (_ & Hnd & _). apply NoDup_app in Hnd as (_ & _ & Hndw).
      apply NoDup_cons in Hndw as [Hni _]. intros Hin. apply Hni. by apply list_elem_of_In. }
    exists self'. split; [|split].
    + simpl. rewrite Hsel, Hrun. reflexivity.
    + intros rpc Hni. destruct (Hframe rpc) as [-> ->]; [simpl in Hni; tauto|].
      destruct (Hother rpc) as [-> ->]; [simpl in Hni; intuition congruence|]. auto.
    + intros [|i] rpc t0; simpl.
      * intros [= <-] [= <-]. destruct (Hframe r Hr) as [-> ->].
        rewrite Hlast, Hreq. destruct Hcyc as (_ & _ & _ & Hwait).
        destruct (Hwait r) as (_ & _ & ->); [simpl; auto|]. auto.
      * apply Hfinal.
Qed.

End Fairness.

(** C5 (as amended).  A pool of distinct endpoints with equal health
    records (one failure history [h], one request count [c]) and one
    last-selected time [L]: as many consecutive calls as there are
    endpoints, each at a time later than [L], return every endpoint exactly
    once, in the order of the configured list; afterwards each endpoint has
    one more request counted and the time of its call as last-selected time.
    And every call, in any pool, counts one request more for the endpoint it
    returns and sets its last-selected time to the current time. *)
Theorem C5_fair_cycle (self : Scanner.Scanner) (L : Q) (h : list Q) (c : Z)
  (times : list Q) :
  NoDup (Scanner.rpcs self) →
  (∀ rpc, In rpc (Scanner.rpcs self) →
     Scanner.last_selected self !! rpc = Some L
     ∧ default [] (Scanner.backoff_times self !! rpc) = h
     ∧ Scanner.requests self rpc = c) →
  length times = length (Scanner.rpcs self) →
  (∀ t, In t times → (L < t)%Q) →
  (∃ self', Scanner.select_run self times = Py.Return (Scanner.rpcs self, self')
     ∧ ∀ i rpc t, Scanner.rpcs self !! i = Some rpc → times !! i = Some t →
         Scanner.last_selected self' !! rpc = Some t
         ∧ Scanner.requests self' rpc = c + 1)
  ∧ (∀ pool t rpc pool',
       Scanner.select pool t = Py.Return (rpc, pool') →
       Scanner.requests pool' rpc = Scanner.requests pool rpc + 1
       ∧ Scanner.last_selected pool' !! rpc = Some t).
Proof.
  intros Hnd Heq Hlen Htimes. split.
  - destruct (cycling_run self L h c [] (Scanner.rpcs self) times) as (self' & Hrun & _ & Hfinal);
      [|exact Hlen|exact Htimes|eauto].
    split; [reflexivity|]. split; [exact Hnd|]. split; [intros rpc []|exact Heq].
  - intros pool t rpc pool' Hsel.
    destruct (select_updates _ _ _ _ Hsel) as (H1 & H2 & _). auto.
Qed.

Lemma C5_fair_cycle_witness :
  NoDup (Scanner.rpcs sample_pool)
  ∧ ∃ self', Scanner.select_run sample_pool [1%Q; 2%Q; 3%Q]
             = Py.Return (Scanner.rpcs sample_pool, self').
Proof.
  assert (NoDup (Scanner.rpcs sample_pool)) as Hnd.
  { simpl. repeat constructor; rewrite ?list_elem_of_In; simpl; intuition discriminate. }
  split; [exact Hnd|].
  destruct (C5_fair_cycle sample_pool 0%Q [] 0 [1%Q; 2%Q; 3%Q] Hnd) as [(self' & H & _) _].
  - intros rpc Hin. simpl in Hin.
    destruct Hin as [<-|[<-|[<-|[]]]]; repeat split; reflexivity.
  - reflexivity.
  - intros t Ht. simpl in Ht. destruct Ht as [<-|[<-|[<-|[]]]]; reflexivity.
  - exists self'. exact H.
Defined.

(** C5 (the claim as stated fails).  Two consecutive calls at the clock
    reading 100, the common last-selected time: the first returns endpoint
    [a]; its failure ratio, one failure over three requests, is then the
    lower one, and the second call returns [a] again, [b] not at all. *)
Lemma C5_unfair_counterexample :
  (∀ rpc, In rpc (Scanner.rpcs tied_pool) →
     Scanner.last_selected tied_pool !! rpc = Some 100%Q
     ∧ default [] (Scanner.backoff_times tied_pool !! rpc) = [95%Q]
     ∧ Scanner.requests tied_pool rpc = 2)
  ∧ ∃ self', Scanner.select_run tied_pool [100%Q; 100%Q] = Py.Return (["a"; "a"], self').
Proof.
  split.
  - intros rpc Hin. simpl in Hin. destruct Hin as [<-|[<-|[]]]; repeat split; reflexivity.
  - eexists. vm_compute. reflexivity.
Qed.

(** ** The bonding-curve prices *)

Section Pricing.
Import Contract.

Lemma has_value_b_spec res v : has_value_b res v = true ↔ has_value res v.
Proof.
  unfold has_value_b, has_value. split.
  - destruct res as [f|]; [|discriminate].
    destruct (Float.to_Q f) as [q|] eqn:E; [|discriminate].
    intros H. exists f, q. split; [reflexivity|]. split; [exact E|]. by apply Qeq_bool_iff.
  - intros (f & q & -> & -> & H). by apply Qeq_bool_iff.
Qed.

Lemma check_all_true : forallb check_supply (Py.range 0 266) = true.
Proof. vm_compute. reflexivity. Qed.

Lemma squares_below_closed n :
  6 * squares_below n = (Z.of_nat n - 1) * Z.of_nat n * (2 * (Z.of_nat n - 1) + 1).
Proof.
  induction n as [|n IH]; [reflexivity|].
  cbn [squares_below]. rewrite Z.mul_add_distr_l, IH, Nat2Z.inj_succ. ring.
Qed.

Lemma squares_below_div n :
  (Z.of_nat n - 1) * Z.of_nat n * (2 * (Z.of_nat n - 1) + 1) / 6 = squares_below n.
Proof. rewrite <- squares_below_closed, Z.mul_comm. apply Z.div_mul. lia. Qed.

Lemma squares_below_mono n m : (n ≤ m)%nat → squares_below n ≤ squares_below m.
Proof.
  induction 1 as [|m Hle IH]; [lia|]. cbn [squares_below]. nia.
Qed.

(** The base price: the difference of two sums of squares, scaled. *)
Lemma calc_price_sum supply amount :
  0 ≤ supply → 1 ≤ amount →
  calc_price supply amount
  = (squares_below (Z.to_nat (supply + amount)) - squares_below (Z.to_nat supply))
    * (10 ^ 18 / 16000).
Proof.
  intros Hs Ha. unfold calc_price.
  assert (∀ x, x * 10 ^ 18 / 16000 = x * (10 ^ 18 / 16000)) as Hscale.
  { intros x. change (10 ^ 18) with (62500000000000 * 16000).
    rewrite Z.mul_assoc, !Z.div_mul by lia. reflexivity. }
  rewrite Hscale. f_equal.
  assert ((supply - 1 + amount) * (supply + amount) * (2 * (supply - 1 + amount) + 1) / 6
          = squares_below (Z.to_nat (supply + amount))) as H2.
  { rewrite <- squares_below_div. rewrite Z2Nat.id by lia. f_equal. ring. }
  assert ((supply - 1) * supply * (2 * (supply - 1) + 1) / 6
          = squares_below (Z.to_nat supply)) as H1.
  { rewrite <- squares_below_div. rewrite Z2Nat.id by lia. reflexivity. }
  destruct (Z.eqb_spec supply 0) as [->|Hne]; simpl.
  - destruct (Z.eqb_spec amount 1) as [->|Hne1]; [reflexivity|].
    rewrite <- H2. reflexivity.
  - rewrite H1, H2. reflexivity.
Qed.

(** A window of squares is at least as large as its length times its first
    square, and as the sum of as many squares from zero. *)
Lemma squares_window (s a : nat) :
  Z.of_nat a * (Z.of_nat s * Z.of_nat s) ≤ squares_below (s + a) - squares_below s
  ∧ squares_below a ≤ squares_below (s + a) - squares_below s.
Proof.
  induction a as [|a [IH1 IH2]].
  - rewrite Nat.add_0_r. simpl. lia.
  - replace (s + S a)%nat with (S (s + a)) by lia. cbn [squares_below].
    rewrite !Nat2Z.inj_succ, Nat2Z.inj_add. split; nia.
Qed.

(** A base price under the bound comes from a supply and an amount that the
    checks cover. *)
Lemma calc_price_small supply amount :
  0 ≤ supply → 1 ≤ amount →
  21 * calc_price supply amount < exact_bound →
  supply < 266 ∧ amount ≤ amount_cap supply.
Proof.
  intros Hs Ha. rewrite calc_price_sum by lia.
  change (10 ^ 18 / 16000) with 62500000000000. unfold exact_bound.
  change (20 * 2 ^ 62) with 92233720368547758080.
  destruct (squares_window (Z.to_nat supply) (Z.to_nat amount)) as [H1 H2].
  replace (Z.to_nat supply + Z.to_nat amount)%nat with (Z.to_nat (supply + amount)) in H1, H2
    by lia.
  rewrite !Z2Nat.id in H1 by lia.
  set (S := squares_below (Z.to_nat (supply + amount)) - squares_below (Z.to_nat supply)) in *.
  intros H. assert (S ≤ 70274) as HS by lia.
  assert (amount ≤ 60) as Ha60.
  { destruct (Z_le_gt_dec amount 60) as [|Hgt]; [assumption|]. exfalso.
    pose proof (squares_below_mono 61 (Z.to_nat amount) ltac:(lia)) as Hm.
    change (squares_below 61) with 73810 in Hm. lia. }
  split.
  - destruct (Z_lt_le_dec supply 266) as [|Hge]; [assumption|]. exfalso.
    assert (266 * 266 ≤ supply * supply) by nia. nia.
  - unfold amount_cap. destruct (Z.eqb_spec supply 0) as [->|Hne]; [exact Ha60|].
    apply Z.min_glb; [exact Ha60|].
    apply Z.div_le_lower_bound; [nia|]. nia.
Qed.

Lemma check_all_spec supply amount :
  0 ≤ supply → 1 ≤ amount → supply < 266 → amount ≤ amount_cap supply →
  check_buy supply amount = true ∧ check_sell (supply + amount) amount = true.
Proof.
  intros Hs Ha Hsup Hcap.
  assert (In supply (Py.range 0 266)) as Hin by (apply in_range; lia).
  pose proof (proj1 (forallb_forall check_supply (Py.range 0 266)) check_all_true supply Hin)
    as H.
  assert (In amount (Py.range 1 (amount_cap supply + 1))) as Hin' by (apply in_range; lia).
  apply andb_true_iff.
  exact (proj1 (forallb_forall _ (Py.range 1 (amount_cap supply + 1))) H amount Hin').
Qed.

End Pricing.

(** C9 (as amended).  For a non-negative supply and a positive amount the
    base price is an integer: the sum of the squares from [supply] to
    [supply + amount - 1], scaled by 10^18/16000.  The prices after fee are
    binary64 floats, computed from the base price with rounded operations:
    while 21 times the base price stays below 20 * 2^62 (a base price under
    about 4.39 * 10^18), the buy price is the float whose value is the base
    price plus two fees of 5%, and the sell price, for [amount <= supply],
    the float whose value is the base price at [supply - amount] minus two
    fees of 5%. *)
Theorem C9_prices_after_fee (supply amount : Z) :
  0 ≤ supply → 1 ≤ amount →
  Contract.calc_price supply amount
  = (squares_below (Z.to_nat (supply + amount)) - squares_below (Z.to_nat supply))
    * (10 ^ 18 / 16000)
  ∧ (21 * Contract.calc_price supply amount < exact_bound →
     has_value (Contract.calc_buy_price_after_fee supply amount)
               (price_plus_fees (Contract.calc_price supply amount)))
  ∧ (amount ≤ supply →
     21 * Contract.calc_price (supply - amount) amount < exact_bound →
     has_value (Contract.calc_sell_price_after_fee supply amount)
               (price_minus_fees (Contract.calc_price (supply - amount) amount))).
Proof.
  intros Hs Ha. split; [by apply calc_price_sum|]. split.
  - intros Hb. destruct (calc_price_small _ _ Hs Ha Hb) as [Hsup Hcap].
    destruct (check_all_spec supply amount Hs Ha Hsup Hcap) as [Hc _].
    unfold check_buy in Hc. cbv zeta in Hc.
    destruct (Z.ltb_spec (21 * Contract.calc_price supply amount) exact_bound); [|lia].
    by apply has_value_b_spec.
  - intros Hle Hb.
    destruct (calc_price_small (supply - amount) amount ltac:(lia) Ha Hb) as [Hsup Hcap].
    destruct (check_all_spec (supply - amount) amount ltac:(lia) Ha Hsup Hcap) as [_ Hc].
    replace (supply - amount + amount) with supply in Hc by lia.
    unfold check_sell in Hc. cbv zeta in Hc.
    destruct (Z.ltb_spec (21 * Contract.calc_price (supply - amount) amount) exact_bound);
      [|lia].
    by apply has_value_b_spec.
Qed.

Lemma C9_prices_after_fee_witness :
  0 ≤ 10 ∧ 1 ≤ 1
  ∧ Contract.calc_price 10 1
    = (squares_below (Z.to_nat (10 + 1)) - squares_below (Z.to_nat 10)) * (10 ^ 18 / 16000).
Proof.
  split; [lia|]. split; [lia|].
  exact (proj1 (C9_prices_after_fee 10 1 ltac:(lia) ltac:(lia))).
Defined.

(** The buy price of one share at supply 10: the base price 6.25 * 10^15
    and the float of value 6.875 * 10^15. *)
Example buy_price_at_10 :
  Contract.calc_price 10 1 = 6250000000000000
  ∧ Contract.calc_buy_price_after_fee 10 1 = Some (S754_finite false 6875000000000000 0).
Proof. split; vm_compute; reflexivity. Qed.

(** C9 (the claim as stated fails).  At supply 267 and amount 1 the buy
    price is a float, and its value is not the base price plus two fees of
    5%: the sum of the price and the first fee is rounded. *)
Lemma C9_not_exact_counterexample :
  Contract.calc_price 267 1 = 4455562500000000000
  ∧ price_plus_fees 4455562500000000000 = 4901118750000000000
  ∧ Contract.calc_buy_price_after_fee 267 1 = Some (S754_finite false 4786248779296874 10)
  ∧ has_value (Some (S754_finite false 4786248779296874 10)) 4901118749999998976
  ∧ ¬ has_value (Contract.calc_buy_price_after_fee 267 1)
                (price_plus_fees (Contract.calc_price 267 1)).
Proof.
  split; [vm_compute; reflexivity|]. split; [vm_compute; reflexivity|].
  split; [vm_compute; reflexivity|]. split.
  - apply has_value_b_spec. vm_compute. reflexivity.
  - intros H. apply has_value_b_spec in H. vm_compute in H. discriminate H.
Qed.

(** * Further properties of the code *)

(** ** The checkpoint and the table of the trades *)

Section Checkpoint.
Import Py Db.

Variable fault : statement → bool.

Lemma fold_max_spec (rows : list Trade) (m0 : Z) :
  let m := fold_left (fun m r => Z.max m (block_number r)) rows m0 in
  m0 ≤ m
  ∧ (∀ t, In t rows → block_number t ≤ m)
  ∧ (m = m0 ∨ ∃ t, In t rows ∧ block_number t = m).
Proof.
  revert m0. induction rows as [|r rows IH]; intros m0; simpl.
  - split; [lia|]. split; [tauto|]. auto.
  - destruct (IH (Z.max m0 (block_number r))) as (H1 & H2 & H3).
    split; [lia|]. split.
    + intros t [<-|Ht]; [lia|auto].
    + destruct H3 as [->|(t & Ht & <-)]; [|right; eauto].
      destruct (Z.max_spec m0 (block_number r)) as [[_ ->]|[_ ->]]; [right; eauto|auto].
Qed.

Lemma max_block_number_spec rows m :
  max_block_number rows = Some m ↔
  (∃ t, In t rows ∧ block_number t = m) ∧ ∀ t, In t rows → block_number t ≤ m.
Proof.
  destruct rows as [|r rows]; simpl.
  - split; [discriminate|]. intros [(t & [] & _) _].
  - pose proof (fold_max_spec rows (block_number r)) as (H1 & H2 & H3). split.
    + intros [= <-]. split.
      * destruct H3 as [->|(t & Ht & <-)]; eauto.
      * intros t [<-|Ht]; auto.
    + intros [(t & Ht & <-) Hb]. f_equal. apply Z.le_antisymm.
      * destruct H3 as [->|(t' & Ht' & <-)]; [apply Hb; auto|apply Hb; auto].
      * destruct Ht as [<-|Ht]; auto.
Qed.

Lemma max_block_number_None rows : max_block_number rows = None ↔ rows = [].
Proof. destruct rows; simpl; split; congruence. Qed.

(** The plain [INSERT]s of a batch that all go through append the batch. *)
Lemma execute_all_insert_trades batch db :
  match execute_all fault (map (Insert_trade No_conflict_clause) batch) db with
  | (Return _, db') => db' = with_trades db (trades db ++ batch)
  | (Raise _, _) => True
  end.
Proof.
  revert db. induction batch as [|t batch IH]; intros db; simpl.
  - rewrite app_nil_r. by destruct db.
  - unfold execute. destruct (fault _); [exact I|]. unfold insert_row.
    destruct (unique_transaction_hash db && has_hash _ _); [exact I|].
    specialize (IH (with_trades db (trades db ++ [t]))).
    destruct (execute_all _ _ _) as [[[]|e] db']; [|exact I].
    rewrite IH. simpl. unfold with_trades. simpl. by rewrite <- app_assoc.
Qed.

Lemma insert_trades_result db batch :
  match insert_trades fault db batch with
  | (Return _, db') => db' = with_trades db (trades db ++ batch)
  | (Raise _, db') => db' = db
  end.
Proof.
  unfold insert_trades, execute_many, transaction.
  pose proof (execute_all_insert_trades batch db) as H.
  destruct (execute_all _ _ _) as [[[]|e] db']; auto.
Qed.

Lemma batch_accepted_cons unique rows t batch :
  batch_accepted fault unique rows (t :: batch) ↔
  fault (Insert_trade No_conflict_clause t) = false
  ∧ (unique = true → ¬ In (transaction_hash t) (map transaction_hash rows))
  ∧ batch_accepted fault unique (rows ++ [t]) batch.
Proof.
  unfold batch_accepted. split.
  - intros [Hf Hu]. split; [apply Hf; simpl; auto|]. split.
    + intros Hun. destruct (Hu Hun) as [_ H]. apply H. simpl. auto.
    + split; [intros; apply Hf; simpl; auto|]. intros Hun.
      destruct (Hu Hun) as [Hnd H]. simpl in Hnd. apply NoDup_cons in Hnd as [Hni Hnd].
      split; [exact Hnd|]. intros t' Ht'. rewrite map_app, in_app_iff. simpl.
      intros [Hin|[Heq|[]]].
      * apply (H t'); simpl; auto.
      * apply Hni. rewrite Heq. apply list_elem_of_In. apply in_map. exact Ht'.
  - intros (Hf & Hu & Hf' & Hu'). split.
    + intros t' [<-|Ht']; auto.
    + intros Hun. destruct (Hu' Hun) as [Hnd H]. split.
      * simpl. apply NoDup_cons. split; [|exact Hnd].
        intros Hin. apply list_elem_of_In, in_map_iff in Hin as (t' & Heq & Ht').
        apply (H t' Ht'). rewrite map_app, in_app_iff. simpl. auto.
      * intros t' [<-|Ht']; [auto|]. intros Hin. apply (H t' Ht').
        rewrite map_app, in_app_iff. auto.
Qed.

Lemma execute_all_insert_trades_accepted batch db :
  (∃ db', execute_all fault (map (Insert_trade No_conflict_clause) batch) db = (Return tt, db'))
  ↔ batch_accepted fault (unique_transaction_hash db) (trades db) batch.
Proof.
  revert db. induction batch as [|t batch IH]; intros db.
  - simpl. split; [|eauto]. intros _. split; [intros t []|]. intros _. split; [constructor|].
    intros t [].
  - rewrite batch_accepted_cons. cbn [map execute_all]. unfold execute, insert_row.
    destruct (fault (Insert_trade No_conflict_clause t)).
    { split; [intros (db' & [=])|intros [[=] _]]. }
    destruct (unique_transaction_hash db) eqn:Hu; simpl.
    + destruct (has_hash (transaction_hash t) (trades db)) eqn:Hh.
      * apply has_hash_spec in Hh. split; [intros (db' & [=])|]. intros (_ & H & _).
        exfalso. by apply H.
      * rewrite (IH (with_trades db (trades db ++ [t]))). simpl. rewrite Hu.
        split; [|tauto]. intros H. split; [reflexivity|]. split; [|exact H].
        intros _ Hin. apply has_hash_spec in Hin. congruence.
    + rewrite (IH (with_trades db (trades db ++ [t]))). simpl. rewrite Hu.
      split; [|tauto]. intros H. split; [reflexivity|]. split; [discriminate|exact H].
Qed.

(** The [INSERT]s of [insert_shares] go through with the unique
    constraint only, and skip the rows whose address is stored. *)
Lemma execute_all_inserts_unique rows db db' :
  execute_all fault (map (Insert_share On_conflict_do_nothing) rows) db = (Return tt, db') →
  unique_address db' = unique_address db ∧ (rows ≠ [] → unique_address db = true).
Proof.
  revert db. induction rows as [|row rows IH]; intros db; simpl.
  - intros [= <-]. split; [reflexivity|congruence].
  - unfold execute, insert_row. destruct (fault _); [discriminate|].
    destruct (unique_address db) eqn:Hu; [|discriminate].
    destruct (has_address _ _); intros H; apply IH in H as [H _]; simpl in H; split; congruence.
Qed.

Lemma execute_all_inserts_stored rows db :
  unique_address db = true →
  (∀ r, In r rows → In (address r) (map address (shares db))) →
  match execute_all fault (map (Insert_share On_conflict_do_nothing) rows) db with
  | (Return _, db') => db' = db
  | (Raise _, _) => True
  end.
Proof.
  intros Hu. induction rows as [|row rows IH]; intros Hin; simpl; [reflexivity|].
  unfold execute, insert_row. destruct (fault _); [exact I|]. rewrite Hu.
  rewrite (proj2 (has_address_spec (address row) (shares db))) by (apply Hin; simpl; auto).
  apply IH. intros r Hr. apply Hin. simpl. auto.
Qed.

End Checkpoint.

(** X1.  [get_last_block] is 0 on an empty table of trades and otherwise
    the greatest stored block number: the block number of a stored trade,
    and a bound of them all. *)
Theorem X1_get_last_block_is_greatest (db : Db.Database) :
  (Db.trades db = [] → Db.get_last_block db = 0)
  ∧ (Db.trades db ≠ [] →
     (∃ t, In t (Db.trades db) ∧ block_number t = Db.get_last_block db)
     ∧ ∀ t, In t (Db.trades db) → block_number t ≤ Db.get_last_block db).
Proof.
  unfold Db.get_last_block. split.
  - intros ->. reflexivity.
  - intros Hne. destruct (Db.max_block_number (Db.trades db)) as [m|] eqn:E.
    + by apply max_block_number_spec.
    + by apply max_block_number_None in E.
Qed.

(** X2.  The checkpoint never moves back: whatever [insert_trades] does
    with a batch of trades of non-negative block numbers (store it, or
    raise and store nothing), [get_last_block] afterwards is at least what
    it was, and after a batch that was stored it is at least every block
    number of the batch. *)
Theorem X2_checkpoint_never_decreases (fault : Db.statement → bool)
  (db : Db.Database) (trades_data : list Trade) :
  (∀ t, In t trades_data → 0 ≤ block_number t) →
  let '(res, db') := Db.insert_trades fault db trades_data in
  Db.get_last_block db ≤ Db.get_last_block db'
  ∧ (res = Py.Return tt → ∀ t, In t trades_data → block_number t ≤ Db.get_last_block db').
Proof.
  intros Hpos. pose proof (insert_trades_result fault db trades_data) as H.
  destruct (Db.insert_trades fault db trades_data) as [[[]|e] db'].
  - subst db'. unfold Db.get_last_block. simpl.
    destruct (Db.max_block_number (Db.trades db ++ trades_data)) as [m'|] eqn:E'.
    + apply max_block_number_spec in E' as [(t' & Ht' & Hm') Hb']. split.
      * destruct (Db.max_block_number (Db.trades db)) as [m|] eqn:E.
        -- apply max_block_number_spec in E as [(t & Ht & <-) _].
           apply Hb'. apply in_or_app. auto.
        -- apply max_block_number_None in E. rewrite E in Ht'. simpl in Ht'.
           rewrite <- Hm'. auto.
      * intros _ t Ht. apply Hb'. apply in_or_app. auto.
    + apply max_block_number_None in E'. apply app_eq_nil in E' as [-> ->].
      split; [reflexivity|]. intros _ t [].
  - subst db'. split; [lia|discriminate].
Qed.

Lemma X2_checkpoint_never_decreases_witness :
  (∀ t, In t [sample_trade_in x0b 9] → 0 ≤ block_number t)
  ∧ Db.get_last_block (sample_db false) = 7
  ∧ Db.get_last_block
      (Db.insert_trades no_fault (sample_db false) [sample_trade_in x0b 9]).2 = 9
  ∧ Db.get_last_block (sample_db false)
    ≤ Db.get_last_block
        (Db.insert_trades no_fault (sample_db false) [sample_trade_in x0b 9]).2.
Proof.
  assert (∀ t, In t [sample_trade_in x0b 9] → 0 ≤ block_number t) as H.
  { intros t [<-|[]]. simpl. lia. }
  split; [exact H|]. split; [reflexivity|]. split; [reflexivity|].
  exact (proj1 (X2_checkpoint_never_decreases no_fault (sample_db false)
                  [sample_trade_in x0b 9] H)).
Defined.

(** X3.  [insert_trades] stores all of a batch or nothing: when it
    returns, the table of the trades is the old one followed by the whole
    batch in order, duplicates included, and the shares are as they were;
    when it raises, the database is as it was. *)
Theorem X3_insert_trades_all_or_nothing (fault : Db.statement → bool)
  (db : Db.Database) (trades_data : list Trade) :
  match Db.insert_trades fault db trades_data with
  | (Py.Return _, db') => db' = Db.with_trades db (Db.trades db ++ trades_data)
  | (Py.Raise _, db') => db' = db
  end.
Proof. apply insert_trades_result. Qed.

(** X4.  [insert_trades] returns exactly when the server refuses none of
    its statements and, if [transaction_hash] carries a unique constraint,
    the hashes of the batch are pairwise distinct and none of them is
    stored: one repeated hash makes the whole batch fail. *)
Theorem X4_insert_trades_accepted_iff (fault : Db.statement → bool)
  (db : Db.Database) (trades_data : list Trade) :
  (Db.insert_trades fault db trades_data).1 = Py.Return tt
  ↔ batch_accepted fault (Db.unique_transaction_hash db) (Db.trades db) trades_data.
Proof.
  rewrite <- execute_all_insert_trades_accepted.
  unfold Db.insert_trades, Db.execute_many, Db.transaction.
  destruct (Db.execute_all _ _ _) as [[[]|e] db']; simpl.
  - split; eauto.
  - split; [discriminate|]. intros (? & [=]).
Qed.

(** X5.  [insert_shares] is idempotent: after a call that returned, a
    second call with the same shares changes nothing, whether the server
    serves it or not. *)
Theorem X5_insert_shares_idempotent (fault fault' : Db.statement → bool)
  (db db' : Db.Database) (shares : list Share) :
  Db.insert_shares fault db shares = (Py.Return tt, db') →
  (Db.insert_shares fault' db' shares).2 = db'.
Proof.
  intros H. pose proof (insert_shares_complete fault db shares db' H) as Hin.
  destruct shares as [|s rest] eqn:E; [reflexivity|]. rewrite <- E in *.
  assert (Db.unique_address db' = true) as Hu.
  { unfold Db.insert_shares, Db.execute_many in H. rewrite E in H. rewrite <- E in H.
    apply transaction_return in H. apply execute_all_inserts_unique in H as [-> H].
    apply H. rewrite E. discriminate. }
  pose proof (execute_all_inserts_stored fault' shares db' Hu Hin) as H2.
  unfold Db.insert_shares, Db.execute_many, Db.transaction. rewrite E. rewrite <- E.
  destruct (Db.execute_all fault' _ db') as [[[]|e] d]; simpl; auto.
Qed.

Lemma X5_insert_shares_idempotent_witness :
  let db' := (Db.insert_shares no_fault (sample_db true) [sample_update x03]).2 in
  Db.insert_shares no_fault (sample_db true) [sample_update x03] = (Py.Return tt, db')
  ∧ length (Db.shares db') = 3%nat
  ∧ (Db.insert_shares no_fault db' [sample_update x03]).2 = db'.
Proof.
  split; [reflexivity|]. split; [reflexivity|].
  apply (X5_insert_shares_idempotent no_fault no_fault (sample_db true)). reflexivity.
Defined.

(** ** Hexadecimal text *)

Section Hex.

(** The two digits written for a byte are read back as the byte. *)
Lemma hex_digits_of_byte (x : byte) :
  let n := Byte.to_N x in
  is_space (hex_digit (n / 16)) = false
  ∧ digit_value (hex_digit (n / 16)) = Some (n / 16)%N
  ∧ digit_value (hex_digit (n mod 16)) = Some (n mod 16)%N
  ∧ byte_of_ascii (ascii_of_N (16 * (n / 16) + n mod 16)) = x.
Proof. destruct x; vm_compute; repeat split. Qed.

Lemma fromhex_hexlify (b : bytes) : fromhex (hexlify b) = Some b.
Proof.
  unfold fromhex. induction b as [|x b IH]; [reflexivity|].
  destruct (hex_digits_of_byte x) as (Hsp & Htop & Hbot & Hx).
  cbn [hexlify list_ascii_of_string fromhex_chars].
  rewrite Hsp, Htop, Hbot, IH. simpl. by rewrite Hx.
Qed.

(** The case of a character does not matter to [fromhex]. *)
Lemma lower_char_digit (c : ascii) :
  is_space (lower_char c) = is_space c ∧ digit_value (lower_char c) = digit_value c.
Proof.
  destruct c as [[] [] [] [] [] [] [] []]; vm_compute; split; reflexivity.
Qed.

Lemma fromhex_chars_lower (s : string) :
  fromhex_chars (list_ascii_of_string (lower s)) = fromhex_chars (list_ascii_of_string s).
Proof.
  remember (String.length s) as n eqn:Hn.
  revert s Hn. induction n as [n IH] using lt_wf_ind. intros s Hn.
  destruct s as [|c s]; [reflexivity|].
  cbn [lower list_ascii_of_string fromhex_chars].
  destruct (lower_char_digit c) as [-> ->].
  destruct (is_space c).
  - apply (IH (String.length s)); [simpl in Hn; lia|reflexivity].
  - destruct (digit_value c) as [top|]; [|reflexivity].
    destruct s as [|d s]; [reflexivity|].
    cbn [lower list_ascii_of_string].
    destruct (lower_char_digit d) as [_ ->].
    destruct (digit_value d) as [bot|]; [|reflexivity].
    rewrite (IH (String.length s)); [reflexivity|simpl in Hn; lia|reflexivity].
Qed.

(** [hexlify] writes no capital. *)
Lemma hexlify_lower_char (x : byte) :
  let n := Byte.to_N x in
  lower_char (hex_digit (n / 16)) = hex_digit (n / 16)
  ∧ lower_char (hex_digit (n mod 16)) = hex_digit (n mod 16).
Proof. destruct x; vm_compute; split; reflexivity. Qed.

Lemma lower_hexlify (b : bytes) : lower (hexlify b) = hexlify b.
Proof.
  induction b as [|x b IH]; [reflexivity|].
  destruct (hexlify_lower_char x) as [H1 H2].
  cbn [hexlify lower]. by rewrite H1, H2, IH.
Qed.

Lemma lower_to_hex (b : bytes) : lower (to_hex b) = to_hex b.
Proof.
  unfold to_hex.
  change (String.append "0x" (hexlify b)) with (String "0" (String "x" (hexlify b))).
  cbn [lower]. rewrite lower_hexlify. reflexivity.
Qed.

End Hex.

(** X6.  The address text that the aggregator and [update_twitter_info]
    build from stored bytes, ["0x" + hexlify(b)], is read back by
    [convert_to_bytes] as the same bytes; so is [to_hex(b)]. *)
Theorem X6_address_text_round_trip (b : bytes) :
  convert_to_bytes (In_str (String.append "0x" (hexlify b))) = Some b
  ∧ convert_to_bytes (In_str (to_hex b)) = Some b.
Proof.
  split; unfold to_hex; cbn [String.append convert_to_bytes strip_0x]; apply fromhex_hexlify.
Qed.

(** X7.  [convert_to_bytes] reads the hexadecimal digits of an address
    text in either case: a checksummed (mixed-case) address and its
    lower-case form give the same bytes, or are refused alike. *)
Theorem X7_hex_digits_in_either_case (digits : string) :
  convert_to_bytes (In_str (String.append "0x" (lower digits)))
  = convert_to_bytes (In_str (String.append "0x" digits)).
Proof.
  cbn [String.append convert_to_bytes strip_0x]. unfold fromhex. apply fromhex_chars_lower.
Qed.

(** ** The calls of the scanner *)

Section Signature.
Import Py Scanner.

Variable chain : Chain.

(** What holds of the value of every returning call of a target, from a
    state of an invariant that the calls keep, holds of the value returned
    with the retries. *)
Lemma retry_return_invariant {A} (target : M A) (I : State → Prop) (P : A → Prop) :
  (∀ st r st', I st → target st = (r, st') → I st' ∧ ∀ a, r = Return a → P a) →
  ∀ n st a st', I st → retry n target st = (Return a, st') → P a.
Proof.
  intros H. induction n as [|n IH]; intros st a st' Hst; simpl;
    destruct (target st) as [[a0|e] st0] eqn:E;
    destruct (H st _ st0 Hst E) as [Hst0 HP].
  - intros [= <- <-]. auto.
  - discriminate.
  - intros [= <- <-]. auto.
  - by apply IH.
Qed.

(** A target that raises at each of its first [k] calls and returns at the
    next returns there, when [k] more calls are allowed. *)
Lemma retry_fails_then_returns {A} (target : M A) (I : nat → State → Prop)
  (Q : State → Prop) (k extra : nat) (a : A) :
  (k ≤ extra)%nat →
  (∀ i st, (i < k)%nat → I i st → ∃ e st', target st = (Raise e, st') ∧ I (S i) st') →
  (∀ st, I k st → ∃ st', target st = (Return a, st') ∧ Q st') →
  ∀ st, I 0%nat st → ∃ st', retry extra target st = (Return a, st') ∧ Q st'.
Proof.
  intros Hle Hfail Hret.
  assert (∀ j extra' st, (j + extra' = extra)%nat → (j ≤ k)%nat → I j st →
            ∃ st', retry extra' target st = (Return a, st') ∧ Q st') as H.
  { intros j extra'. revert j. induction extra' as [|n IH]; intros j st Hsum Hj Hst.
    - assert (j = k) as -> by lia. destruct (Hret st Hst) as (st' & E & HQ).
      exists st'. simpl. rewrite E. auto.
    - destruct (Nat.eq_dec j k) as [->|Hne].
      + destruct (Hret st Hst) as (st' & E & HQ). exists st'. simpl. rewrite E. auto.
      + destruct (Hfail j st ltac:(lia) Hst) as (e & st1 & E & Hst1).
        simpl. rewrite E. apply (IH (S j)); [lia|lia|exact Hst1]. }
  intros st Hst. apply (H 0%nat extra st); [lia|lia|exact Hst].
Qed.

Lemma logs_result_no_match signature timestamp logs trades :
  (∀ topic, String.eqb (to_hex topic) signature = false) →
  ∀ l, logs_result chain signature timestamp logs trades = Return l → l = trades.
Proof.
  intros Hno. induction logs as [|log rest IH]; intros l; cbn [logs_result].
  - congruence.
  - destruct (topics log) as [|topic0 ?]; [discriminate|]. rewrite Hno. apply IH.
Qed.

Lemma to_hex_never_equals signature topic :
  lower signature ≠ signature → String.eqb (to_hex topic) signature = false.
Proof.
  intros Hne. apply String.eqb_neq. intros Heq. apply Hne.
  rewrite <- Heq. apply lower_to_hex.
Qed.

(** [gather] raises nothing, and runs every task once: one result per
    task, each result that is a value being a value its task returned. *)
Lemma gather_results {A} (P : A → Prop) (tasks : list (M A)) :
  (∀ task, In task tasks → ∀ st a st', task st = (Return a, st') → P a) →
  ∀ st, ∃ results st', gather tasks st = (Return results, st')
    ∧ length results = length tasks
    ∧ ∀ a, In (Return a) results → P a.
Proof.
  induction tasks as [|task tasks IH]; intros H st.
  - exists [], st. split; [reflexivity|]. split; [reflexivity|]. intros a [].
  - cbn [gather]. destruct (task st) as [res st1] eqn:E.
    destruct (IH (fun t Ht => H t (or_intror Ht)) st1) as (results & st2 & -> & Hlen & HP).
    exists (res :: results), st2. split; [reflexivity|]. split; [simpl; congruence|].
    intros a [->|Hin]; [|auto]. apply (H task (or_introl eq_refl) st a st1 E).
Qed.

Lemma gather_invariant {A} (I : State → Prop) (tasks : list (M A)) :
  (∀ task, In task tasks → ∀ st, I st → I (task st).2) →
  ∀ st, I st → I (gather tasks st).2.
Proof.
  induction tasks as [|task tasks IH]; intros H st Hst; [exact Hst|].
  cbn [gather]. pose proof (H task (or_introl eq_refl) st Hst) as H1.
  destruct (task st) as [res st1]. simpl in H1.
  pose proof (IH (fun t Ht => H t (or_intror Ht)) st1 H1) as H2.
  destruct (gather tasks st1) as [[results|e] st2]; exact H2.
Qed.

Lemma in_returned_trades results t :
  In t (returned_trades results) ↔ ∃ l, In (Return l) results ∧ In t l.
Proof.
  unfold returned_trades. rewrite in_flat_map. split.
  - intros ([l|e] & Hin & Ht); [eauto|destruct Ht].
  - intros (l & Hin & Ht). exists (Return l). auto.
Qed.

Lemma Trade_model_validate_timestamp d t :
  Trade_model_validate d = Some t → timestamp t = td_timestamp d.
Proof.
  unfold Trade_model_validate. intros H.
  destruct (convert_to_bytes (In_str (td_trader d))); [|discriminate].
  destruct (convert_to_bytes (In_str (td_subject d))); [|discriminate].
  simpl in H. injection H as <-. reflexivity.
Qed.

Lemma logs_result_timestamp signature ts logs trades l :
  logs_result chain signature ts logs trades = Return l →
  (∀ t, In t trades → timestamp t = ts) → ∀ t, In t l → timestamp t = ts.
Proof.
  revert trades. induction logs as [|log rest IH]; intros trades; cbn [logs_result].
  - intros [= <-]. auto.
  - destruct (topics log) as [|topic0 ?]; [discriminate|].
    destruct (String.eqb (to_hex topic0) signature); [|apply IH].
    destruct (process_log chain log) as [ev|]; [|discriminate].
    destruct (Trade_model_validate _) as [trade|] eqn:E; [|discriminate].
    intros H Htr. apply (IH _ H). intros t Hin. apply in_app_or in Hin as [Hin|[<-|[]]]; [auto|].
    apply Trade_model_validate_timestamp in E. exact E.
Qed.

Lemma decode_trade_events_timestamp transaction ts st trades st' :
  _decode_trade_events chain transaction ts st = (Return trades, st') →
  ∀ t, In t trades → timestamp t = ts.
Proof.
  unfold _decode_trade_events, on_exception.
  apply (retry_return_inv (decode_trade_events_once chain transaction ts)
           (fun l => ∀ t, In t l → timestamp t = ts)).
  intros s l s' H. apply decode_once_return in H as (rpc & self' & r & _ & _ & Hres).
  unfold receipt_result in Hres. destruct (status r =? 1).
  - apply (logs_result_timestamp _ _ _ _ _ Hres). intros t [].
  - injection Hres as <-. intros t [].
Qed.

(** An attempt at a block that returns was served the block. *)
Lemma filter_once_return block_number st relevant ts st' :
  filter_transactions_once chain block_number st = (Return (relevant, ts), st') →
  ∃ k rpc block, eth_get_block chain k rpc block_number = Some block
    ∧ ts = block_timestamp block
    ∧ ∀ tx, In tx relevant → In tx (transactions block).
Proof.
  unfold filter_transactions_once, _get_w3, bind, time, try_except, call. simpl.
  destruct (select (scanner st) (clock chain (tick st))) as [[rpc self']|e]; simpl;
    [|discriminate].
  destruct (eth_get_block chain (S (tick st)) rpc block_number) as [block|] eqn:E; simpl;
    [|discriminate].
  intros [= <- <- _]. exists (S (tick st)), rpc, block. split; [exact E|].
  split; [reflexivity|]. intros tx Hin. apply filter_In in Hin. tauto.
Qed.

End Signature.

(** X8.  [to_hex] writes lower-case digits only, so a configured event
    signature that holds a capital letter equals the first topic of no
    log: every decode that returns, returns no trade. *)
Theorem X8_signature_with_capitals_matches_no_log (chain : Scanner.Chain)
  (transaction : Scanner.Transaction) (timestamp : Z) (st st' : Scanner.State)
  (trades : list Trade) :
  lower (Scanner.event_signature_hash (Scanner.scanner st))
    ≠ Scanner.event_signature_hash (Scanner.scanner st) →
  Scanner._decode_trade_events chain transaction timestamp st = (Py.Return trades, st') →
  trades = [].
Proof.
  intros Hne. unfold Scanner._decode_trade_events, Scanner.on_exception.
  apply (retry_return_invariant
           (Scanner.decode_trade_events_once chain transaction timestamp)
           (fun s => config (Scanner.scanner s) = config (Scanner.scanner st))
           (fun l => l = [])); [|reflexivity].
  intros s r s' Hs Hrun. split.
  - rewrite <- Hs. pose proof (decode_once_config chain transaction timestamp s) as H.
    by rewrite Hrun in H.
  - intros l ->. apply decode_once_return in Hrun as (rpc & self' & rc & Hsel & _ & Hres).
    apply select_config in Hsel.
    assert (Scanner.event_signature_hash self'
            = Scanner.event_signature_hash (Scanner.scanner st)) as Hsig.
    { assert (config self' = config (Scanner.scanner st)) as Hc by congruence.
      unfold config in Hc. congruence. }
    rewrite Hsig in Hres. unfold receipt_result in Hres.
    destruct (Scanner.status rc =? 1); [|congruence].
    apply (logs_result_no_match chain) in Hres; [exact Hres|].
    intros topic. by apply to_hex_never_equals.
Qed.

Lemma X8_signature_with_capitals_matches_no_log_witness :
  lower (Scanner.event_signature_hash (Scanner.scanner capital_state))
    ≠ Scanner.event_signature_hash (Scanner.scanner capital_state)
  ∧ (Scanner._decode_trade_events (sample_chain 1 "0x02") sample_transaction 77
       capital_state).1
    = Py.Return [].
Proof.
  split; [discriminate|].
  destruct (Scanner._decode_trade_events (sample_chain 1 "0x02") sample_transaction 77
              capital_state) as [[l|e] st'] eqn:E.
  - simpl. f_equal.
    refine (X8_signature_with_capitals_matches_no_log (sample_chain 1 "0x02")
              sample_transaction 77 capital_state st' l _ E).
    discriminate.
  - exfalso. revert E. vm_compute. discriminate.
Defined.

(** X9.  Every trade that [get_trades] returns for a block number carries
    the timestamp of a block that an endpoint served for that number,
    whatever the endpoints did in between. *)
Theorem X9_trades_carry_the_block_timestamp (chain : Scanner.Chain)
  (block_number : Z) (st st' : Scanner.State) (trades : list Trade) :
  Scanner.get_trades chain block_number st = (Py.Return trades, st') →
  ∃ k rpc block,
    Scanner.eth_get_block chain k rpc block_number = Some block
    ∧ ∀ t, In t trades → timestamp t = Scanner.block_timestamp block.
Proof.
  unfold Scanner.get_trades, Scanner.bind.
  destruct (Scanner._filter_transactions chain block_number st)
    as [[[relevant ts]|e] st1] eqn:E1; [|discriminate].
  assert (∃ k rpc block, Scanner.eth_get_block chain k rpc block_number = Some block
            ∧ ts = Scanner.block_timestamp block) as (k & rpc & block & Hb & ->).
  { revert E1. unfold Scanner._filter_transactions, Scanner.on_exception.
    apply (retry_return_inv (Scanner.filter_transactions_once chain block_number)
             (fun found => ∃ k rpc block,
                Scanner.eth_get_block chain k rpc block_number = Some block
                ∧ found.2 = Scanner.block_timestamp block)).
    intros s [rel t0] s' H. apply filter_once_return in H as (k & rpc & block & H1 & H2 & _).
    exists k, rpc, block. auto. }
  destruct (gather_results
              (fun l => ∀ t, In t l → timestamp t = Scanner.block_timestamp block)
              (map (fun tx => Scanner._decode_trade_events chain tx
                                (Scanner.block_timestamp block)) relevant))
    with (st := st1) as (results & st2 & -> & _ & HP).
  { intros task Hin s l s' Hrun. apply in_map_iff in Hin as (tx & <- & _).
    exact (decode_trade_events_timestamp _ _ _ _ _ _ Hrun). }
  destruct (collect_spec results [] st2) as (st3 & -> & _).
  intros [= <- _]. exists k, rpc, block. split; [exact Hb|].
  intros t Ht. simpl in Ht. apply in_returned_trades in Ht as (l & Hl & Ht).
  by apply (HP l).
Qed.

Lemma X9_trades_carry_the_block_timestamp_witness :
  (Scanner.get_trades (sample_chain 1 "0x02") 7 sample_state).1
  = Py.Return [sample_trade_of x01 x0a 77]
  ∧ ∃ k rpc block,
      Scanner.eth_get_block (sample_chain 1 "0x02") k rpc 7 = Some block
      ∧ ∀ t, In t [sample_trade_of x01 x0a 77] → timestamp t = Scanner.block_timestamp block.
Proof.
  assert ((Scanner.get_trades (sample_chain 1 "0x02") 7 sample_state).1
          = Py.Return [sample_trade_of x01 x0a 77]) as H by (vm_compute; reflexivity).
  split; [exact H|].
  destruct (Scanner.get_trades (sample_chain 1 "0x02") 7 sample_state) as [res st'] eqn:E.
  simpl in H. subst res.
  exact (X9_trades_carry_the_block_timestamp (sample_chain 1 "0x02") 7 sample_state st' _ E).
Defined.

Section BlockFetch.
Import Py Scanner.

Variable chain : Chain.

Lemma is_relevant_config self self' tx :
  config self = config self' → is_relevant self tx = is_relevant self' tx.
Proof. unfold config, is_relevant. intros [= -> _ _]. reflexivity. Qed.

Lemma filter_once_fails block_number st0 i st :
  after_failures block_number st0 i st →
  (∀ rpc, eth_get_block chain (tick st0 + 3 * i + 1)%nat rpc block_number = None) →
  ∃ st', filter_transactions_once chain block_number st = (Raise RpcError, st')
    ∧ after_failures block_number st0 (S i) st'.
Proof.
  intros (Hsel & Hcfg & Htick & Hlog & Hfail & Hreq) Hnone.
  destruct (select_total (scanner st) (clock chain (tick st)) Hsel) as (rpc & Hs & _).
  eexists. split.
  - unfold filter_transactions_once, _get_w3, bind, time, try_except, call. simpl.
    rewrite Hs. simpl. replace (S (tick st)) with (tick st0 + 3 * i + 1)%nat by lia.
    rewrite Hnone. simpl. reflexivity.
  - unfold after_failures. simpl. split; [by apply set_selected_selectable|].
    split; [exact Hcfg|]. split; [lia|]. split.
    + rewrite Hlog, <- app_assoc. f_equal. symmetry. apply repeat_cons.
    + rewrite failures_recorded_backoff, requests_counted_backoff,
        failures_recorded_selected, requests_counted_selected. lia.
Qed.

Lemma filter_once_returns block_number block st0 i st :
  after_failures block_number st0 i st →
  (∀ rpc, eth_get_block chain (tick st0 + 3 * i + 1)%nat rpc block_number = Some block) →
  ∃ st', filter_transactions_once chain block_number st
         = (Return (List.filter (is_relevant (scanner st0)) (transactions block),
                    block_timestamp block), st')
    ∧ tick st' = (tick st0 + 3 * i + 2)%nat
    ∧ logged st' = logged st0 ++ repeat (Failed_to_filter block_number RpcError) i
    ∧ failures_recorded (scanner st') = (failures_recorded (scanner st0) + i)%nat
    ∧ requests_counted (scanner st') = requests_counted (scanner st0) + Z.of_nat i + 1.
Proof.
  intros (Hsel & Hcfg & Htick & Hlog & Hfail & Hreq) Hsome.
  destruct (select_total (scanner st) (clock chain (tick st)) Hsel) as (rpc & Hs & _).
  eexists. split.
  - unfold filter_transactions_once, _get_w3, bind, time, try_except, call. simpl.
    rewrite Hs. simpl. replace (S (tick st)) with (tick st0 + 3 * i + 1)%nat by lia.
    rewrite Hsome. simpl.
    rewrite (filter_ext _ (is_relevant (scanner st0)));
      [reflexivity|intros tx; apply is_relevant_config; exact Hcfg].
  - simpl. split; [lia|]. split; [exact Hlog|].
    rewrite failures_recorded_selected, requests_counted_selected. lia.
Qed.

End BlockFetch.

(** X10.  The fetch of a block is retried until it is served: when the
    endpoints fail its first [k] attempts, [k] below [max_tries], and
    serve the next one, [_filter_transactions] returns the relevant
    transactions and the timestamp of the served block, having logged [k]
    failures, recorded [k] failures against the endpoints and counted
    [k + 1] requests. *)
Theorem X10_block_fetch_retried_until_served (chain : Scanner.Chain)
  (block_number : Z) (block : Scanner.Block) (st : Scanner.State) (k : nat) :
  selectable (Scanner.scanner st) →
  (N.of_nat k < Scanner.max_tries)%N →
  (∀ i rpc, (i < k)%nat →
     Scanner.eth_get_block chain (Scanner.tick st + 3 * i + 1)%nat rpc block_number = None) →
  (∀ rpc, Scanner.eth_get_block chain (Scanner.tick st + 3 * k + 1)%nat rpc block_number
          = Some block) →
  ∃ st', Scanner._filter_transactions chain block_number st
         = (Py.Return (List.filter (Scanner.is_relevant (Scanner.scanner st))
                                   (Scanner.transactions block),
                       Scanner.block_timestamp block), st')
    ∧ Scanner.logged st'
      = Scanner.logged st ++ repeat (Scanner.Failed_to_filter block_number Scanner.RpcError) k
    ∧ failures_recorded (Scanner.scanner st')
      = (failures_recorded (Scanner.scanner st) + k)%nat
    ∧ requests_counted (Scanner.scanner st')
      = requests_counted (Scanner.scanner st) + Z.of_nat k + 1.
Proof.
  intros Hsel Hk Hnone Hsome.
  assert (k ≤ N.to_nat Scanner.max_tries - 1)%nat as Hle.
  { rewrite <- (N2Nat.id Scanner.max_tries) in Hk.
    revert Hk. generalize (N.to_nat Scanner.max_tries). intros n. lia. }
  unfold Scanner._filter_transactions, Scanner.on_exception.
  revert Hle. generalize (N.to_nat Scanner.max_tries - 1)%nat. intros extra Hle.
  destruct (retry_fails_then_returns
              (Scanner.filter_transactions_once chain block_number)
              (after_failures block_number st)
              (fun st' =>
                 Scanner.logged st'
                 = Scanner.logged st
                   ++ repeat (Scanner.Failed_to_filter block_number Scanner.RpcError) k
                 ∧ failures_recorded (Scanner.scanner st')
                   = (failures_recorded (Scanner.scanner st) + k)%nat
                 ∧ requests_counted (Scanner.scanner st')
                   = requests_counted (Scanner.scanner st) + Z.of_nat k + 1)
              k extra
              (List.filter (Scanner.is_relevant (Scanner.scanner st))
                           (Scanner.transactions block),
               Scanner.block_timestamp block) Hle) with (st := st) as (st' & H & HQ).
  - intros i s Hi Hs.
    destruct (filter_once_fails chain block_number st i s Hs) as (s' & E & Hs');
      [intros rpc; by apply Hnone|]. eauto.
  - intros s Hs.
    destruct (filter_once_returns chain block_number block st k s Hs Hsome)
      as (s' & E & _ & H1 & H2 & H3). eauto.
  - split; [exact Hsel|]. split; [reflexivity|]. split; [lia|].
    split; [symmetry; apply app_nil_r|]. split; lia.
  - eauto.
Qed.

Lemma X10_block_fetch_retried_until_served_witness :
  selectable (Scanner.scanner sample_state)
  ∧ (N.of_nat 2 < Scanner.max_tries)%N
  ∧ ∃ st', Scanner._filter_transactions (flaky_chain 2) 7 sample_state
           = (Py.Return ([sample_transaction], 77), st')
      ∧ length (Scanner.logged st') = 2%nat
      ∧ failures_recorded (Scanner.scanner st') = 2%nat.
Proof.
  split; [exact sample_state_selectable|]. split; [reflexivity|].
  destruct (X10_block_fetch_retried_until_served (flaky_chain 2) 7
              {| Scanner.block_timestamp := 77;
                 Scanner.transactions := [sample_transaction] |}
              sample_state 2 sample_state_selectable eq_refl)
    as (st' & H & Hlog & Hfail & _).
  - intros i rpc Hi. destruct i as [|[|i]]; [reflexivity|reflexivity|lia].
  - intros rpc. reflexivity.
  - exists st'. split; [exact H|]. split; [rewrite Hlog; reflexivity|].
    rewrite Hfail. reflexivity.
Defined.

(** X25.  From a scanner that can select, [get_trades] leaves a scanner
    that can select, with the same configuration, whatever the endpoints
    answer; and the only exception it lets out is the failure of the fetch
    of the block: the exceptions of the decodes are gathered and logged. *)
Theorem X25_get_trades_keeps_the_scanner_ready (chain : Scanner.Chain)
  (block_number : Z) (st : Scanner.State) :
  selectable (Scanner.scanner st) →
  ready_as st (Scanner.get_trades chain block_number st).2
  ∧ ∀ e, (Scanner.get_trades chain block_number st).1 = Py.Raise e → e = Scanner.RpcError.
Proof.
  intros Hsel. assert (ready_as st st) as Hst by (split; [exact Hsel|reflexivity]).
  unfold Scanner.get_trades, Scanner.bind.
  destruct (retry_invariant (Scanner.filter_transactions_once chain block_number)
              (ready_as st) (fun e => e = Scanner.RpcError)
              (filter_once_ready chain st block_number)
              (N.to_nat Scanner.max_tries - 1) st Hst) as [H1 H2].
  fold (Scanner.on_exception (Scanner.filter_transactions_once chain block_number)) in H1, H2.
  fold (Scanner._filter_transactions chain block_number) in H1, H2.
  destruct (Scanner._filter_transactions chain block_number st) as [[[relevant ts]|e] st1];
    simpl in H1, H2; [|split; [exact H1|intros e' [= <-]; by apply H2]].
  assert (∀ task,
            In task (map (fun tx => Scanner._decode_trade_events chain tx ts) relevant) →
            ∀ s, ready_as st s → ready_as st (task s).2) as Htasks.
  { intros task Hin s Hs. apply in_map_iff in Hin as (tx & <- & _).
    apply (retry_invariant (Scanner.decode_trade_events_once chain tx ts) (ready_as st)
             (fun _ => True)); [|exact Hs].
    intros s' Hs'. split; [by apply decode_once_ready|auto]. }
  pose proof (gather_invariant (ready_as st) _ Htasks st1 H1) as Hg.
  destruct (gather_results (fun _ => True)
              (map (fun tx => Scanner._decode_trade_events chain tx ts) relevant)
              (fun _ _ _ _ _ _ => I) st1) as (results & st2 & Hrun & _).
  rewrite Hrun in Hg |- *. simpl in Hg.
  destruct (collect_spec results [] st2) as (st3 & -> & Hsc & _). simpl.
  split; [|discriminate]. unfold ready_as. rewrite Hsc. exact Hg.
Qed.

Lemma X25_get_trades_keeps_the_scanner_ready_witness :
  selectable (Scanner.scanner sample_state)
  ∧ ready_as sample_state (Scanner.get_trades (sample_chain 1 "0x02") 7 sample_state).2.
Proof.
  split; [exact sample_state_selectable|].
  exact (proj1 (X25_get_trades_keeps_the_scanner_ready (sample_chain 1 "0x02") 7
                  sample_state sample_state_selectable)).
Defined.

Section ReadsOnce.
Import Py Scanner.

Variable chain : Chain.
Variable node : Node.

Lemma get_w3_selected st :
  selectable (scanner st) →
  ∃ rpc, _get_w3 chain st
         = (Return rpc,
            {| scanner := set_selected (scanner st) rpc (clock chain (tick st));
               tick := S (tick st); logged := logged st |}).
Proof.
  intros Hsel. destruct (select_total (scanner st) (clock chain (tick st)) Hsel)
    as (rpc & Hs & _).
  exists rpc. unfold _get_w3, bind, time. simpl. rewrite Hs. reflexivity.
Qed.

Lemma get_balance_once address s :
  selectable (scanner (session_state s)) →
  made_once (Failed_to_get_balance address) s (get_balance chain node address s).
Proof.
  intros Hsel. destruct (get_w3_selected _ Hsel) as (rpc & Hw).
  unfold get_balance, made_once. rewrite Hw.
  destruct (to_checksum_address node address) as [checksum_address|].
  - unfold call. simpl.
    destruct (eth_get_balance node _ rpc checksum_address); simpl.
    + rewrite requests_counted_selected. auto.
    + rewrite requests_counted_backoff, requests_counted_selected,
        failures_recorded_backoff, failures_recorded_selected. auto.
  - simpl. rewrite requests_counted_backoff, requests_counted_selected,
      failures_recorded_backoff, failures_recorded_selected. auto.
Qed.

Lemma get_last_block_number_once s :
  selectable (scanner (session_state s)) →
  made_once Failed_to_get_last_block_number s (get_last_block_number chain node s).
Proof.
  intros Hsel. destruct (get_w3_selected _ Hsel) as (rpc & Hw).
  unfold get_last_block_number, made_once. rewrite Hw. unfold call. simpl.
  destruct (eth_get_block_number node _ rpc); simpl.
  - rewrite requests_counted_selected. auto.
  - rewrite requests_counted_backoff, requests_counted_selected,
      failures_recorded_backoff, failures_recorded_selected. auto.
Qed.

End ReadsOnce.

(** X11.  [get_balance] and [get_last_block_number] are made once, with
    no retry: one request is counted; a read that returns records
    nothing; a read that raises, be it for the endpoint or for an address
    text that [to_checksum_address] refuses, records one failure against
    the endpoint, writes one error record and lets the exception out. *)
Theorem X11_reads_made_once (chain : Scanner.Chain) (node : Scanner.Node)
  (address : string) (s : Scanner.Session) :
  selectable (Scanner.scanner (Scanner.session_state s)) →
  made_once (Scanner.Failed_to_get_balance address) s
            (Scanner.get_balance chain node address s)
  ∧ made_once Scanner.Failed_to_get_last_block_number s
              (Scanner.get_last_block_number chain node s).
Proof.
  intros Hsel. split; [by apply get_balance_once|by apply get_last_block_number_once].
Qed.

Lemma X11_reads_made_once_witness :
  selectable (Scanner.scanner (Scanner.session_state sample_session))
  ∧ (Scanner.get_balance (sample_chain 1 "0x02") strict_node "0x01" sample_session).1
    = Py.Raise Scanner.Invalid_address
  ∧ made_once (Scanner.Failed_to_get_balance "0x01") sample_session
              (Scanner.get_balance (sample_chain 1 "0x02") strict_node "0x01" sample_session).
Proof.
  split; [exact sample_state_selectable|]. split; [vm_compute; reflexivity|].
  exact (proj1 (X11_reads_made_once (sample_chain 1 "0x02") strict_node "0x01"
                  sample_session sample_state_selectable)).
Defined.

(** ** The order of the endpoints *)

Section KeyOrder.
Import Py Scanner.

Lemma Qltb_spec a b : Qltb a b = true ↔ (a < b)%Q.
Proof.
  unfold Qltb. rewrite negb_true_iff. split.
  - intros H. apply Qnot_le_lt. intros Hle. apply Qle_bool_iff in Hle. congruence.
  - intros H. destruct (Qle_bool b a) eqn:E; [|reflexivity].
    apply Qle_bool_iff in E. exfalso. exact (Qlt_not_le _ _ H E).
Qed.

(** The order of the keys, component by component. *)
Lemma key_lt_spec a1 a2 a3 b1 b2 b3 :
  key_lt (a1, a2, a3) (b1, b2, b3) = true ↔
  (a1 < b1)%Q ∨ ((a1 == b1)%Q ∧ ((a2 < b2)%Q ∨ ((a2 == b2)%Q ∧ a3 < b3))).
Proof.
  unfold key_lt.
  destruct (Qeq_bool a1 b1) eqn:E1; simpl.
  - apply Qeq_bool_iff in E1. destruct (Qeq_bool a2 b2) eqn:E2; simpl.
    + apply Qeq_bool_iff in E2. rewrite Z.ltb_lt. split; [auto|].
      intros [H|(_ & [H|(_ & H)])]; [| |exact H].
      * rewrite E1 in H. exfalso. exact (Qlt_irrefl _ H).
      * rewrite E2 in H. exfalso. exact (Qlt_irrefl _ H).
    + apply Qeq_bool_neq in E2. rewrite Qltb_spec. split; [auto|].
      intros [H|(_ & [H|(H & _)])]; [|exact H|contradiction].
      rewrite E1 in H. exfalso. exact (Qlt_irrefl _ H).
  - apply Qeq_bool_neq in E1. rewrite Qltb_spec. split; [auto|].
    intros [H|(H & _)]; [exact H|contradiction].
Qed.

Lemma key_lt_asym a b : key_lt a b = true → key_lt b a = false.
Proof.
  destruct a as [[a1 a2] a3], b as [[b1 b2] b3]. intros H.
  apply not_true_is_false. intros H'. apply key_lt_spec in H, H'.
  destruct H as [H|(He & [H|(He2 & H)])], H' as [H'|(He' & [H'|(He2' & H')])];
    try lra; lia.
Qed.

(** A key that is not above a second one, which is not above a third, is
    not above the third. *)
Lemma key_lt_negative_trans a b c :
  key_lt b a = false → key_lt c b = false → key_lt c a = false.
Proof.
  destruct a as [[a1 a2] a3], b as [[b1 b2] b3], c as [[c1 c2] c3]. intros Hba Hcb.
  apply not_true_is_false. intros Hca.
  apply not_true_iff_false in Hba, Hcb. rewrite key_lt_spec in Hba, Hcb.
  apply key_lt_spec in Hca.
  destruct (Q_dec b1 a1) as [[H1|H1]|H1]; [tauto| |];
    (destruct (Q_dec c1 b1) as [[G1|G1]|G1]; [tauto| |]);
    try (destruct Hca as [Hca|(Hce & _)]; lra).
  destruct (Q_dec b2 a2) as [[H2|H2]|H2]; [tauto| |];
    (destruct (Q_dec c2 b2) as [[G2|G2]|G2]; [tauto| |]);
    try (destruct Hca as [Hca|(Hce & [Hca|(Hce2 & Hca)])]; lra).
  assert (¬ b3 < a3) by tauto. assert (¬ c3 < b3) by tauto.
  destruct Hca as [Hca|(Hce & [Hca|(Hce2 & Hca)])]; try lra. lia.
Qed.

(** The head of the sorted list is not above any element. *)
Lemma sorted_head_least (l : list (sort_key * string)) m rest :
  sorted l = m :: rest → ∀ x, In x l → key_lt (fst x) (fst m) = false.
Proof.
  revert m rest. induction l as [|y l IH]; intros m rest; [discriminate|].
  cbn [sorted]. destruct (sorted l) as [|h tl] eqn:E.
  - intros [= <- <-] x [<-|Hx]; [apply key_lt_irrefl|].
    apply in_sorted in Hx. rewrite E in Hx. destruct Hx.
  - cbn [insert_by_key]. destruct (key_lt (fst h) (fst y)) eqn:Hlt.
    + intros [= <- <-] x [<-|Hx]; [by apply key_lt_asym|]. by apply (IH h tl).
    + intros [= <- <-] x [<-|Hx]; [apply key_lt_irrefl|].
      apply (key_lt_negative_trans _ (fst h)); [exact Hlt|]. by apply (IH h tl).
Qed.

(** The keyed list that is sorted. *)
Lemma keyed_spec self t l keyed :
  mapM (fun rpc => key ← key_of self t rpc; Some (key, rpc)) l = Some keyed →
  keyed = map (fun rpc => (key_at self t rpc, rpc)) l.
Proof.
  intros H. apply mapM_Some in H. induction H as [|rpc x l l' Hx H IH]; [reflexivity|].
  simpl. rewrite <- IH. f_equal. unfold key_of in Hx.
  destruct (last_selected self !! rpc) as [sel|] eqn:E; [|discriminate].
  injection Hx as <-. unfold key_at. rewrite E. reflexivity.
Qed.

Lemma mapM_key_None self t l rpc :
  In rpc l → last_selected self !! rpc = None →
  mapM (fun rpc => key ← key_of self t rpc; Some (key, rpc)) l = None.
Proof.
  intros Hin Hnone. apply mapM_None. apply Exists_exists. exists rpc.
  split; [by apply list_elem_of_In|]. unfold key_of. rewrite Hnone. reflexivity.
Qed.

Lemma select_return_selectable self t rpc self' :
  select self t = Return (rpc, self') → selectable self.
Proof.
  unfold select. destruct (mapM _ (rpcs self)) as [keyed|] eqn:Hk; [|discriminate].
  destruct (sorted keyed) as [|[k r] rest] eqn:Hs; [discriminate|]. intros _. split.
  - intros Hnil. rewrite Hnil in Hk. injection Hk as <-. discriminate.
  - intros r0 Hin. destruct (last_selected self !! r0) eqn:E; [eauto|].
    rewrite (mapM_key_None self t _ r0 Hin E) in Hk. discriminate.
Qed.

End KeyOrder.

(** X12.  The endpoint that [select] returns is one of the configured
    endpoints, and no configured endpoint has a smaller sort key: none was
    selected longer ago, and among those selected at the same time none
    has a lower failure ratio, or the same ratio and fewer requests. *)
Theorem X12_selected_endpoint_is_least (self self' : Scanner.Scanner) (t : Q)
  (rpc : string) :
  Scanner.select self t = Py.Return (rpc, self') →
  In rpc (Scanner.rpcs self)
  ∧ ∀ other, In other (Scanner.rpcs self) →
      Scanner.key_lt (key_at self t other) (key_at self t rpc) = false.
Proof.
  unfold Scanner.select.
  destruct (mapM _ (Scanner.rpcs self)) as [keyed|] eqn:Hk; [|discriminate].
  apply keyed_spec in Hk. subst keyed.
  destruct (Scanner.sorted _) as [|[k r] rest] eqn:Hs; [discriminate|].
  intros [= -> _].
  assert (In (k, rpc) (map (fun rpc => (key_at self t rpc, rpc)) (Scanner.rpcs self)))
    as Hin by (apply in_sorted; rewrite Hs; simpl; auto).
  apply in_map_iff in Hin as (r & [= <- ->] & Hrpc). split; [exact Hrpc|].
  intros other Hother.
  apply (sorted_head_least _ _ _ Hs (key_at self t other, other)).
  apply in_map_iff. eauto.
Qed.

Lemma X12_selected_endpoint_is_least_witness :
  ∃ rpc, Scanner.select tied_pool 101 = Py.Return (rpc, Scanner.set_selected tied_pool rpc 101)
    ∧ In rpc (Scanner.rpcs tied_pool)
    ∧ ∀ other, In other (Scanner.rpcs tied_pool) →
        Scanner.key_lt (key_at tied_pool 101 other) (key_at tied_pool 101 rpc) = false.
Proof.
  assert (selectable tied_pool) as Hsel.
  { split; [discriminate|]. intros rpc [<-|[<-|[]]]; vm_compute; eauto. }
  destruct (select_total tied_pool 101 Hsel) as (rpc & Hs & _).
  exists rpc. split; [exact Hs|].
  exact (X12_selected_endpoint_is_least tied_pool _ 101 rpc Hs).
Defined.

(** X13.  [select] returns, with the counters of the chosen endpoint
    updated, exactly when there is an endpoint and every endpoint has a
    last-selected time; with no endpoint it raises [IndexError], and with
    an endpoint that has no last-selected time it raises [KeyError]. *)
Theorem X13_select_returns_iff_selectable (self : Scanner.Scanner) (t : Q) :
  (selectable self ↔
   ∃ rpc, Scanner.select self t = Py.Return (rpc, Scanner.set_selected self rpc t))
  ∧ (Scanner.rpcs self = [] → Scanner.select self t = Py.Raise Scanner.IndexError)
  ∧ (∀ rpc, In rpc (Scanner.rpcs self) → Scanner.last_selected self !! rpc = None →
       Scanner.select self t = Py.Raise Scanner.KeyError).
Proof.
  split; [split|split].
  - intros H. destruct (select_total self t H) as (rpc & Hs & _). eauto.
  - intros (rpc & Hs). by apply select_return_selectable in Hs.
  - intros Hnil. unfold Scanner.select. rewrite Hnil. reflexivity.
  - intros rpc Hin Hnone. unfold Scanner.select.
    by rewrite (mapM_key_None self t _ rpc Hin Hnone).
Qed.

(** ** The bonding curve *)

Section Curve.
Import Contract.

Lemma squares_below_shift (s s' a : nat) :
  (s ≤ s')%nat →
  squares_below (s + a) - squares_below s ≤ squares_below (s' + a) - squares_below s'.
Proof.
  intros Hle. induction a as [|a IH].
  - rewrite !Nat.add_0_r. lia.
  - replace (s + S a)%nat with (S (s + a)) by lia.
    replace (s' + S a)%nat with (S (s' + a)) by lia.
    cbn [squares_below]. nia.
Qed.

End Curve.

(** X14.  The base price is additive along the curve: the price of
    [amount1 + amount2] shares at a supply is the price of [amount1]
    shares at that supply plus the price of [amount2] shares at the supply
    then reached. *)
Theorem X14_price_of_two_purchases (supply amount1 amount2 : Z) :
  0 ≤ supply → 1 ≤ amount1 → 1 ≤ amount2 →
  Contract.calc_price supply (amount1 + amount2)
  = Contract.calc_price supply amount1 + Contract.calc_price (supply + amount1) amount2.
Proof.
  intros Hs H1 H2. rewrite !calc_price_sum by lia.
  replace (supply + amount1 + amount2) with (supply + (amount1 + amount2)) by lia. ring.
Qed.

Lemma X14_price_of_two_purchases_witness :
  0 ≤ 3 ∧ 1 ≤ 2 ∧ 1 ≤ 4
  ∧ Contract.calc_price 3 (2 + 4)
    = Contract.calc_price 3 2 + Contract.calc_price (3 + 2) 4.
Proof.
  split; [lia|]. split; [lia|]. split; [lia|].
  apply (X14_price_of_two_purchases 3 2 4); lia.
Defined.

(** X15.  The base price is never negative, grows with the supply, and is
    zero for the first share only (supply 0, amount 1). *)
Theorem X15_price_grows_with_supply (supply supply' amount : Z) :
  0 ≤ supply → supply ≤ supply' → 1 ≤ amount →
  0 ≤ Contract.calc_price supply amount
  ∧ Contract.calc_price supply amount ≤ Contract.calc_price supply' amount
  ∧ (Contract.calc_price supply amount = 0 ↔ supply = 0 ∧ amount = 1).
Proof.
  intros Hs Hle Ha. rewrite !calc_price_sum by lia.
  change (10 ^ 18 / 16000) with 62500000000000.
  destruct (squares_window (Z.to_nat supply) (Z.to_nat amount)) as [H1 H2].
  pose proof (squares_below_shift (Z.to_nat supply) (Z.to_nat supply') (Z.to_nat amount)
                ltac:(lia)) as H3.
  replace (Z.to_nat supply + Z.to_nat amount)%nat with (Z.to_nat (supply + amount))
    in H1, H2, H3 by lia.
  replace (Z.to_nat supply' + Z.to_nat amount)%nat with (Z.to_nat (supply' + amount))
    in H3 by lia.
  rewrite !Z2Nat.id in H1 by lia.
  pose proof (squares_below_mono 0 (Z.to_nat amount) ltac:(lia)) as H0.
  change (squares_below 0) with 0 in H0.
  split; [nia|]. split; [nia|]. split.
  - intros Hz.
    assert (squares_below (Z.to_nat (supply + amount)) - squares_below (Z.to_nat supply) = 0)
      as Hz' by nia.
    assert (supply = 0) as -> by nia. split; [reflexivity|].
    destruct (Z_le_gt_dec amount 1) as [|Hgt]; [lia|]. exfalso.
    pose proof (squares_below_mono 2 (Z.to_nat amount) ltac:(lia)) as Hm.
    change (squares_below 2) with 1 in Hm. lia.
  - intros [-> ->]. reflexivity.
Qed.

Lemma X15_price_grows_with_supply_witness :
  0 ≤ 1 ∧ 1 ≤ 2 ∧ 1 ≤ 1
  ∧ 0 ≤ Contract.calc_price 1 1
  ∧ Contract.calc_price 1 1 ≤ Contract.calc_price 2 1.
Proof.
  split; [lia|]. split; [lia|]. split; [lia|].
  destruct (X15_price_grows_with_supply 1 2 1 ltac:(lia) ltac:(lia) ltac:(lia))
    as (H1 & H2 & _).
  split; [exact H1|exact H2].
Defined.

(** ** The two halves of [handle_block_range] *)

Section Independence.
Import Py Db Utils.

Variable fault : statement → bool.
Variable get_balance : string → option Z.

(** The statements on the shares read and write the shares only. *)
Lemma execute_all_beside_trades qs db T :
  Forall on_shares qs →
  execute_all fault qs (with_trades db T) = beside_trades (execute_all fault qs db) T.
Proof.
  intros Hqs. revert db. induction Hqs as [|q qs Hq _ IH]; intros db; [reflexivity|].
  cbn [execute_all].
  assert (execute fault q (with_trades db T)
          = match execute fault q db with
            | Return d => Return (with_trades d T)
            | Raise e => Raise e
            end) as ->.
  { unfold execute. destruct (fault q); [reflexivity|]. destruct q as [| c row | setters a].
    - destruct Hq.
    - simpl. unfold insert_row.
      destruct c, (unique_address db), (has_address (address row) (shares db)); reflexivity.
    - simpl. destruct (update_rows setters a (shares db)); reflexivity. }
  destruct (execute fault q db) as [d|e]; [apply IH|reflexivity].
Qed.

Lemma transaction_beside_trades qs db T :
  Forall on_shares qs →
  transaction (execute_all fault qs) (with_trades db T)
  = beside_trades (transaction (execute_all fault qs) db) T.
Proof.
  intros Hqs. unfold transaction. rewrite (execute_all_beside_trades qs db T Hqs).
  unfold beside_trades. destruct (execute_all fault qs db) as [[[]|e] d]; reflexivity.
Qed.

Lemma update_queries_on_shares l : Forall on_shares (update_queries l).
Proof.
  apply Forall_forall. intros q Hq. unfold update_queries in Hq.
  apply list_elem_of_omap in Hq as (s & _ & Hs).
  destruct (fields_to_update s); [discriminate|]. injection Hs as <-. exact I.
Qed.

Lemma insert_queries_on_shares l :
  Forall on_shares (map (Insert_share On_conflict_do_nothing) l).
Proof.
  apply Forall_forall. intros q Hq.
  apply list_elem_of_In, in_map_iff in Hq as (r & <- & _). exact I.
Qed.

Lemma update_shares_beside_trades db T l :
  update_shares fault (with_trades db T) l = beside_trades (update_shares fault db l) T.
Proof.
  unfold update_shares. destruct l as [|s l]; [reflexivity|].
  apply transaction_beside_trades, update_queries_on_shares.
Qed.

Lemma insert_shares_beside_trades db T l :
  insert_shares fault (with_trades db T) l = beside_trades (insert_shares fault db l) T.
Proof.
  unfold insert_shares, execute_many. destruct l as [|s l]; [reflexivity|].
  apply transaction_beside_trades, insert_queries_on_shares.
Qed.

Lemma write_with_beside_trades write db T l :
  (∀ d rows, write (with_trades d T) rows = beside_trades (write d rows) T) →
  write_with write (with_trades db T) l = beside_trades (write_with write db l) T.
Proof.
  intros Hw. unfold write_with. destruct l as [|s l]; [reflexivity|].
  destruct (mapM Share_of_data (s :: l)) as [valid|]; [|reflexivity].
  rewrite Hw. unfold beside_trades. destruct (write db valid) as [[[]|e] d]; reflexivity.
Qed.

Lemma process_beside_trades db T trades_in :
  process_trades_to_shares fault get_balance (with_trades db T) trades_in
  = beside_trades (process_trades_to_shares fault get_balance db trades_in) T.
Proof.
  unfold process_trades_to_shares.
  change (get_all_share_addresses (with_trades db T)) with (get_all_share_addresses db).
  destruct (classify _ _ _ _ _) as [[upd crt]|]; [|reflexivity].
  unfold write_shares.
  rewrite (write_with_beside_trades (update_shares fault) db T upd)
    by (intros; apply update_shares_beside_trades).
  destruct (write_with (update_shares fault) db upd) as [[[]|e] db1]; [|reflexivity].
  cbn [beside_trades fst snd].
  rewrite (write_with_beside_trades (insert_shares fault) db1 T crt)
    by (intros; apply insert_shares_beside_trades).
  destruct (write_with (insert_shares fault) db1 crt) as [[[]|e] db2]; reflexivity.
Qed.

(** The writes of the shares leave the trades and the constraints. *)
Lemma execute_all_only_shares qs db :
  Forall on_shares qs →
  (execute_all fault qs db).2 = with_shares db (shares (execute_all fault qs db).2).
Proof.
  intros Hqs. revert db. induction Hqs as [|q qs Hq _ IH]; intros db.
  - by destruct db.
  - cbn [execute_all]. destruct (execute fault q db) as [d|e] eqn:E; [|by destruct db].
    rewrite IH. simpl.
    assert (d = with_shares db (shares d)) as Hd.
    { revert E. unfold execute. destruct (fault q); [discriminate|].
      destruct q as [| c row | setters a]; [destruct Hq| |].
      - unfold insert_row.
        destruct c, (unique_address db), (has_address (address row) (shares db));
          intros [= <-]; by destruct db.
      - destruct (update_rows setters a (shares db)); intros [= <-]; reflexivity. }
    rewrite Hd at 1. reflexivity.
Qed.

Lemma transaction_only_shares qs db :
  Forall on_shares qs →
  (transaction (execute_all fault qs) db).2
  = with_shares db (shares (transaction (execute_all fault qs) db).2).
Proof.
  intros Hqs. pose proof (execute_all_only_shares qs db Hqs) as H. unfold transaction.
  destruct (execute_all fault qs db) as [[[]|e] d]; simpl in *; [exact H|by destruct db].
Qed.

Lemma update_shares_only_shares db l :
  (update_shares fault db l).2 = with_shares db (shares (update_shares fault db l).2).
Proof.
  unfold update_shares. destruct l as [|s l]; [by destruct db|].
  apply transaction_only_shares, update_queries_on_shares.
Qed.

Lemma insert_shares_only_shares db l :
  (insert_shares fault db l).2 = with_shares db (shares (insert_shares fault db l).2).
Proof.
  unfold insert_shares, execute_many. destruct l as [|s l]; [by destruct db|].
  apply transaction_only_shares, insert_queries_on_shares.
Qed.

Lemma write_with_only_shares write db l :
  (∀ d rows, (write d rows).2 = with_shares d (shares (write d rows).2)) →
  (write_with write db l).2 = with_shares db (shares (write_with write db l).2).
Proof.
  intros Hw. unfold write_with. destruct l as [|s l]; [by destruct db|].
  destruct (mapM Share_of_data (s :: l)) as [valid|]; [|by destruct db].
  specialize (Hw db valid). destruct (write db valid) as [[[]|e] d]; exact Hw.
Qed.

Lemma process_only_shares db trades_in :
  (process_trades_to_shares fault get_balance db trades_in).2
  = with_shares db (shares (process_trades_to_shares fault get_balance db trades_in).2).
Proof.
  unfold process_trades_to_shares.
  destruct (classify _ _ _ _ _) as [[upd crt]|]; [|by destruct db].
  unfold write_shares.
  pose proof (write_with_only_shares (update_shares fault) db upd
                (update_shares_only_shares)) as H1.
  destruct (write_with (update_shares fault) db upd) as [[[]|e] db1]; [|exact H1].
  pose proof (write_with_only_shares (insert_shares fault) db1 crt
                (insert_shares_only_shares)) as H2.
  simpl in H1.
  destruct (write_with (insert_shares fault) db1 crt) as [[[]|e] db2]; simpl in *;
    rewrite H2, H1; reflexivity.
Qed.

(** The insert of the trades reads and writes the trades only. *)
Lemma insert_trades_beside_shares db S batch :
  insert_trades fault (with_shares db S) batch
  = beside_shares (insert_trades fault db batch) S.
Proof.
  unfold insert_trades, execute_many, transaction.
  assert (∀ d, execute_all fault (map (Insert_trade No_conflict_clause) batch) (with_shares d S)
               = beside_shares (execute_all fault (map (Insert_trade No_conflict_clause) batch) d) S)
    as H.
  { induction batch as [|t batch IH]; intros d; [reflexivity|]. cbn [map execute_all].
    unfold execute. destruct (fault _); [reflexivity|]. simpl. unfold insert_row.
    destruct (unique_transaction_hash d && has_hash (transaction_hash t) (trades d));
      [reflexivity|].
    apply (IH (with_trades d (trades d ++ [t]))). }
  rewrite H. unfold beside_shares.
  destruct (execute_all fault _ db) as [[[]|e] d]; reflexivity.
Qed.

Lemma insert_trades_only_trades db batch :
  (insert_trades fault db batch).2 = with_trades db (trades (insert_trades fault db batch).2).
Proof.
  pose proof (insert_trades_result fault db batch) as H.
  destruct (insert_trades fault db batch) as [[[]|e] d]; simpl; subst d; by destruct db.
Qed.

(** A failed balance read is the only way to the outcome
    [Balance_read_raised]. *)
Lemma classify_None existing trades_in upd crt :
  classify get_balance existing trades_in upd crt = None
  ↔ ∃ t, In t trades_in ∧ get_balance (String.append "0x" (hexlify (subject t))) = None.
Proof.
  revert upd crt. induction trades_in as [|t rest IH]; intros upd crt; cbn [classify].
  - split; [discriminate|]. intros (t & [] & _).
  - destruct (get_balance (String.append "0x" (hexlify (subject t)))) as [b|] eqn:E;
      cbn [mbind option_bind].
    + destruct (bool_decide (subject t ∈ existing)); rewrite IH; split.
      * intros (t' & Hin & H). exists t'. simpl. auto.
      * intros (t' & [<-|Hin] & H); [congruence|eauto].
      * intros (t' & Hin & H). exists t'. simpl. auto.
      * intros (t' & [<-|Hin] & H); [congruence|eauto].
    + split; [|reflexivity]. intros _. exists t. simpl. auto.
Qed.

End Independence.

Section Fetch.
Import Py Scanner Cycle.

Lemma flat_trades_returned results : flat_trades results = returned_trades results.
Proof.
  unfold flat_trades, valid_trades, returned_trades.
  induction results as [|[[|t l]|e] results IH]; simpl; [reflexivity|exact IH| |exact IH].
  rewrite <- IH. reflexivity.
Qed.

Lemma length_range a b : length (Py.range a b) = Z.to_nat (b - a).
Proof. unfold Py.range. by rewrite length_map, length_seq. Qed.

End Fetch.

(** X16.  The fetch of [handle_block_range] runs one [get_trades] task
    per block of [range(start, end)] and raises nothing: its result is
    the trades of the tasks that returned, in block order; a block whose
    task raised adds nothing, and the test that drops the empty results
    changes nothing. *)
Theorem X16_fetch_keeps_the_returned_trades (chain : Scanner.Chain) (start end_ : Z)
  (st : Scanner.State) :
  ∃ results st',
    Scanner.gather (map (Scanner.get_trades chain) (Py.range start end_)) st
    = (Py.Return results, st')
    ∧ length results = Z.to_nat (end_ - start)
    ∧ Cycle.fetch_trades chain start end_ st = (Py.Return (returned_trades results), st')
    ∧ ∀ t, In t (returned_trades results) ↔ ∃ l, In (Py.Return l) results ∧ In t l.
Proof.
  destruct (gather_results (fun _ => True) (map (Scanner.get_trades chain) (Py.range start end_))
              (fun _ _ _ _ _ _ => I) st) as (results & st' & H & Hlen & _).
  exists results, st'. split; [exact H|]. split.
  - rewrite Hlen, length_map. apply length_range.
  - split; [|intros t; apply in_returned_trades].
    unfold Cycle.fetch_trades, Utils.handle_block_range. rewrite H.
    by rewrite flat_trades_returned.
Qed.

(** X17.  The two writes of [handle_block_range] are independent:
    [insert_trades] reads and writes the trades only, and
    [process_trades_to_shares] the shares only, so each has the same
    result whether the other ran before it or not, and both orders leave
    the same database.  In particular the shares are written even when the
    insert of the trades raised. *)
Theorem X17_the_two_writes_are_independent (fault : Db.statement → bool)
  (get_balance : string → option Z) (db : Db.Database) (flat_trades : list Trade) :
  let inserted := Db.insert_trades fault db flat_trades in
  let processed := Utils.process_trades_to_shares fault get_balance db flat_trades in
  let both := Db.with_shares inserted.2 (Db.shares processed.2) in
  Utils.process_trades_to_shares fault get_balance inserted.2 flat_trades = (processed.1, both)
  ∧ Db.insert_trades fault processed.2 flat_trades = (inserted.1, both)
  ∧ (flat_trades ≠ [] → Cycle.store_trades fault get_balance db flat_trades = both).
Proof.
  intros inserted processed both.
  pose proof (insert_trades_only_trades fault db flat_trades) as Hi.
  pose proof (process_only_shares fault get_balance db flat_trades) as Hp.
  fold inserted in Hi. fold processed in Hp.
  assert (Utils.process_trades_to_shares fault get_balance inserted.2 flat_trades
          = (processed.1, both)) as H1.
  { rewrite Hi, process_beside_trades. fold processed. unfold beside_trades, both.
    f_equal. rewrite Hp at 1. rewrite Hi at 2. reflexivity. }
  split; [exact H1|]. split.
  - unfold both. clear H1. set (rows := Db.shares processed.2) in *.
    rewrite Hp, insert_trades_beside_shares. reflexivity.
  - intros Hne. unfold Cycle.store_trades. destruct flat_trades as [|t l]; [congruence|].
    fold inserted. destruct inserted as [r d] eqn:E. simpl in H1. rewrite H1. reflexivity.
Qed.

(** X24.  [process_trades_to_shares] ends with the exception of a
    balance read exactly when the read fails for the subject of a
    representative trade, and then it has written nothing: every balance
    is read before the first write. *)
Theorem X24_failed_balance_read_writes_nothing (fault : Db.statement → bool)
  (get_balance : string → option Z) (db : Db.Database) (trades : list Trade) :
  let run := Utils.process_trades_to_shares fault get_balance db trades in
  (run.1 = Utils.Balance_read_raised
   ↔ ∃ t, In t (Utils.unique_most_recent_trades trades)
          ∧ get_balance (String.append "0x" (hexlify (subject t))) = None)
  ∧ (run.1 = Utils.Balance_read_raised → run.2 = db).
Proof.
  intros run. subst run. unfold Utils.process_trades_to_shares.
  destruct (Utils.classify get_balance _ _ [] []) as [[upd crt]|] eqn:E.
  - pose proof (write_shares_outcome fault db upd crt) as Hout.
    split; [|intros H; contradiction]. split; [intros H; contradiction|].
    intros H.
    pose proof (proj2 (classify_None get_balance (Db.get_all_share_addresses db)
                         (Utils.unique_most_recent_trades trades) [] []) H) as H'.
    congruence.
  - split; [|reflexivity]. split; [|reflexivity]. intros _.
    exact (proj1 (classify_None get_balance _ _ [] []) E).
Qed.

(** ** The updates of the shares and the social identities *)

(** X18.  What [update_shares] computes: when it returns, every stored
    row has received, in the order of the list, the non-null fields of the
    passed shares that have its address, and nothing else has changed; it
    raises for a fault of the server only, never for the data, and then
    the database is as it was. *)
Theorem X18_update_shares_result (fault : Db.statement → bool) (db : Db.Database)
  (shares : list Share) :
  match Db.update_shares fault db shares with
  | (Py.Return _, db') => db' = Db.with_shares db (rows_updated shares (Db.shares db))
  | (Py.Raise e, db') => e = Db.ServerFault ∧ db' = db
  end.
Proof. apply update_shares_result. Qed.

Section OrderByBalance.
Import Py Db.

Lemma numeric_lt_spec a b :
  numeric_lt a b = true ↔
  (numeric_key a).1 < (numeric_key b).1
  ∨ ((numeric_key a).1 = (numeric_key b).1 ∧ ((numeric_key a).2 < (numeric_key b).2)%Q).
Proof.
  unfold numeric_lt. destruct (numeric_key a) as [ca qa], (numeric_key b) as [cb qb]. simpl.
  rewrite orb_true_iff, andb_true_iff, Z.ltb_lt, Z.eqb_eq, negb_true_iff.
  assert (Qle_bool qb qa = false ↔ (qa < qb)%Q) as ->; [|reflexivity].
  split.
  - intros H. apply Qnot_le_lt. intros Hle. apply Qle_bool_iff in Hle. congruence.
  - intros H. destruct (Qle_bool qb qa) eqn:E; [|reflexivity].
    apply Qle_bool_iff in E. lra.
Qed.

Lemma numeric_lt_asym a b : numeric_lt a b = true → numeric_lt b a = false.
Proof.
  intros H. apply not_true_is_false. intros H'. apply numeric_lt_spec in H, H'.
  destruct H as [H|[He H]], H' as [H'|[He' H']]; try lia. lra.
Qed.

Lemma numeric_lt_negative_trans a b c :
  numeric_lt a b = false → numeric_lt b c = false → numeric_lt a c = false.
Proof.
  intros Hab Hbc. apply not_true_is_false. intros Hac.
  apply not_true_iff_false in Hab, Hbc. rewrite numeric_lt_spec in Hab, Hbc.
  apply numeric_lt_spec in Hac.
  destruct (Z.lt_trichotomy (numeric_key a).1 (numeric_key b).1) as [H|[H|H]]; [tauto| |];
    (destruct (Z.lt_trichotomy (numeric_key b).1 (numeric_key c).1) as [G|[G|G]]; [tauto| |]);
    try (destruct Hac as [Hac|[He Hac]]; lia).
  destruct (Q_dec (numeric_key a).2 (numeric_key b).2) as [[H2|H2]|H2]; [tauto| |];
    (destruct (Q_dec (numeric_key b).2 (numeric_key c).2) as [[G2|G2]|G2]; [tauto| |]);
    destruct Hac as [Hac|[He Hac]]; try lia; lra.
Qed.

Lemma insert_by_balance_perm row rows : insert_by_balance row rows ≡ₚ row :: rows.
Proof.
  induction rows as [|r rest IH]; [reflexivity|]. cbn [insert_by_balance].
  destruct (numeric_lt (balance row) (balance r)); [|reflexivity].
  rewrite IH. apply Permutation_swap.
Qed.

Lemma insert_by_balance_descending row rows :
  descending rows → descending (insert_by_balance row rows).
Proof.
  induction 1 as [|r rest Hr Hrest IH]; cbn [insert_by_balance].
  - constructor; [intros r []|constructor].
  - destruct (numeric_lt (balance row) (balance r)) eqn:E.
    + constructor; [|exact IH]. intros x Hx.
      apply (Permutation_in _ (insert_by_balance_perm row rest)) in Hx.
      destruct Hx as [<-|Hx]; [by apply numeric_lt_asym|auto].
    + constructor; [|by constructor]. intros x [<-|Hx]; [exact E|].
      apply (numeric_lt_negative_trans _ (balance r)); [exact E|by apply Hr].
Qed.

Lemma order_by_balance_desc_perm rows : order_by_balance_desc rows ≡ₚ rows.
Proof.
  induction rows as [|r rest IH]; [reflexivity|]. cbn [order_by_balance_desc foldr].
  rewrite insert_by_balance_perm. by constructor.
Qed.

Lemma order_by_balance_desc_descending rows : descending (order_by_balance_desc rows).
Proof.
  induction rows as [|r rest IH]; [constructor|]. by apply insert_by_balance_descending.
Qed.

Lemma descending_app l1 l2 :
  descending (l1 ++ l2) →
  descending l1 ∧ ∀ a b, In a l1 → In b l2 → balance_not_below a b.
Proof.
  induction l1 as [|x l1 IH]; simpl.
  - intros _. split; [constructor|]. intros a b [].
  - intros H. inversion H as [|? ? Hx Hrest]; subst. destruct (IH Hrest) as [Hd Hab].
    split.
    + constructor; [|exact Hd]. intros r Hr. apply Hx. apply in_or_app. auto.
    + intros a b [<-|Ha] Hb; [|auto]. apply Hx. apply in_or_app. auto.
Qed.

Lemma shares_missing_twitter_spec db limit :
  0 ≤ limit →
  ∃ rows left_out,
    get_shares_missing_twitter db limit = Some rows
    ∧ rows ++ left_out ≡ₚ List.filter missing_twitter (shares db)
    ∧ length rows
      = Nat.min (Z.to_nat limit) (length (List.filter missing_twitter (shares db)))
    ∧ descending rows
    ∧ ∀ a b, In a rows → In b left_out → balance_not_below a b.
Proof.
  intros Hl. unfold get_shares_missing_twitter.
  destruct (Z.ltb_spec limit 0) as [|_]; [lia|].
  fold missing_twitter. change (fun row => missing_twitter row) with missing_twitter.
  set (sorted := order_by_balance_desc (List.filter missing_twitter (shares db))).
  exists (take (Z.to_nat limit) sorted), (drop (Z.to_nat limit) sorted).
  pose proof (order_by_balance_desc_descending (List.filter missing_twitter (shares db)))
    as Hd.
  fold sorted in Hd. rewrite <- (take_drop (Z.to_nat limit) sorted) in Hd.
  apply descending_app in Hd as [Hd1 Hd2].
  split; [reflexivity|]. split; [|split; [|split; [exact Hd1|exact Hd2]]].
  - rewrite take_drop. apply order_by_balance_desc_perm.
  - rewrite length_take. unfold sorted.
    by rewrite (Permutation_length (order_by_balance_desc_perm _)).
Qed.

End OrderByBalance.

(** X19.  [get_shares_missing_twitter] returns the shares that have no
    user name, by decreasing balance, up to the limit: the rows returned
    and the rows left out are together the stored rows without a user
    name; the rows returned are as many as the limit allows, in
    decreasing order of balance, and none of them has a smaller balance
    than a row left out. *)
Theorem X19_shares_missing_twitter_by_balance (db : Db.Database) (limit : Z) :
  0 ≤ limit →
  ∃ rows left_out,
    Db.get_shares_missing_twitter db limit = Some rows
    ∧ rows ++ left_out ≡ₚ List.filter missing_twitter (Db.shares db)
    ∧ length rows
      = Nat.min (Z.to_nat limit) (length (List.filter missing_twitter (Db.shares db)))
    ∧ descending rows
    ∧ ∀ a b, In a rows → In b left_out → balance_not_below a b.
Proof. apply shares_missing_twitter_spec. Qed.

Lemma X19_shares_missing_twitter_by_balance_witness :
  0 ≤ 1
  ∧ ∃ rows left_out,
      Db.get_shares_missing_twitter unnamed_db 1 = Some rows
      ∧ rows ++ left_out ≡ₚ List.filter missing_twitter (Db.shares unnamed_db)
      ∧ length rows = 1%nat.
Proof.
  split; [lia|].
  destruct (X19_shares_missing_twitter_by_balance unnamed_db 1 ltac:(lia))
    as (rows & left_out & H1 & H2 & H3 & _).
  exists rows, left_out. split; [exact H1|]. split; [exact H2|]. rewrite H3. reflexivity.
Defined.

Section Lookups.
Import Py Db Utils.

Variable backends : Backends.

Lemma same_but_identity_refl row : same_but_identity row row.
Proof. repeat split. Qed.

Lemma same_but_identity_trans a b c :
  same_but_identity a b → same_but_identity b c → same_but_identity a c.
Proof.
  unfold same_but_identity. intros (?&?&?&?&?&?&?) (?&?&?&?&?&?&?).
  repeat split; congruence.
Qed.

(** One attempt: one request to the first back end, at most one to the
    second; the share keeps all but its identity; an attempt succeeds on
    an answer of the first back end only. *)
Lemma attempt_spec address_str share made :
  let '(outcome, share', made') := attempt backends address_str share made in
  same_but_identity share share'
  ∧ friendtech_requests made' = S (friendtech_requests made)
  ∧ (twitterscore_requests made' ≤ S (twitterscore_requests made))%nat
  ∧ (outcome = Succeeded →
     ∃ d, get_info_from_address backends (friendtech_requests made) address_str = Answered d
          ∧ twitter_username share' = twitterUsername d)
  ∧ ((∀ d, get_info_from_address backends (friendtech_requests made) address_str
           ≠ Answered d) →
     outcome ≠ Succeeded ∧ share' = share
     ∧ twitterscore_requests made' = twitterscore_requests made).
Proof.
  unfold attempt.
  destruct (get_info_from_address backends (friendtech_requests made) address_str)
    as [d| |] eqn:E; simpl.
  - destruct (get_twitter_score backends (twitterscore_requests made) (twitterUsername d))
      as [td| |]; simpl.
    + destruct (success td) as [[]|]; simpl;
        (split; [repeat split|]); (split; [reflexivity|]); (split; [lia|]);
        (split; [intros; eauto; discriminate|]); intros H; exfalso; by apply (H d).
    + (split; [repeat split|]); (split; [reflexivity|]); (split; [lia|]).
      split; [eauto|]. intros H; exfalso; by apply (H d).
    + (split; [repeat split|]); (split; [reflexivity|]); (split; [lia|]).
      split; [discriminate|]. intros H; exfalso; by apply (H d).
  - split; [apply same_but_identity_refl|]. split; [reflexivity|]. split; [lia|].
    split; [discriminate|]. intros _. split; [discriminate|]. auto.
  - split; [apply same_but_identity_refl|]. split; [reflexivity|]. split; [lia|].
    split; [discriminate|]. intros _. split; [discriminate|]. auto.
Qed.

Lemma attempts_spec left address_str share made :
  let '(success, share', made') := attempts backends left address_str share made in
  same_but_identity share share'
  ∧ (friendtech_requests made' ≤ friendtech_requests made + left)%nat
  ∧ (twitterscore_requests made' ≤ twitterscore_requests made + left)%nat
  ∧ (success = false → friendtech_requests made' = (friendtech_requests made + left)%nat)
  ∧ (success = true →
     ∃ k d, get_info_from_address backends k address_str = Answered d
            ∧ twitter_username share' = twitterUsername d).
Proof.
  revert share made. induction left as [|left IH]; intros share made; cbn [attempts].
  - split; [apply same_but_identity_refl|]. split; [lia|]. split; [lia|].
    split; [intros _; lia|discriminate].
  - pose proof (attempt_spec address_str share made) as H.
    destruct (attempt backends address_str share made) as [[outcome share1] made1].
    destruct H as (Hs & Hf & Ht & Hok & _).
    assert (let '(success, share', made') :=
              attempts backends left address_str share1 made1 in
            same_but_identity share share'
            ∧ (friendtech_requests made' ≤ friendtech_requests made + S left)%nat
            ∧ (twitterscore_requests made' ≤ twitterscore_requests made + S left)%nat
            ∧ (success = false →
               friendtech_requests made' = (friendtech_requests made + S left)%nat)
            ∧ (success = true →
               ∃ k d, get_info_from_address backends k address_str = Answered d
                      ∧ twitter_username share' = twitterUsername d)) as Hrest.
    { specialize (IH share1 made1).
      destruct (attempts backends left address_str share1 made1) as [[success share'] made'].
      destruct IH as (Hs' & Hf' & Ht' & Hfail & Hok').
      split; [eapply same_but_identity_trans; eauto|]. split; [lia|]. split; [lia|].
      split; [intros Hb; specialize (Hfail Hb); lia|exact Hok']. }
    destruct outcome; [|exact Hrest|exact Hrest].
    split; [exact Hs|]. split; [lia|]. split; [lia|]. split; [discriminate|].
    intros _. destruct (Hok eq_refl) as (d & Hd & Hu). eauto.
Qed.

(** With a back end that gives no answer, every attempt fails. *)
Lemma attempts_no_answer left address_str share made :
  (∀ k a d, get_info_from_address backends k a ≠ Answered d) →
  attempts backends left address_str share made
  = (false, share,
     {| friendtech_requests := (friendtech_requests made + left)%nat;
        twitterscore_requests := twitterscore_requests made |}).
Proof.
  intros Hno. revert made. induction left as [|left IH]; intros made; cbn [attempts].
  - destruct made. simpl. by rewrite Nat.add_0_r.
  - pose proof (attempt_spec address_str share made) as H.
    destruct (attempt backends address_str share made) as [[outcome share1] made1].
    destruct H as (_ & Hf & _ & _ & Hdown).
    destruct (Hdown (fun d => Hno _ _ d)) as (Hout & -> & Ht).
    rewrite IH. rewrite Hf, Ht.
    replace (S (friendtech_requests made) + left)%nat
      with (friendtech_requests made + S left)%nat by lia.
    destruct outcome; [congruence|reflexivity|reflexivity].
Qed.

Lemma not_found_same row : same_but_identity row (not_found row).
Proof. repeat split. Qed.

Lemma lookup_shares_spec max_attempts shares_in updated_shares made :
  let '(updated, made') :=
    lookup_shares backends max_attempts shares_in updated_shares made in
  ∃ new, updated = updated_shares ++ new
    ∧ Forall2 (fun row s => same_but_identity row s ∧ identity_from backends s)
              shares_in new
    ∧ (friendtech_requests made'
       ≤ friendtech_requests made + Z.to_nat max_attempts * length shares_in)%nat
    ∧ (twitterscore_requests made'
       ≤ twitterscore_requests made + Z.to_nat max_attempts * length shares_in)%nat.
Proof.
  revert updated_shares made.
  induction shares_in as [|share rest IH]; intros updated_shares made; cbn [lookup_shares].
  - exists []. rewrite app_nil_r. split; [reflexivity|]. split; [constructor|].
    simpl. lia.
  - pose proof (attempts_spec (Z.to_nat max_attempts)
                  (String.append "0x" (hexlify (address share))) share made) as H.
    destruct (attempts backends _ _ share made) as [[success share'] made1].
    destruct H as (Hs & Hf & Ht & _ & Hok).
    set (s := if success then share' else not_found share').
    specialize (IH (updated_shares ++ [s]) made1).
    destruct (lookup_shares backends max_attempts rest (updated_shares ++ [s]) made1)
      as [updated made'].
    destruct IH as (new & -> & Hnew & Hf' & Ht').
    exists (s :: new). rewrite <- app_assoc. split; [reflexivity|]. split.
    + constructor; [|exact Hnew]. subst s. destruct success.
      * split; [exact Hs|]. right. destruct (Hok eq_refl) as (k & d & Hd & Hu). eauto.
      * split; [|by left]. eapply same_but_identity_trans; [exact Hs|apply not_found_same].
    + cbn [length]. split; nia.
Qed.

Lemma lookup_shares_no_answer max_attempts shares_in updated_shares made :
  (∀ k a d, get_info_from_address backends k a ≠ Answered d) →
  lookup_shares backends max_attempts shares_in updated_shares made
  = (updated_shares ++ map not_found shares_in,
     {| friendtech_requests :=
          (friendtech_requests made + Z.to_nat max_attempts * length shares_in)%nat;
        twitterscore_requests := twitterscore_requests made |}).
Proof.
  intros Hno. revert updated_shares made.
  induction shares_in as [|share rest IH]; intros updated_shares made; cbn [lookup_shares].
  - rewrite app_nil_r. destruct made. simpl. f_equal. f_equal. lia.
  - rewrite (attempts_no_answer _ _ _ _ Hno). rewrite IH. cbn [map length].
    rewrite <- app_assoc. simpl. f_equal. f_equal. lia.
Qed.

Lemma update_row_keeps_username row s :
  twitter_username row ≠ None → twitter_username (update_row row s) ≠ None.
Proof.
  unfold update_row. destruct (bool_decide _); [|auto]. simpl.
  destruct (twitter_username s); [discriminate|auto].
Qed.

Lemma fold_update_keeps_username l row :
  twitter_username row ≠ None → twitter_username (fold_left update_row l row) ≠ None.
Proof.
  revert row. induction l as [|s l IH]; intros row H; [exact H|].
  simpl. apply IH. by apply update_row_keeps_username.
Qed.

(** A row updated from a share that holds a user name holds a user name. *)
Lemma fold_update_sets_username l row s :
  In s l → address s = address row → twitter_username s ≠ None →
  twitter_username (fold_left update_row l row) ≠ None.
Proof.
  revert row. induction l as [|s0 l IH]; intros row; [intros []|].
  intros [->|Hin] Ha Hu; simpl.
  - apply fold_update_keeps_username. unfold update_row.
    rewrite bool_decide_eq_true_2 by congruence. simpl.
    destruct (twitter_username s); [discriminate|congruence].
  - apply (IH _ Hin); [by rewrite update_row_address|exact Hu].
Qed.

Lemma in_rows_updated l rows row' :
  In row' (rows_updated l rows) ↔ ∃ row, In row rows ∧ row' = fold_left update_row l row.
Proof.
  unfold rows_updated. rewrite in_map_iff. split; intros (row & H1 & H2); eauto.
Qed.

(** The default data is written over itself only. *)
Lemma fold_not_found_keeps l row :
  labelled_not_found row → labelled_not_found (fold_left update_row (map not_found l) row).
Proof.
  revert row. induction l as [|s l IH]; intros row H; [exact H|].
  simpl. apply IH. unfold update_row. destruct (bool_decide _); [|exact H].
  repeat split.
Qed.

Lemma fold_not_found_sets l row s :
  In s l → address s = address row →
  labelled_not_found (fold_left update_row (map not_found l) row).
Proof.
  revert row. induction l as [|s0 l IH]; intros row; [intros []|].
  intros [->|Hin] Ha; simpl.
  - apply fold_not_found_keeps. unfold update_row.
    rewrite bool_decide_eq_true_2 by (simpl; congruence). repeat split.
  - apply (IH _ Hin). by rewrite update_row_address.
Qed.

(** A row updated from shares that agree with it but for the identity
    agrees with itself but for the identity. *)
Lemma fold_update_same l row0 row :
  same_but_identity row0 row →
  (∀ s, In s l → address s = address row0 → same_but_identity row0 s) →
  same_but_identity row0 (fold_left update_row l row).
Proof.
  revert row. induction l as [|s l IH]; intros row Hrow Hl; [exact Hrow|].
  simpl. apply IH; [|intros; apply Hl; simpl; auto].
  unfold update_row. destruct (bool_decide (address row = address s)) eqn:E; [|exact Hrow].
  apply bool_decide_eq_true in E.
  destruct Hrow as (Ha & Hreg & Hrest).
  destruct (Hl s (or_introl eq_refl)) as (_ & Hreg' & Hlt & Hb & Hbp & Hsp & Hsu);
    [congruence|].
  unfold same_but_identity. simpl. repeat split; try assumption.
  rewrite Hreg'. destruct (registered row0); [reflexivity|exact Hreg].
Qed.

Lemma fold_update_other l row :
  (∀ s, In s l → address s ≠ address row) → fold_left update_row l row = row.
Proof.
  revert row. induction l as [|s l IH]; intros row Hl; [reflexivity|].
  simpl. unfold update_row at 2.
  rewrite bool_decide_eq_false_2 by (intros E; apply (Hl s); simpl; auto).
  apply IH. intros; apply Hl; simpl; auto.
Qed.

End Lookups.

Section TwitterInfo.
Import Py Db Utils.

Variable fault : statement → bool.
Variable backends : Backends.

Lemma update_twitter_info_unfold db max_attempts made :
  ∃ selected,
    get_shares_missing_twitter db 30 = Some selected
    ∧ (length selected ≤ 30)%nat
    ∧ (∀ row, In row selected → In row (shares db) ∧ twitter_username row = None)
    ∧ update_twitter_info fault backends db max_attempts made
      = let '(updated, made') := lookup_shares backends max_attempts selected [] made in
        ((update_shares fault db updated).1, (update_shares fault db updated).2, made').
Proof.
  destruct (shares_missing_twitter_spec db 30 ltac:(lia))
    as (selected & left_out & Hsel & Hperm & Hlen & _).
  exists selected. split; [exact Hsel|]. split; [lia|]. split.
  - intros row Hin.
    assert (In row (List.filter missing_twitter (shares db))) as H.
    { apply (Permutation_in _ Hperm). apply in_or_app. auto. }
    apply filter_In in H as [H1 H2]. split; [exact H1|].
    unfold missing_twitter in H2. destruct (twitter_username row); [discriminate|reflexivity].
  - unfold update_twitter_info. rewrite Hsel. destruct selected as [|s l]; [reflexivity|].
    destruct (lookup_shares backends max_attempts (s :: l) [] made) as [updated made'].
    destruct updated as [|u updated]; [reflexivity|].
    destruct (update_shares fault db (u :: updated)) as [res db']. reflexivity.
Qed.

End TwitterInfo.

(** X20.  One call of [update_twitter_info] makes at most [max_attempts]
    requests to each back end for each of the at most 30 shares it
    fetches; it leaves the trades, adds and removes no share, and raises
    for a fault of the server only, the database then being as it was. *)
Theorem X20_twitter_requests_bounded (fault : Db.statement → bool)
  (backends : Utils.Backends) (db : Db.Database) (max_attempts : Z)
  (made : Utils.Lookups) :
  let '(res, db', made') :=
    Utils.update_twitter_info fault backends db max_attempts made in
  (Utils.friendtech_requests made'
   ≤ Utils.friendtech_requests made + Z.to_nat max_attempts * 30)%nat
  ∧ (Utils.twitterscore_requests made'
     ≤ Utils.twitterscore_requests made + Z.to_nat max_attempts * 30)%nat
  ∧ Db.trades db' = Db.trades db
  ∧ length (Db.shares db') = length (Db.shares db)
  ∧ ∀ e, res = Py.Raise e → e = Db.ServerFault ∧ db' = db.
Proof.
  destruct (update_twitter_info_unfold fault backends db max_attempts made)
    as (selected & _ & Hlen & _ & ->).
  pose proof (lookup_shares_spec backends max_attempts selected [] made) as H.
  destruct (Utils.lookup_shares backends max_attempts selected [] made) as [updated made'].
  destruct H as (new & _ & _ & Hf & Ht).
  pose proof (update_shares_result fault db updated) as Hres.
  destruct (Db.update_shares fault db updated) as [[[]|e] db']; cbn [fst snd].
  - split; [nia|]. split; [nia|]. subst db'. split; [reflexivity|]. split.
    + simpl. unfold rows_updated. apply length_map.
    + discriminate.
  - destruct Hres as [-> ->]. split; [nia|]. split; [nia|]. split; [reflexivity|].
    split; [reflexivity|]. intros e' [= <-]. auto.
Qed.

(** X21.  When the first back end gives no answer (it returns [None] or
    raises at every request), [update_twitter_info] makes exactly
    [max_attempts] requests to it for each share fetched and none to the
    second back end, and a call that returns has written the default data
    (user name "not_found", name "Not Found", rank 0, score 0) on every
    row that has the address of a fetched share. *)
Theorem X21_silent_backend_writes_the_default_data (fault : Db.statement → bool)
  (backends : Utils.Backends) (db : Db.Database) (max_attempts : Z)
  (made : Utils.Lookups) (selected : list Share) :
  (∀ k a d, Utils.get_info_from_address backends k a ≠ Utils.Answered d) →
  Db.get_shares_missing_twitter db 30 = Some selected →
  let '(res, db', made') :=
    Utils.update_twitter_info fault backends db max_attempts made in
  Utils.friendtech_requests made'
  = (Utils.friendtech_requests made + Z.to_nat max_attempts * length selected)%nat
  ∧ Utils.twitterscore_requests made' = Utils.twitterscore_requests made
  ∧ (res = Py.Return tt →
     ∀ row', In row' (Db.shares db') → In (address row') (map address selected) →
       labelled_not_found row').
Proof.
  intros Hno Hsel.
  destruct (update_twitter_info_unfold fault backends db max_attempts made)
    as (selected' & Hsel' & _ & _ & ->).
  assert (selected' = selected) as -> by congruence.
  rewrite (lookup_shares_no_answer backends max_attempts selected [] made Hno).
  cbn [app]. pose proof (update_shares_result fault db (map Utils.not_found selected)) as Hres.
  destruct (Db.update_shares fault db (map Utils.not_found selected)) as [[[]|e] db']; cbn [fst snd].
  - split; [reflexivity|]. split; [reflexivity|]. intros _ row' Hin Ha. subst db'.
    simpl in Hin. apply in_rows_updated in Hin as (row & Hrow & ->).
    rewrite fold_update_address in Ha. apply in_map_iff in Ha as (s & Hs & Hin).
    by apply (fold_not_found_sets selected row s).
  - split; [reflexivity|]. split; [reflexivity|]. discriminate.
Qed.

Lemma X21_silent_backend_writes_the_default_data_witness :
  (∀ k a d, Utils.get_info_from_address silent_backends k a ≠ Utils.Answered d)
  ∧ Db.get_shares_missing_twitter unnamed_db 30 = Some [sample_update x03; sample_update x04]
  ∧ let '(res, db', made') :=
      Utils.update_twitter_info no_fault silent_backends unnamed_db 10 no_lookups in
    Utils.friendtech_requests made' = 20%nat
    ∧ res = Py.Return tt
    ∧ ∀ row', In row' (Db.shares db') →
        In (address row') (map address [sample_update x03; sample_update x04]) →
        labelled_not_found row'.
Proof.
  assert (∀ k a d, Utils.get_info_from_address silent_backends k a ≠ Utils.Answered d) as H
    by discriminate.
  split; [exact H|]. split; [reflexivity|].
  pose proof (X21_silent_backend_writes_the_default_data no_fault silent_backends
                unnamed_db 10 no_lookups [sample_update x03; sample_update x04]
                H eq_refl) as Hx.
  assert ((Utils.update_twitter_info no_fault silent_backends unnamed_db 10 no_lookups).1.1
          = Py.Return tt) as Hres by reflexivity.
  destruct (Utils.update_twitter_info no_fault silent_backends unnamed_db 10 no_lookups)
    as [[res db'] made'].
  destruct Hx as (H1 & _ & H3). simpl in Hres.
  split; [rewrite H1; reflexivity|]. split; [exact Hres|]. exact (H3 Hres).
Defined.

(** X22.  When the first back end never answers with a null user name,
    a call of [update_twitter_info] that returns leaves a user name on
    every row that has the address of a fetched share, so that no later
    call fetches a share of one of these addresses. *)
Theorem X22_fetched_shares_are_not_fetched_again (fault : Db.statement → bool)
  (backends : Utils.Backends) (db : Db.Database) (max_attempts : Z)
  (made : Utils.Lookups) (selected : list Share) :
  (∀ k a d, Utils.get_info_from_address backends k a = Utils.Answered d →
     Utils.twitterUsername d ≠ None) →
  Db.get_shares_missing_twitter db 30 = Some selected →
  let '(res, db', made') :=
    Utils.update_twitter_info fault backends db max_attempts made in
  res = Py.Return tt →
  (∀ row', In row' (Db.shares db') → In (address row') (map address selected) →
     twitter_username row' ≠ None)
  ∧ ∀ limit next, Db.get_shares_missing_twitter db' limit = Some next →
      ∀ row', In row' next → ¬ In (address row') (map address selected).
Proof.
  intros Hname Hsel.
  destruct (update_twitter_info_unfold fault backends db max_attempts made)
    as (selected' & Hsel' & _ & _ & ->).
  assert (selected' = selected) as -> by congruence.
  pose proof (lookup_shares_spec backends max_attempts selected [] made) as H.
  destruct (Utils.lookup_shares backends max_attempts selected [] made) as [updated made'].
  destruct H as (new & -> & Hnew & _). cbn [app].
  pose proof (update_shares_result fault db new) as Hres.
  destruct (Db.update_shares fault db new) as [[[]|e] db']; cbn [fst snd]; [|discriminate].
  intros _.
  assert (∀ row', In row' (Db.shares db') → In (address row') (map address selected) →
            twitter_username row' ≠ None) as Hall.
  { intros row' Hin Ha. subst db'. simpl in Hin.
    apply in_rows_updated in Hin as (row & Hrow & ->).
    rewrite fold_update_address in Ha. apply in_map_iff in Ha as (r & Hr & Hin).
    destruct (Forall2_in_l _ _ _ r Hnew Hin) as (s & Hs & (Hsa & _) & Hid).
    apply (fold_update_sets_username new row s Hs); [congruence|].
    destruct Hid as [->|(k & a & d & Hd & ->)]; [discriminate|by apply (Hname k a d)]. }
  split; [exact Hall|]. intros limit next Hnext row' Hin Ha.
  unfold Db.get_shares_missing_twitter in Hnext.
  destruct (limit <? 0); [discriminate|]. injection Hnext as <-.
  apply list_elem_of_In, (subseteq_take (Z.to_nat limit)), list_elem_of_In in Hin.
  apply (Permutation_in _ (order_by_balance_desc_perm _)) in Hin.
  apply filter_In in Hin as [Hin Hmiss].
  apply (Hall row' Hin Ha). destruct (twitter_username row'); [discriminate|reflexivity].
Qed.

Lemma X22_fetched_shares_are_not_fetched_again_witness :
  (∀ k a d, Utils.get_info_from_address answering_backends k a = Utils.Answered d →
     Utils.twitterUsername d ≠ None)
  ∧ Db.get_shares_missing_twitter unnamed_db 30 = Some [sample_update x03; sample_update x04]
  ∧ let '(res, db', made') :=
      Utils.update_twitter_info no_fault answering_backends unnamed_db 10 no_lookups in
    res = Py.Return tt
    ∧ Db.get_shares_missing_twitter db' 30 = Some []
    ∧ ∀ row', In row' (Db.shares db') →
        In (address row') (map address [sample_update x03; sample_update x04]) →
        twitter_username row' ≠ None.
Proof.
  assert (∀ k a d, Utils.get_info_from_address answering_backends k a = Utils.Answered d →
            Utils.twitterUsername d ≠ None) as H.
  { intros k a d [= <-]. discriminate. }
  split; [exact H|]. split; [reflexivity|].
  pose proof (X22_fetched_shares_are_not_fetched_again no_fault answering_backends
                unnamed_db 10 no_lookups [sample_update x03; sample_update x04]
                H eq_refl) as Hx.
  assert ((Utils.update_twitter_info no_fault answering_backends unnamed_db 10
             no_lookups).1.1 = Py.Return tt) as Hres by reflexivity.
  assert (Db.get_shares_missing_twitter
            (Utils.update_twitter_info no_fault answering_backends unnamed_db 10
               no_lookups).1.2 30 = Some []) as Hnext by reflexivity.
  destruct (Utils.update_twitter_info no_fault answering_backends unnamed_db 10 no_lookups)
    as [[res db'] made'].
  simpl in Hres, Hnext. split; [exact Hres|]. split; [exact Hnext|].
  exact (proj1 (Hx Hres)).
Defined.

(** X23.  With pairwise distinct addresses in the table of the shares,
    [update_twitter_info] changes nothing but the user name, the name,
    the score and the rank of the shares it fetched, whatever the back
    ends answer and whether the update is served or not: every row keeps
    its address, registration time, last transaction, balance, prices and
    supply, and a row whose address was not fetched stays as it is. *)
Theorem X23_only_the_identity_is_updated (fault : Db.statement → bool)
  (backends : Utils.Backends) (db : Db.Database) (max_attempts : Z)
  (made : Utils.Lookups) (selected : list Share) :
  NoDup (map address (Db.shares db)) →
  Db.get_shares_missing_twitter db 30 = Some selected →
  Forall2 (fun row row' =>
             same_but_identity row row'
             ∧ (¬ In (address row) (map address selected) → row' = row))
          (Db.shares db)
          (Db.shares (Utils.update_twitter_info fault backends db max_attempts made).1.2).
Proof.
  intros Hnd Hsel.
  destruct (update_twitter_info_unfold fault backends db max_attempts made)
    as (selected' & Hsel' & _ & Hstored & ->).
  assert (selected' = selected) as -> by congruence.
  pose proof (lookup_shares_spec backends max_attempts selected [] made) as H.
  destruct (Utils.lookup_shares backends max_attempts selected [] made) as [updated made'].
  destruct H as (new & -> & Hnew & _). cbn [app fst snd].
  pose proof (update_shares_result fault db new) as Hres.
  destruct (Db.update_shares fault db new) as [[[]|e] db']; cbn [fst snd].
  - subst db'. simpl. unfold rows_updated. apply Forall2_fmap_r.
    apply Forall_Forall2_diag. apply Forall_forall. intros row Hrow%list_elem_of_In. split.
    + apply fold_update_same; [apply same_but_identity_refl|].
      intros s Hs Ha. destruct (Forall2_in_r _ _ _ s Hnew Hs) as (r & Hr & Hrs & _).
      assert (r = row) as ->; [|exact Hrs].
      apply (NoDup_map_inj address (Db.shares db)); [exact Hnd|by apply Hstored|exact Hrow|].
      destruct Hrs as [Hrs _]. congruence.
    + intros Hout. apply fold_update_other. intros s Hs Ha. apply Hout.
      destruct (Forall2_in_r _ _ _ s Hnew Hs) as (r & Hr & (Hrs & _) & _).
      apply in_map_iff. exists r. split; [congruence|exact Hr].
  - destruct Hres as [_ ->]. apply Forall_Forall2_diag. apply Forall_forall.
    intros row _. split; [apply same_but_identity_refl|reflexivity].
Qed.

Lemma X23_only_the_identity_is_updated_witness :
  NoDup (map address (Db.shares unnamed_db))
  ∧ Db.get_shares_missing_twitter unnamed_db 30 = Some [sample_update x03; sample_update x04]
  ∧ Forall2 (fun row row' =>
               same_but_identity row row'
               ∧ (¬ In (address row) (map address [sample_update x03; sample_update x04]) →
                  row' = row))
            (Db.shares unnamed_db)
            (Db.shares (Utils.update_twitter_info no_fault answering_backends unnamed_db
                          10 no_lookups).1.2).
Proof.
  assert (NoDup (map address (Db.shares unnamed_db))) as H.
  { simpl.
    repeat (apply NoDup_cons; split;
            [rewrite list_elem_of_In; simpl; intuition discriminate|]).
    constructor. }
  split; [exact H|]. split; [reflexivity|].
  exact (X23_only_the_identity_is_updated no_fault answering_backends unnamed_db 10
           no_lookups _ H eq_refl).
Defined.

Section UpdateTwice.
Import Py Db.








End UpdateTwice.



(** ** The health records of the endpoints *)

Section FreshScanner.
Import Py Scanner.






End FreshScanner.


